(** * Garden Madness: link graph, backlinks and search artifacts

    A shallow embedding of the three build-time generators of the garden,

      - [generateBacklinks]   (src/lib/generate-backlinks.js),
      - [generateSearchIndex] (src/lib/generate-search-index.js),
      - [generateGraphData]   (src/lib/generate-graph-data.js),

    and of the JavaScript primitives they rely on: [String.prototype.toLowerCase],
    the global regular expression [/\[\[(.*?)\]\]/g] driven by [regex.exec],
    [Map.prototype.set]/[get], property access on a plain object, [Array.prototype.push]
    and [includes], [console.warn] and [fs.writeFile].

    Strings are sequences of ASCII characters (the code units of the JavaScript
    string); on them [toLowerCase] only touches the letters A-Z and the line
    terminators excluded by [.] are LF and CR.  The generators use
    [toLowerCase] as the one normalisation of titles and link texts; a
    property that depends on what a case conversion does to a string says
    that it is about ASCII strings ([Js.is_ascii]). *)

From Stdlib Require Import Ascii String NArith Sorting.Sorted.
From Stdlib Require OrderedTypeEx.
From stdpp Require Import gmap strings list fin_maps sorting.

Open Scope string_scope.
Open Scope list_scope.

(** String concatenation, the [+] and the template literals of the source. *)
Infix "+++" := String.append (at level 60, right associativity).

(** ** JavaScript strings *)

Module Js.

(** The ASCII code units, below 128, and the strings made of them: the
    domain on which the case conversions below are those of JavaScript.
    Beyond it [toLowerCase] and [toUpperCase] follow the Unicode tables and
    may change the length of a string; a property that depends on what a
    case conversion does to its argument is stated for ASCII strings. *)
Definition is_ascii_unit (c : ascii) : bool :=
  (Ascii.N_of_ascii c <? 128)%N.

Fixpoint is_ascii (s : string) : bool :=
  match s with
  | EmptyString => true
  | String c s' => is_ascii_unit c && is_ascii s'
  end.

(** [c.toLowerCase()] on one ASCII code unit: the letters A-Z are folded,
    every other ASCII code unit is kept. *)
Definition lower_ascii (c : ascii) : ascii :=
  let n := Ascii.N_of_ascii c in
  if ((65 <=? n) && (n <=? 90))%N then Ascii.ascii_of_N (n + 32) else c.

(** [s.toLowerCase()]. *)
Fixpoint toLowerCase (s : string) : string :=
  match s with
  | EmptyString => EmptyString
  | String c s' => String (lower_ascii c) (toLowerCase s')
  end.

(** Truthiness of a string value: only the empty string is falsy. *)
Definition truthy (s : string) : bool :=
  match s with
  | EmptyString => false
  | String _ _ => true
  end.

(** [a || b] where [a] may be [undefined]. *)
Definition or_else (a : option string) (b : string) : string :=
  match a with
  | Some x => if truthy x then x else b
  | None => b
  end.

(** The code units that [.] does not match (no [s] flag): LF and CR. *)
Definition is_line_terminator (c : ascii) : bool :=
  let n := Ascii.N_of_ascii c in ((n =? 10) || (n =? 13))%N.

(** Own-property names of [Object.prototype]: what a lookup on a plain
    object [{}] finds through the prototype chain when it has no own
    property of that name.  Every one of them is a function or (for
    [__proto__]) the prototype object itself: truthy, and without an
    [includes] method. *)
Definition object_prototype_keys : list string :=
  [ "constructor"; "__proto__"; "hasOwnProperty"; "isPrototypeOf";
    "propertyIsEnumerable"; "toLocaleString"; "toString"; "valueOf";
    "__defineGetter__"; "__defineSetter__"; "__lookupGetter__";
    "__lookupSetter__" ].

Definition inherited (k : string) : bool :=
  bool_decide (k ∈ object_prototype_keys).

(** Lexicographic order on code units, the order of [<] and of the default
    [Array.prototype.sort] on strings. *)
Definition str_le (a b : string) : Prop := String.leb a b = true.

(** The array index a property name stands for, if any: the canonical
    decimal numeral of an integer from 0 to 2^32 - 2. *)
Definition digit_of (c : ascii) : option N :=
  let n := Ascii.N_of_ascii c in
  if ((48 <=? n) && (n <=? 57))%N then Some (n - 48)%N else None.

Fixpoint numeral (acc : N) (s : string) : option N :=
  match s with
  | EmptyString => Some acc
  | String c s' =>
      match digit_of c with
      | Some d => numeral (10 * acc + d)%N s'
      | None => None
      end
  end.

Definition array_index (k : string) : option N :=
  match k with
  | EmptyString => None
  | String "0" EmptyString => Some 0%N
  | String "0" _ => None
  | _ => match numeral 0 k with
         | Some n => if (n <? 4294967295)%N then Some n else None
         | None => None
         end
  end.

Fixpoint insert_by_index {A : Type} (n : N) (x : A) (l : list (N * A)) : list (N * A) :=
  match l with
  | [] => [(n, x)]
  | (n', x') :: l' =>
      if (n <? n')%N then (n, x) :: l else (n', x') :: insert_by_index n x l'
  end.

(** The order in which the own properties of an ordinary object are
    enumerated ([Object.keys], [for...in], [JSON.stringify]), given in
    order of creation: first the array indices in increasing order, then
    the other names in order of creation. *)
Definition own_property_order {A : Type} (o : list (string * A)) : list (string * A) :=
  let indexed :=
    foldl (fun acc kv => match array_index kv.1 with
                         | Some n => insert_by_index n kv acc
                         | None => acc
                         end) [] o in
  (snd <$> indexed) ++ filter (fun kv => array_index kv.1 = None) o.

End Js.

(** ** The regular expression [/\[\[(.*?)\]\]/g] *)

Module Regex.

(** After an opening [[[]: the lazy [(.*?)] followed by [\]\]].  The
    capture grows one code unit at a time, stops at the first [[]]]] it
    meets and fails on a line terminator or at the end of the input.
    Returns the capture and the text after the closing brackets. *)
Fixpoint lazy_until_close (s : string) : option (string * string) :=
  match s with
  | EmptyString => None
  | String "]" (String "]" rest) => Some (EmptyString, rest)
  | String c s' =>
      if Js.is_line_terminator c then None
      else match lazy_until_close s' with
           | Some (cap, rest) => Some (String c cap, rest)
           | None => None
           end
  end.

(** A match anchored at the first code unit of [s]: the capture group. *)
Definition match_here (s : string) : option string :=
  match s with
  | String "[" (String "[" s') => fst <$> lazy_until_close s'
  | _ => None
  end.

(** The [while ((match = regex.exec(text)) !== null)] loop: the list of
    [match[1]] in order.  [skip] is the number of code units left before
    [regex.lastIndex]; a match of capture [cap] spans [length cap + 4] code
    units, and the search resumes right after it. *)
Fixpoint exec_loop (skip : nat) (s : string) : list string :=
  match s with
  | EmptyString => []
  | String _ s' =>
      match skip with
      | S k => exec_loop k s'
      | O =>
          match match_here s with
          | Some cap => cap :: exec_loop (String.length cap + 3) s'
          | None => exec_loop 0 s'
          end
      end
  end.

Definition exec_all (text : string) : list string := exec_loop 0 text.

End Regex.

(** ** Results of code that may throw *)

(** The only exception these generators raise on a readable corpus is the
    [TypeError] of calling a method that is not there. *)
Inductive result (A : Type) : Type :=
  | Ok (a : A)
  | TypeError (msg : string).
Arguments Ok {A} a.
Arguments TypeError {A} msg.

#[global] Instance result_ret : MRet result := fun A a => Ok a.
#[global] Instance result_bind : MBind result := fun A B f m =>
  match m with
  | Ok a => f a
  | TypeError msg => TypeError msg
  end.

#[global] Instance result_fmap : FMap result := fun A B f m =>
  match m with
  | Ok a => Ok (f a)
  | TypeError msg => TypeError msg
  end.

(** A [for (const x of l)] loop whose body may throw, threading the state. *)
Fixpoint for_of {A S : Type} (body : S -> A -> result S) (l : list A) (s : S) : result S :=
  match l with
  | [] => Ok s
  | x :: l' => s' ← body s x; for_of body l' s'
  end.

(** ** The content collections *)

(** One entry of [getCollection('notes')] or [getCollection('concepts')].
    [textContent] is the string [(await entry.render()).Content.toString()]
    that the generators scan.  The slug does not include the collection, so
    a note and a concept may carry the same one. *)
Record Entry : Type := mkEntry {
  slug : string;
  collection : string;
  title : string;
  description : option string;
  summary : option string;
  textContent : string
}.

#[global] Instance Entry_eq_dec : EqDecision Entry.
Proof. solve_decision. Defined.

(** [[...(await getCollection('notes')), ...(await getCollection('concepts'))]]:
    the list every generator below receives as [allContent]. *)
Definition allContent (notes concepts : list Entry) : list Entry :=
  notes ++ concepts.

(** ** The console and the file system *)

Inductive ConsoleMsg : Type :=
  | Log (s : string)
  | Warn (s : string).

#[global] Instance ConsoleMsg_eq_dec : EqDecision ConsoleMsg.
Proof. solve_decision. Defined.

(** The files are keyed by their path below [process.cwd()]. *)
Record World : Type := mkWorld {
  files : gmap string string;
  console : list ConsoleMsg
}.

Definition console_log (s : string) (w : World) : World :=
  {| files := files w; console := console w ++ [Log s] |}.

(** [fs.writeFile(path, data)]: creates the file or replaces its content. *)
Definition writeFile (path data : string) (w : World) : World :=
  {| files := <[path := data]> (files w); console := console w |}.

Definition warnings (w : World) : list string :=
  omap (fun m => match m with Warn s => Some s | Log _ => None end) (console w).

(** ** JSON values and the two library calls *)

(** A JSON-serialisable value; an object lists its own properties in the
    order in which they are enumerated. *)
#[warnings="-register-all"]
Inductive json : Type :=
  | JStr (s : string)
  | JArr (items : list json)
  | JObj (props : list (string * json)).

(** What the search generator hands to [lunr]: the reference field, the
    indexed fields with the boost given for each, and the documents in the
    order of [this.add]. *)
Record SearchDocument : Type := mkSearchDocument {
  d_id : string;
  d_title : string;
  d_description : string;
  d_content : string
}.

Record LunrBuilder : Type := mkLunrBuilder {
  lunr_ref : string;
  lunr_fields : list (string * option N);
  lunr_documents : list SearchDocument
}.

(** [JSON.stringify(v, null, 2)] and [lunr(config).toJSON()] are library
    code: any pair of functions will do. *)
Class Runtime : Type := {
  JSON_stringify : json -> string;
  lunr_toJSON : LunrBuilder -> json
}.

(** ** Title resolution *)

(** [titleToSlugMap.get(linkedTitle.toLowerCase())] *)
Definition resolve (m : gmap string string) (linkedTitle : string) : option string :=
  m !! Js.toLowerCase linkedTitle.

(** A resolved slug passes [if (targetSlug)] when it is not the empty string. *)
Definition resolved (m : gmap string string) (linkedTitle : string) : option string :=
  match resolve m linkedTitle with
  | Some targetSlug => if Js.truthy targetSlug then Some targetSlug else None
  | None => None
  end.

(** ** generate-backlinks.js *)

Module Backlinks.

(** [allContent.forEach(entry => titleToSlugMap.set(title.toLowerCase(), slug))] *)
Definition titleToSlugMap (allContent : list Entry) : gmap string string :=
  foldl (fun m entry => <[Js.toLowerCase (title entry) := slug entry]> m) ∅ allContent.

(** The object [backlinks]: its own properties, in order of creation. *)
Definition t : Type := list (string * list string).

Fixpoint own (k : string) (o : t) : option (list string) :=
  match o with
  | [] => None
  | (k', v) :: o' => if decide (k' = k) then Some v else own k o'
  end.

(** [o[k] = v]: replaces the value of an own property, or adds the
    property after the existing ones. *)
Fixpoint set (k : string) (v : list string) (o : t) : t :=
  match o with
  | [] => [(k, v)]
  | (k', v') :: o' => if decide (k' = k) then (k', v) :: o' else (k', v') :: set k v o'
  end.

(** Truthiness of [o[k]]: an own array, or else whatever the prototype
    chain provides. *)
Definition has (k : string) (o : t) : bool :=
  match own k o with
  | Some _ => true
  | None => Js.inherited k
  end.

Definition unresolved_warning (linkedTitle source : string) : string :=
  "Warning: Unresolved internal link '[[" +++ linkedTitle +++ "]]' in " +++ source.

(** The body of the [while] loop for one match, in the entry [source]. *)
Definition on_match (m : gmap string string) (source : string)
    (st : t * list ConsoleMsg) (linkedTitle : string) : result (t * list ConsoleMsg) :=
  let '(backlinks, out) := st in
  match resolved m linkedTitle with
  | Some targetSlug =>
      let backlinks := if has targetSlug backlinks then backlinks
                       else set targetSlug [] backlinks in
      match own targetSlug backlinks with
      | Some sources =>
          if bool_decide (source ∈ sources) then Ok (backlinks, out)
          else Ok (set targetSlug (sources ++ [source]) backlinks, out)
      | None => TypeError "backlinks[targetSlug].includes is not a function"
      end
  | None =>
      Ok (backlinks, out ++ [Warn (unresolved_warning linkedTitle source)])
  end.

(** The body of [for (const entry of allContent)]. *)
Definition on_entry (m : gmap string string)
    (st : t * list ConsoleMsg) (entry : Entry) : result (t * list ConsoleMsg) :=
  for_of (on_match m (slug entry)) (Regex.exec_all (textContent entry)) st.

(** From the map construction to the end of the outer loop: the object
    [backlinks] and the console output at that point. *)
Definition collect (allContent : list Entry) (out : list ConsoleMsg)
    : result (t * list ConsoleMsg) :=
  for_of (on_entry (titleToSlugMap allContent)) allContent ([], out).

(** The sources recorded for a target; [[]] when there is no property,
    as in [backlinksData[currentSlug] || []]. *)
Definition sources_of (target : string) (o : t) : list string :=
  default [] (own target o).

Definition to_json (o : t) : json :=
  JObj (prod_map id (fun v => JArr (JStr <$> v)) <$> Js.own_property_order o).

Definition outputPath : string := "src/data/backlinks.json".

End Backlinks.

Section generateBacklinks.
Context `{Runtime}.

Definition generateBacklinks (allContent : list Entry) (w : World) : result World :=
  let w := console_log "Generating backlinks..." w in
  '(backlinks, out) ← Backlinks.collect allContent (console w);
  let w := {| files := files w; console := out |} in
  let w := writeFile Backlinks.outputPath (JSON_stringify (Backlinks.to_json backlinks)) w in
  Ok (console_log "Backlinks generated successfully!" w).

End generateBacklinks.

(** ** generate-graph-data.js *)

Module Graph.

Record Node : Type := mkNode {
  n_id : string;
  n_label : string;
  n_group : string;
  n_url : string
}.

Record Edge : Type := mkEdge {
  e_from : string;
  e_to : string;
  e_arrows : string
}.

#[global] Instance Edge_eq_dec : EqDecision Edge.
Proof. solve_decision. Defined.

Record Data : Type := mkData {
  nodes : list Node;
  edges : list Edge
}.

(** First pass, one entry: [nodes.push({...})] then [slugToTitleMap.set(...)]. *)
Definition first_pass_entry (st : list Node * gmap string string) (entry : Entry)
    : list Node * gmap string string :=
  let '(nodes, slugToTitleMap) := st in
  let id := slug entry in
  let title := title entry in
  let group := collection entry in
  (nodes ++ [ {| n_id := id; n_label := title; n_group := group;
                 n_url := "/" +++ group +++ "/" +++ id |} ],
   <[Js.toLowerCase title := id]> slugToTitleMap).

Definition first_pass (allContent : list Entry) : list Node * gmap string string :=
  foldl first_pass_entry ([], ∅) allContent.

(** Despite its name the map goes from lower-cased title to slug. *)
Definition slugToTitleMap (allContent : list Entry) : gmap string string :=
  snd (first_pass allContent).

(** Second pass, the body of the [while] loop for one match. *)
Definition on_match (m : gmap string string) (sourceId : string)
    (edges : list Edge) (linkedTitle : string) : list Edge :=
  match resolved m linkedTitle with
  | Some targetId => edges ++ [ {| e_from := sourceId; e_to := targetId; e_arrows := "to" |} ]
  | None => edges
  end.

Definition on_entry (m : gmap string string) (edges : list Edge) (entry : Entry) : list Edge :=
  foldl (on_match m (slug entry)) edges (Regex.exec_all (textContent entry)).

Definition second_pass (m : gmap string string) (allContent : list Entry) : list Edge :=
  foldl (on_entry m) [] allContent.

(** The object [graphData]. *)
Definition graphData (allContent : list Entry) : Data :=
  let '(nodes, slugToTitleMap) := first_pass allContent in
  {| nodes := nodes; edges := second_pass slugToTitleMap allContent |}.

(** An edge as the pair (from, to). *)
Definition endpoints (e : Edge) : string * string := (e_from e, e_to e).

Definition node_to_json (n : Node) : json :=
  JObj [("id", JStr (n_id n)); ("label", JStr (n_label n));
        ("group", JStr (n_group n)); ("url", JStr (n_url n))].

Definition edge_to_json (e : Edge) : json :=
  JObj [("from", JStr (e_from e)); ("to", JStr (e_to e)); ("arrows", JStr (e_arrows e))].

Definition to_json (g : Data) : json :=
  JObj [("nodes", JArr (node_to_json <$> nodes g));
        ("edges", JArr (edge_to_json <$> edges g))].

Definition outputPath : string := "src/data/graph-data.json".

End Graph.

(** ** generate-search-index.js *)

Module Search.

Record StoreItem : Type := mkStoreItem {
  s_title : string;
  s_description : string;
  s_url : string
}.

(** The object [store]: its own properties, in order of creation. *)
Definition store_t : Type := list (string * StoreItem).

Fixpoint set (k : string) (v : StoreItem) (o : store_t) : store_t :=
  match o with
  | [] => [(k, v)]
  | (k', v') :: o' => if decide (k' = k) then (k', v) :: o' else (k', v') :: set k v o'
  end.

(** [store[id] = {...}]: assigning an object to [__proto__] replaces the
    prototype and creates no own property. *)
Definition assign (k : string) (v : StoreItem) (o : store_t) : store_t :=
  if decide (k = "__proto__") then o else set k v o.

(** The body of [for (const entry of allContent)]. *)
Definition on_entry (st : list SearchDocument * store_t) (entry : Entry)
    : list SearchDocument * store_t :=
  let '(documents, store) := st in
  let id := slug entry in
  let title := title entry in
  let description := Js.or_else (description entry) (Js.or_else (summary entry) "") in
  (documents ++ [ {| d_id := id; d_title := title; d_description := description;
                     d_content := textContent entry |} ],
   assign id {| s_title := title; s_description := description;
                s_url := "/" +++ collection entry +++ "/" +++ slug entry |} store).

Definition collect (allContent : list Entry) : list SearchDocument * store_t :=
  foldl on_entry ([], []) allContent.

(** The configuration function passed to [lunr]: [ref('id')], the three
    fields (only [title] is given a boost) and the documents. *)
Definition builder (documents : list SearchDocument) : LunrBuilder :=
  {| lunr_ref := "id";
     lunr_fields := [("title", Some 10%N); ("description", None); ("content", None)];
     lunr_documents := documents |}.

Definition item_to_json (i : StoreItem) : json :=
  JObj [("title", JStr (s_title i)); ("description", JStr (s_description i));
        ("url", JStr (s_url i))].

Definition store_to_json (o : store_t) : json :=
  JObj (prod_map id item_to_json <$> Js.own_property_order o).

Definition outputPath : string := "src/data/search-index.json".

End Search.

Section generators.
Context `{Runtime}.

Definition generateSearchIndex (allContent : list Entry) (w : World) : World :=
  let w := console_log "Generating search index..." w in
  let '(documents, store) := Search.collect allContent in
  let idx := lunr_toJSON (Search.builder documents) in
  let searchData := JObj [("index", idx); ("store", Search.store_to_json store)] in
  let w := writeFile Search.outputPath (JSON_stringify searchData) w in
  console_log "Search index generated successfully!" w.

Definition generateGraphData (allContent : list Entry) (w : World) : World :=
  let w := console_log "Generating graph data..." w in
  let graphData := Graph.graphData allContent in
  let w := writeFile Graph.outputPath (JSON_stringify (Graph.to_json graphData)) w in
  console_log "Graph data generated successfully!" w.

(** The build chain of package.json:
    generate-backlinks && generate-search-index && generate-graph-data. *)
Definition build (allContent : list Entry) (w : World) : result World :=
  w ← generateBacklinks allContent w;
  Ok (generateGraphData allContent (generateSearchIndex allContent w)).

(** The three artifacts of a world. *)
Definition artifacts (w : World) : option string * option string * option string :=
  (files w !! Backlinks.outputPath, files w !! Search.outputPath, files w !! Graph.outputPath).

End generators.

(** ** Vocabulary of the properties *)

(** The references of the corpus in scan order: source slug and raw
    target text of every match, entry after entry. *)
Definition refs_of (entry : Entry) : list (string * string) :=
  pair (slug entry) <$> Regex.exec_all (textContent entry).

Definition refs (allContent : list Entry) : list (string * string) :=
  allContent ≫= refs_of.

(** The edge a reference stands for, if it resolves. *)
Definition edge_of (m : gmap string string) (r : string * string) : option Graph.Edge :=
  (fun targetId => {| Graph.e_from := r.1; Graph.e_to := targetId; Graph.e_arrows := "to" |})
    <$> resolved m r.2.

(** The link (source, target) a reference stands for, if it resolves. *)
Definition link_of (m : gmap string string) (r : string * string) : option (string * string) :=
  pair r.1 <$> resolved m r.2.

(** The console message for a reference that does not resolve. *)
Definition warning_of (m : gmap string string) (r : string * string) : option ConsoleMsg :=
  match resolved m r.2 with
  | Some _ => None
  | None => Some (Warn (Backlinks.unresolved_warning r.2 r.1))
  end.

Definition node_of (entry : Entry) : Graph.Node :=
  {| Graph.n_id := slug entry; Graph.n_label := title entry;
     Graph.n_group := collection entry;
     Graph.n_url := "/" +++ collection entry +++ "/" +++ slug entry |}.

(** Slugs that are safe as keys of the plain object [backlinks] and pass
    the truthiness test: not empty, not a name found on [Object.prototype]. *)
Definition plain_slug (s : string) : Prop :=
  Js.truthy s = true ∧ Js.inherited s = false.

Definition lex_min (a b : string) : string :=
  if String.leb a b then a else b.

Definition LF : string := String (Ascii.ascii_of_N 10) EmptyString.

(** A body made of one fenced code block. *)
Definition fenced (code : string) : string :=
  "```" +++ LF +++ code +++ LF +++ "```".

(** A link target without line terminator and without closing bracket. *)
Fixpoint simple_target (t : string) : bool :=
  match t with
  | EmptyString => true
  | String c t' =>
      negb (Js.is_line_terminator c) && negb (Ascii.eqb c "]") && simple_target t'
  end.

(** A text without opening bracket, and a text without backquote. *)
Fixpoint no_open_bracket (s : string) : bool :=
  match s with
  | EmptyString => true
  | String c s' => negb (Ascii.eqb c "[") && no_open_bracket s'
  end.

Fixpoint no_backquote (s : string) : bool :=
  match s with
  | EmptyString => true
  | String c s' => negb (Ascii.eqb c "`") && no_backquote s'
  end.

(** Number of elements of [l] equal to [x]. *)
Definition occurrences `{EqDecision A} (x : A) (l : list A) : nat :=
  length (filter (x =.) l).

(** *** The properties as the specification words them *)

(** Collision policy: of two documents with the same normalized title the
    lexicographically smaller identifier wins. *)
Definition prefers_smallest_identifier (allContent : list Entry) : Prop :=
  ∀ e1 e2, e1 ∈ allContent → e2 ∈ allContent → slug e1 ≠ slug e2 →
    Js.toLowerCase (title e1) = Js.toLowerCase (title e2) →
    resolve (Backlinks.titleToSlugMap allContent) (title e1)
      = Some (lex_min (slug e1) (slug e2)).

(** A marker inside a fenced code block is no reference: a body that is
    one fenced block (the code itself closes no fence) has no candidate. *)
Definition skips_fenced_code : Prop :=
  ∀ code, no_backquote code = true → Regex.exec_all (fenced code) = [].

(** Whitespace runs are collapsed before the lookup: a reference written
    with a doubled blank still finds the title. *)
Definition collapses_whitespace (allContent : list Entry) : Prop :=
  ∀ e a b, e ∈ allContent → title e = a +++ " " +++ b →
    resolve (Backlinks.titleToSlugMap allContent) (a +++ "  " +++ b) = Some (slug e).

(** Node and edge arrays sorted by identifier. *)
Definition edge_le (x y : Graph.Edge) : Prop :=
  Js.str_le (Graph.e_from x) (Graph.e_from y).

Definition sorted_by_identifier (g : Graph.Data) : Prop :=
  Sorted Js.str_le (Graph.n_id <$> Graph.nodes g) ∧ Sorted edge_le (Graph.edges g).

(** Exactly one reference of the corpus misses the title map. *)
Definition one_unresolved (allContent : list Entry) (source raw : string) : Prop :=
  let m := Backlinks.titleToSlugMap allContent in
  ∃ before after,
    refs allContent = before ++ (source, raw) :: after ∧
    resolve m raw = None ∧
    ∀ r, r ∈ before ++ after → is_Some (resolve m r.2).

(** Unresolved-link non-fatality, for one corpus: the build completes and
    adds exactly one warning, the one for that reference. *)
Definition unresolved_link_non_fatal `{Runtime} (allContent : list Entry) : Prop :=
  ∀ source raw w, one_unresolved allContent source raw →
    ∃ w', build allContent w = Ok w' ∧
          warnings w' = warnings w ++ [Backlinks.unresolved_warning raw source].

(** *** Sample corpora *)

Definition doc (slug title body : string) : Entry :=
  {| slug := slug; collection := "notes"; title := title;
     description := None; summary := None; textContent := body |}.

(** Two titles that differ only in case. *)
Definition corpus_collision : list Entry :=
  [ doc "a" "Foo" "see [[foo]]"; doc "b" "foo" "no links" ].

(** The end-to-end example of the specification, with the reference moved
    into a fenced code block. *)
Definition corpus_fenced : list Entry :=
  [ doc "apple" "Apple" (fenced "[[Banana]]"); doc "banana" "Banana" "no links" ].

(** A reference that differs from the title by a doubled blank. *)
Definition corpus_whitespace : list Entry :=
  [ doc "my-first-note" "My First Note" "no links";
    doc "intro" "Introduction" "see [[My  First Note]]" ].

(** Entries listed in decreasing order of identifier. *)
Definition corpus_unsorted : list Entry :=
  [ doc "b" "Banana" "see [[Apple]]"; doc "a" "Apple" "see [[Banana]]" ].

(** A document whose identifier is the empty string. *)
Definition corpus_empty_slug : list Entry :=
  [ doc "" "Home" "no links"; doc "a" "Apple" "see [[Home]] and [[Missing]]" ].

(** A note about constructors, linked from another note. *)
Definition corpus_constructor : list Entry :=
  [ doc "constructor" "Constructor" "no links";
    doc "a" "Apple" "see [[Constructor]] and [[Missing]]" ].

(** The end-to-end example, with a second and third reference. *)
Definition corpus_repeat : list Entry :=
  [ doc "A" "Apple" "see [[Banana]], [[banana]] and [[Missing]]";
    doc "B" "Banana" "no links but [[Apple]]" ].

(** A runtime for the examples: both library calls return a constant. *)
Definition demo_runtime : Runtime :=
  {| JSON_stringify := fun _ => "{}"; lunr_toJSON := fun _ => JObj [] |}.

Definition empty_world : World := {| files := ∅; console := [] |}.

(** ** Loop invariants *)

(** The two nested loops of [generateBacklinks] as one loop over [refs]. *)
Definition on_ref (m : gmap string string) (st : Backlinks.t * list ConsoleMsg)
    (r : string * string) : result (Backlinks.t * list ConsoleMsg) :=
  Backlinks.on_match m r.1 st r.2.

(** The object [backlinks] records exactly the links of [links], each
    source once per target. *)
Definition mirrors (backlinks : Backlinks.t) (links : list (string * string)) : Prop :=
  (∀ a b, a ∈ Backlinks.sources_of b backlinks ↔ (a, b) ∈ links) ∧
  (∀ b, NoDup (Backlinks.sources_of b backlinks)).

Section built.
Context `{Runtime}.

(** The world after a build: the three artifacts written over the files
    that were there, the console extended. *)
Definition built (c : list Entry) (w : World) (st : Backlinks.t * list ConsoleMsg) : World :=
  {| files :=
       <[Graph.outputPath := JSON_stringify (Graph.to_json (Graph.graphData c))]>
       (<[Search.outputPath :=
            JSON_stringify
              (JObj [("index", lunr_toJSON (Search.builder (Search.collect c).1));
                     ("store", Search.store_to_json (Search.collect c).2)])]>
       (<[Backlinks.outputPath := JSON_stringify (Backlinks.to_json st.1)]> (files w)));
     console :=
       (console w ++ [Log "Generating backlinks..."]) ++ st.2
         ++ [Log "Backlinks generated successfully!"; Log "Generating search index...";
             Log "Search index generated successfully!"; Log "Generating graph data...";
             Log "Graph data generated successfully!"] |}.

End built.

(** * The rest of the garden: match positions, page components, the
    link plugin and the tag pages *)

(** ** Matches with their position *)

Module Match.

(** The loop of [Regex.exec_loop] keeping [match.index] with [match[1]];
    [pos] is the index of the first code unit of [s] in the text. *)
Fixpoint exec_loop (pos skip : nat) (s : string) : list (nat * string) :=
  match s with
  | EmptyString => []
  | String _ s' =>
      match skip with
      | S k => exec_loop (S pos) k s'
      | O =>
          match Regex.match_here s with
          | Some cap => (pos, cap) :: exec_loop (S pos) (String.length cap + 3) s'
          | None => exec_loop (S pos) 0 s'
          end
      end
  end.

Definition exec_all (text : string) : list (nat * string) := exec_loop 0 0 text.

(** [regex.lastIndex] after the match [m]. *)
Definition lastIndex (m : nat * string) : nat := m.1 + (String.length m.2 + 4).

(** [match[0]]: the matched part of the text. *)
Definition full (text : string) (m : nat * string) : string :=
  String.substring m.1 (String.length m.2 + 4) text.

(** Matches that follow one another without overlap between the indices
    [lo] and [hi]. *)
Fixpoint spaced (lo hi : nat) (ms : list (nat * string)) : Prop :=
  match ms with
  | [] => (lo ≤ hi)%nat
  | m :: ms' => (lo ≤ m.1)%nat ∧ spaced (lastIndex m) hi ms'
  end.

End Match.

(** No line terminator in the text. *)
Fixpoint one_line (s : string) : bool :=
  match s with
  | EmptyString => true
  | String c s' => negb (Js.is_line_terminator c) && one_line s'
  end.

Definition starts_with_close (s : string) : bool :=
  match s with
  | EmptyString => false
  | String c _ => Ascii.eqb c "]"
  end.

(** The text holds two closing brackets in a row. *)
Fixpoint has_close_pair (s : string) : bool :=
  match s with
  | EmptyString => false
  | String c s' => (Ascii.eqb c "]" && starts_with_close s') || has_close_pair s'
  end.

(** A text written as links with simple targets, each after some text
    free of brackets, and a last piece of such text. *)
Fixpoint render_links (items : list (string * string)) (last : string) : string :=
  match items with
  | [] => last
  | (before, target) :: items' =>
      before +++ "[[" +++ target +++ "]]" +++ render_links items' last
  end.

(** ** Invariants of the object [backlinks] *)

(** Distinct keys, no empty array, and no own property under a name that
    [Object.prototype] already answers. *)
Definition tidy (o : Backlinks.t) : Prop :=
  NoDup o.*1 ∧
  Forall (fun kv => kv.2 ≠ []) o ∧
  ∀ k, Js.inherited k = true → Backlinks.own k o = None.

(** A reference whose target resolves to a name found on [Object.prototype]. *)
Definition hits_prototype (m : gmap string string) (r : string * string) : Prop :=
  ∃ target, resolved m r.2 = Some target ∧ Js.inherited target = true.

(** ** The search store read back by the search box (Search.astro) *)

Module SearchView.

(** Own property [k] of the object [store]. *)
Fixpoint own (k : string) (o : Search.store_t) : option Search.StoreItem :=
  match o with
  | [] => None
  | (k', v) :: o' => if decide (k' = k) then Some v else own k o'
  end.

(** [item.description.substring(0, 150) + '...'] *)
Definition snippet (description : string) : string :=
  String.substring 0 150 description +++ "...".

(** What one [<li>] of the result list interpolates. *)
Record Row : Type := mkRow {
  r_href : string;
  r_title : string;
  r_snippet : string
}.

(** The content of the result panel. *)
Inductive panel : Type :=
  | NoResults
  | Results (rows : list Row).

(** The body of [results.forEach]: [searchStore[result.ref]] is an own
    item, or a value inherited from [Object.prototype] (truthy, with no
    [description]), or [undefined]. *)
Definition on_result (searchStore : Search.store_t) (rows : list Row) (ref : string)
    : result (list Row) :=
  match own ref searchStore with
  | Some item =>
      Ok (rows ++ [ {| r_href := Search.s_url item; r_title := Search.s_title item;
                       r_snippet := snippet (Search.s_description item) |} ])
  | None =>
      if Js.inherited ref
      then TypeError "Cannot read properties of undefined (reading 'substring')"
      else Ok rows
  end.

(** [displayResults(results)], on the refs of the results. *)
Definition displayResults (searchStore : Search.store_t) (results : list string)
    : result panel :=
  match results with
  | [] => Ok NoResults
  | _ => Results <$> for_of (on_result searchStore) results []
  end.

End SearchView.

(** The store item and the result row of an entry. *)
Definition description_of (entry : Entry) : string :=
  Js.or_else (description entry) (Js.or_else (summary entry) "").

Definition item_of (entry : Entry) : Search.StoreItem :=
  {| Search.s_title := title entry; Search.s_description := description_of entry;
     Search.s_url := "/" +++ collection entry +++ "/" +++ slug entry |}.

Definition search_document_of (entry : Entry) : SearchDocument :=
  {| d_id := slug entry; d_title := title entry; d_description := description_of entry;
     d_content := textContent entry |}.

Definition row_of (entry : Entry) : SearchView.Row :=
  {| SearchView.r_href := "/" +++ collection entry +++ "/" +++ slug entry;
     SearchView.r_title := title entry;
     SearchView.r_snippet := SearchView.snippet (description_of entry) |}.

(** ** The backlinks component and the layouts (Backlinks.astro) *)

Module BacklinksView.

(** [new Map(allContent.map(entry => [entry.slug, entry.data.title]))] *)
Definition slugToTitleMap (allContent : list Entry) : gmap string string :=
  foldl (fun m entry => <[slug entry := title entry]> m) ∅ allContent.

(** [slug.startsWith('notes/') ? 'notes' : 'concepts'] *)
Definition collectionType (slug : string) : string :=
  if String.prefix "notes/" slug then "notes" else "concepts".

(** [slugToTitleMap.get(slug) || slug] *)
Definition displayTitle (m : gmap string string) (slug : string) : string :=
  Js.or_else (m !! slug) slug.

Record Link : Type := mkLink {
  l_href : string;
  l_text : string
}.

(** One [<li>] of the list. *)
Definition link (m : gmap string string) (slug : string) : Link :=
  {| l_href := "/" +++ collectionType slug +++ "/" +++ slug;
     l_text := displayTitle m slug |}.

(** [.length] of the functions found on [Object.prototype]; [__proto__]
    answers the prototype object, which has none. *)
Definition inherited_length (k : string) : option nat :=
  if decide (k = "__proto__") then None
  else if bool_decide (k ∈ ["toLocaleString"; "toString"; "valueOf"]) then Some 0
  else if bool_decide (k ∈ ["__defineGetter__"; "__defineSetter__"]) then Some 2
  else Some 1.

(** The links the component renders for [currentSlug]:
    [incomingLinks = backlinksData[currentSlug] || []], then
    [incomingLinks.length > 0 && incomingLinks.map(...)]. *)
Definition render (m : gmap string string) (backlinksData : Backlinks.t)
    (currentSlug : string) : result (list Link) :=
  match Backlinks.own currentSlug backlinksData with
  | Some incomingLinks => Ok (link m <$> incomingLinks)
  | None =>
      if Js.inherited currentSlug then
        match inherited_length currentSlug with
        | Some (S _) => TypeError "incomingLinks.map is not a function"
        | _ => Ok []
        end
      else Ok []
  end.

(** [Astro.url.pathname.substring(1)] in both layouts. *)
Definition currentSlug (pathname : string) : string :=
  String.substring 1 (String.length pathname) pathname.

End BacklinksView.

(** ** Related notes of a concept (ConceptLayout.astro) *)

Module ConceptLayout.

(** [c.toUpperCase()] on one ASCII code unit: the letters a-z are raised,
    every other ASCII code unit is kept.  Outside ASCII the result of
    [toUpperCase] may be longer than its argument; the properties of
    [displayName] are stated for ASCII slugs. *)
Definition upper_ascii (c : ascii) : ascii :=
  let n := Ascii.N_of_ascii c in
  if ((97 <=? n) && (n <=? 122))%N then Ascii.ascii_of_N (n - 32) else c.

(** [noteSlug.replace(/-/g, ' ')] *)
Fixpoint hyphens_to_spaces (s : string) : string :=
  match s with
  | EmptyString => EmptyString
  | String c s' => String (if Ascii.eqb c "-" then " "%char else c) (hyphens_to_spaces s')
  end.

(** [s.split(' ')]: the pieces between the blanks, at least one. *)
Fixpoint split (s : string) : list string :=
  match s with
  | EmptyString => [EmptyString]
  | String c s' =>
      if Ascii.eqb c " " then EmptyString :: split s'
      else match split s' with
           | w :: ws => String c w :: ws
           | [] => [String c EmptyString]
           end
  end.

(** [word.charAt(0).toUpperCase() + word.slice(1)] *)
Definition capitalize (word : string) : string :=
  match word with
  | EmptyString => EmptyString
  | String c w => String (upper_ascii c) w
  end.

(** [words.join(' ')] *)
Fixpoint join (words : list string) : string :=
  match words with
  | [] => EmptyString
  | [w] => w
  | w :: ws => w +++ " " +++ join ws
  end.

(** The text of the link to a related note. *)
Definition displayName (noteSlug : string) : string :=
  join (capitalize <$> split (hyphens_to_spaces noteSlug)).

End ConceptLayout.

(** ** The click handler of the graph (KnowledgeGraph.astro) *)

Module GraphView.

(** [network.on('click', ...)]: where the browser is sent, if anywhere,
    when the click reports the node ids [clicked]. *)
Definition on_click (graphData : Graph.Data) (clicked : list string) : option string :=
  match clicked with
  | [] => None
  | nodeId :: _ =>
      match List.find (fun n => bool_decide (Graph.n_id n = nodeId)) (Graph.nodes graphData) with
      | Some node => if Js.truthy (Graph.n_url node) then Some (Graph.n_url node) else None
      | None => None
      end
  end.

End GraphView.

(** ** The pages of the entries (pages/notes/[...slug].astro and
    pages/concepts/[...slug].astro) *)

Module Routes.

(** The path of the page generated for [params: { slug: note.slug }]. *)
Definition note_path (slug : string) : string := "/notes/" +++ slug.

Definition concept_path (slug : string) : string := "/concepts/" +++ slug.

End Routes.

(** The text holds a slash. *)
Fixpoint has_slash (s : string) : bool :=
  match s with
  | EmptyString => false
  | String c s' => Ascii.eqb c "/" || has_slash s'
  end.

(** ** Slugs made from link texts (digital-garden-plan.md) *)

Module Plan.

(** The ASCII code units matched by [\s]: tab, line feed, vertical tab,
    form feed, carriage return and space. *)
Definition is_space (c : ascii) : bool :=
  let n := Ascii.N_of_ascii c in (((9 <=? n) && (n <=? 13)) || (n =? 32))%N.

(** [s.replace(/\s+/g, '-')]: every maximal run of white space becomes
    one hyphen; [in_run] tells that the code unit before was white space. *)
Fixpoint collapse (in_run : bool) (s : string) : string :=
  match s with
  | EmptyString => EmptyString
  | String c s' =>
      if is_space c then (if in_run then collapse true s' else String "-" (collapse true s'))
      else String c (collapse false s')
  end.

(** [linkText.toLowerCase().replace(/\s+/g, '-')] *)
Definition slugify (linkText : string) : string :=
  collapse false (Js.toLowerCase linkText).

End Plan.

(** A text without white space in which no hyphen follows a hyphen (nor
    comes first when [after_hyphen] is set). *)
Fixpoint slug_shape (after_hyphen : bool) (s : string) : bool :=
  match s with
  | EmptyString => true
  | String c s' =>
      negb (Plan.is_space c) &&
      (if Ascii.eqb c "-" then negb after_hyphen && slug_shape true s'
       else slug_shape false s')
  end.

(** ** The link plugin (remark-internal-links.js) *)

Module RemarkInternalLinks.

(** The map written out in the example. *)
Definition slugMap : gmap string string :=
  foldl (fun m kv => <[kv.1 := kv.2]> m) ∅
    [ ("my first note", "notes/my-first-note");
      ("introduction to digital gardens", "concepts/introduction-to-digital-gardens");
      ("atomic notes explained", "notes/atomic-notes-explained") ].

(** The nodes the plugin builds: [u('text', value)] and
    [u('link', { url }, [u('text', linkText)])]. *)
Inductive node : Type :=
  | Text (value : string)
  | Link (url : string) (linkText : string).

Definition broken_link_warning (linkText : string) : string :=
  "Warning: Broken internal link found: [[" +++ linkText +++ "]]".

(** The body of the [while] loop for one match of [node.value]; the state
    is [lastIndex], [newNodes] and the console output. *)
Definition on_match (m : gmap string string) (value : string)
    (st : nat * list node * list ConsoleMsg) (mt : nat * string)
    : nat * list node * list ConsoleMsg :=
  let '(lastIndex, newNodes, out) := st in
  let fullMatch := Match.full value mt in
  let linkText := mt.2 in
  let start := mt.1 in
  let newNodes :=
    if (lastIndex <? start)%nat
    then newNodes ++ [Text (String.substring lastIndex (start - lastIndex) value)]
    else newNodes in
  match resolved m linkText with
  | Some resolvedSlug =>
      (Match.lastIndex mt, newNodes ++ [Link ("/" +++ resolvedSlug) linkText], out)
  | None =>
      (Match.lastIndex mt, newNodes ++ [Text fullMatch],
       out ++ [Warn (broken_link_warning linkText)])
  end.

(** [newNodes] when the visitor is done with a text node, and what it
    printed. *)
Definition replacement (m : gmap string string) (value : string)
    : list node * list ConsoleMsg :=
  let '(lastIndex, newNodes, out) :=
    foldl (on_match m value) (0, [], []) (Match.exec_all value) in
  let newNodes :=
    if (lastIndex <? String.length value)%nat
    then newNodes ++ [Text (String.substring lastIndex (String.length value - lastIndex) value)]
    else newNodes in
  (newNodes, out).

(** The visitor on the child [index] of its parent: the children after
    the call, the index it returns along with [visit.SKIP] (none when it
    returns nothing) and what it printed.  It is called on text nodes. *)
Definition visitor (m : gmap string string) (children : list node) (index : nat)
    : list node * option nat * list ConsoleMsg :=
  match children !! index with
  | Some (Text value) =>
      let '(newNodes, out) := replacement m value in
      match newNodes with
      | [] => (children, None, out)
      | _ => (take index children ++ newNodes ++ drop (S index) children, Some index, out)
      end
  | _ => (children, None, [])
  end.

(** The source text a node stands for. *)
Definition source_of (n : node) : string :=
  match n with
  | Text value => value
  | Link _ linkText => "[[" +++ linkText +++ "]]"
  end.

Fixpoint concat_source (nodes : list node) : string :=
  match nodes with
  | [] => EmptyString
  | n :: nodes' => source_of n +++ concat_source nodes'
  end.

(** Url and text of the link nodes. *)
Definition link_part (n : node) : option (string * string) :=
  match n with
  | Text _ => None
  | Link url linkText => Some (url, linkText)
  end.

End RemarkInternalLinks.

(** ** The tag pages (pages/tags/[tag].astro and pages/tags/index.astro) *)

Module Tags.

(** An entry with its optional [data.tags]. *)
Record Tagged : Type := mkTagged {
  entry : Entry;
  tags : option (list string)
}.

(** [uniqueTags.add(tag)]: a [Set] keeps the order of first insertion. *)
Definition add (tag : string) (set : list string) : list string :=
  if bool_decide (tag ∈ set) then set else set ++ [tag].

(** The body of [allContent.forEach] in [getStaticPaths]. *)
Definition add_tags_of (set : list string) (e : Tagged) : list string :=
  match tags e with
  | Some ts => foldl (fun set tag => add (Js.toLowerCase tag) set) set ts
  | None => set
  end.

(** [Array.from(uniqueTags)]: the tags for which a page is generated. *)
Definition uniqueTags (allContent : list Tagged) : list string :=
  foldl add_tags_of [] allContent.

(** The test of [allContent.filter] on the page of [tag]. *)
Definition has_tag (tag : string) (e : Tagged) : bool :=
  match tags e with
  | Some ts => bool_decide (Js.toLowerCase tag ∈ Js.toLowerCase <$> ts)
  | None => false
  end.

(** [filteredContent]; [sort] stands for [.sort((a, b) =>
    a.data.title.localeCompare(b.data.title))]. *)
Definition filteredContent (sort : list Tagged → list Tagged)
    (allContent : list Tagged) (tag : string) : list Tagged :=
  sort (filter (fun e => has_tag tag e = true) allContent).

(** The body of the inner [forEach] of the index page:
    [tagCounts.set(t, (tagCounts.get(t) || 0) + 1)]. *)
Definition count_tag (tagCounts : gmap string nat) (tag : string) : gmap string nat :=
  let normalizedTag := Js.toLowerCase tag in
  <[normalizedTag := default 0 (tagCounts !! normalizedTag) + 1]> tagCounts.

Definition count_tags_of (tagCounts : gmap string nat) (e : Tagged) : gmap string nat :=
  match tags e with
  | Some ts => foldl count_tag tagCounts ts
  | None => tagCounts
  end.

Definition tagCounts (allContent : list Tagged) : gmap string nat :=
  foldl count_tags_of ∅ allContent.

(** All the tags of the corpus, lower-cased, with repetitions. *)
Definition all_tags (allContent : list Tagged) : list string :=
  allContent ≫= (fun e => Js.toLowerCase <$> default [] (tags e)).

End Tags.

(** ** What the properties of the build are stated with *)

(** Every reference that finds a title finds a slug that passes the test
    [if (targetSlug)] and is a safe key of the object [backlinks]. *)
Definition references_hit_plain_slugs (allContent : list Entry) : Prop :=
  ∀ r target, r ∈ refs allContent →
    resolve (Backlinks.titleToSlugMap allContent) r.2 = Some target → plain_slug target.

(** ** [JSON.stringify(value, null, 2)] *)

(** The serialisation ECMAScript defines for the call the generators
    make, with a gap of two blanks, on the values they build: strings,
    arrays and objects whose properties are listed in enumeration order. *)

Module Json.

Definition BACKSLASH : ascii := Ascii.ascii_of_N 92.
Definition QUOTE : ascii := Ascii.ascii_of_N 34.

Definition escape (c : ascii) : string := String BACKSLASH (String c EmptyString).

Definition hex_digit (n : N) : ascii :=
  Ascii.ascii_of_N (if (n <? 10)%N then 48 + n else 87 + n).

(** One code unit inside a JSON string: the quotation mark, the backslash
    and the control characters are escaped. *)
Definition quote_unit (c : ascii) : string :=
  let n := Ascii.N_of_ascii c in
  if (n =? 8)%N then escape "b"
  else if (n =? 9)%N then escape "t"
  else if (n =? 10)%N then escape "n"
  else if (n =? 12)%N then escape "f"
  else if (n =? 13)%N then escape "r"
  else if (n =? 34)%N then escape QUOTE
  else if (n =? 92)%N then escape BACKSLASH
  else if (n <? 32)%N
       then String BACKSLASH ("u00" +++ String (hex_digit (n / 16))
                                        (String (hex_digit (n mod 16)) EmptyString))
       else String c EmptyString.

Fixpoint quote_units (s : string) : string :=
  match s with
  | EmptyString => EmptyString
  | String c s' => quote_unit c +++ quote_units s'
  end.

Definition quote (s : string) : string :=
  String QUOTE (quote_units s +++ String QUOTE EmptyString).

Fixpoint join (separator : string) (parts : list string) : string :=
  match parts with
  | [] => EmptyString
  | [p] => p
  | p :: parts' => p +++ separator +++ join separator parts'
  end.

(** An array or object that is not empty: its parts one per line, two
    blanks deeper than [indent]. *)
Definition block (opening closing indent : string) (parts : string → list string) : string :=
  let inner := indent +++ "  " in
  opening +++ LF +++ inner +++ join ("," +++ LF +++ inner) (parts inner)
    +++ LF +++ indent +++ closing.

Fixpoint serialize (indent : string) (v : json) : string :=
  match v with
  | JStr s => quote s
  | JArr [] => "[]"
  | JArr items =>
      block "[" "]" indent (fun inner => List.map (serialize inner) items)
  | JObj [] => "{}"
  | JObj props =>
      block "{" "}" indent
        (fun inner => List.map (fun kv => match kv with
                                          | (k, item) => quote k +++ ": " +++ serialize inner item
                                          end) props)
  end.

Definition stringify (v : json) : string := serialize EmptyString v.

End Json.

(** A runtime with the serialisation above; the index of lunr is left to
    the function given. *)
Definition js_runtime (lunr : LunrBuilder → json) : Runtime :=
  {| JSON_stringify := Json.stringify; lunr_toJSON := lunr |}.

(** Idempotence as the specification words it: the artifacts are a
    function of the corpus snapshot, the documents that are there, in
    whatever order [getCollection] lists them at each build. *)
Definition deterministic_in_the_snapshot `{Runtime} (allContent : list Entry) : Prop :=
  ∀ listing w w', listing ≡ₚ allContent →
    artifacts <$> build listing w' = artifacts <$> build allContent w.

(** The lower-cased titles of the corpus. *)
Definition normalized_titles (allContent : list Entry) : list string :=
  (fun e => Js.toLowerCase (title e)) <$> allContent.

(** ** Ranking of the search results *)

#[global] Instance SearchDocument_eq_dec : EqDecision SearchDocument.
Proof. solve_decision. Defined.

Module Ranking.

(** The pieces of a field between white space, at least one. *)
Fixpoint pieces (s : string) : list string :=
  match s with
  | EmptyString => [EmptyString]
  | String c s' =>
      if Plan.is_space c then EmptyString :: pieces s'
      else match pieces s' with
           | w :: ws => String c w :: ws
           | [] => [String c EmptyString]
           end
  end.

(** Modelled from the spec: the tokenizer of the Search Indexer, which
    runs inside lunr and is not part of the repository.  A field is cut
    at white space, the tokens are put in lower case and the stopwords are
    discarded. *)
Definition tokens (stopwords : list string) (field : string) : list string :=
  filter (fun t => t ≠ EmptyString ∧ t ∉ stopwords) (Js.toLowerCase <$> pieces field).

(** Modelled from the spec: the term frequency of a query term in a
    field, the number of tokens of the field equal to the normalized
    term. *)
Definition tf (stopwords : list string) (term field : string) : nat :=
  occurrences (Js.toLowerCase term) (tokens stopwords field).

(** The text of a configured field in a document handed to lunr. *)
Definition field_text (name : string) (d : SearchDocument) : string :=
  if decide (name = "title") then d_title d
  else if decide (name = "description") then d_description d
  else if decide (name = "content") then d_content d
  else EmptyString.

(** Modelled from the spec: the weight multiplier of a field, the boost
    the generator configures for it, 1 when it configures none. *)
Definition multiplier (boost : option N) : nat := from_option N.to_nat 1 boost.

(** Modelled from the spec: the score of a document for a term, the term
    frequency weighted by the field multiplier and summed across the
    configured fields. *)
Definition score (stopwords : list string) (b : LunrBuilder) (term : string)
    (d : SearchDocument) : nat :=
  foldr (fun f acc => multiplier f.2 * tf stopwords term (field_text f.1 d) + acc) 0
        (lunr_fields b).

(** Modelled from the spec: the order of the results, descending score,
    ties broken by document identifier. *)
Definition before (stopwords : list string) (b : LunrBuilder) (term : string)
    (d1 d2 : SearchDocument) : bool :=
  match Nat.compare (score stopwords b term d2) (score stopwords b term d1) with
  | Lt => true
  | Gt => false
  | Eq => String.leb (d_id d1) (d_id d2)
  end.

Definition precedes (stopwords : list string) (b : LunrBuilder) (term : string)
    (d1 d2 : SearchDocument) : Prop :=
  before stopwords b term d1 d2 = true.

#[global] Instance precedes_dec stopwords b term d1 d2 :
  Decision (precedes stopwords b term d1 d2).
Proof. unfold precedes. apply _. Defined.

(** Modelled from the spec: the ranking at query time, the matching
    documents sorted by that order. *)
Definition search (stopwords : list string) (b : LunrBuilder) (term : string)
    : list SearchDocument :=
  merge_sort (precedes stopwords b term)
    (filter (fun d => (0 < score stopwords b term d)%nat) (lunr_documents b)).

End Ranking.







(** * Properties *)

(** ** The primitives on examples *)

Example exec_all_two :
  Regex.exec_all "see [[Banana]] and [[My First Note]]." = ["Banana"; "My First Note"].
Proof. reflexivity. Qed.

(** The lazy capture stops at the first closing pair, never crosses a
    line terminator, and may be empty. *)
Example exec_all_corner_cases :
  Regex.exec_all ("[[[a]] ]] [[b" +++ LF +++ "c]] [[]] [[d]") = ["[a"; ""].
Proof. reflexivity. Qed.

Example toLowerCase_example : Js.toLowerCase "My First-Note 42" = "my first-note 42".
Proof. reflexivity. Qed.

(** The end-to-end example of the specification: nodes A and B, one edge
    from A to B, and A as the only backlink of B. *)
Example end_to_end :
  let corpus := [ doc "A" "Apple" "see [[Banana]]"; doc "B" "Banana" "no links" ] in
  Graph.n_id <$> Graph.nodes (Graph.graphData corpus) = ["A"; "B"] ∧
  Graph.endpoints <$> Graph.edges (Graph.graphData corpus) = [("A", "B")] ∧
  Backlinks.collect corpus [] = Ok ([("B", ["A"])], []).
Proof. repeat split; reflexivity. Qed.

(** ** Loops *)

Section for_of.
Context {A S : Type} (body : S → A → result S).

Lemma for_of_app l1 l2 s :
  for_of body (l1 ++ l2) s = for_of body l1 s ≫= for_of body l2.
Proof.
  revert s. induction l1 as [|x l1 IH]; intros s; simpl; [done|].
  destruct (body s x) as [s'|msg]; simpl; [apply IH|done].
Qed.

End for_of.

Lemma for_of_ext {A S : Type} (f g : S → A → result S) l s :
  (∀ s x, f s x = g s x) → for_of f l s = for_of g l s.
Proof.
  intros Hfg. revert s. induction l as [|x l IH]; intros s; simpl; [done|].
  rewrite Hfg. destruct (g s x); simpl; [apply IH|done].
Qed.

Lemma for_of_bind {A B S : Type} (body : S → B → result S) (inner : A → list B) l s :
  for_of (fun s x => for_of body (inner x) s) l s = for_of body (l ≫= inner) s.
Proof.
  revert s. induction l as [|x l IH]; intros s; simpl; [done|].
  rewrite for_of_app. destruct (for_of body (inner x) s); simpl; [apply IH|done].
Qed.

Lemma for_of_fmap {A B S : Type} (body : S → B → result S) (g : A → B) l s :
  for_of (fun s x => body s (g x)) l s = for_of body (g <$> l) s.
Proof.
  revert s. induction l as [|x l IH]; intros s; simpl; [done|].
  destruct (body s (g x)); simpl; [apply IH|done].
Qed.

(** ** The title map *)

Section title_map.

Implicit Types (c : list Entry) (e : Entry) (m : gmap string string).

Lemma titleToSlugMap_snoc c e :
  Backlinks.titleToSlugMap (c ++ [e])
    = <[Js.toLowerCase (title e) := slug e]> (Backlinks.titleToSlugMap c).
Proof. unfold Backlinks.titleToSlugMap. by rewrite foldl_snoc. Qed.

(** The first pass of the graph generator pushes one node per entry and
    builds the same map as the backlink generator. *)
Lemma first_pass_spec c :
  Graph.first_pass c = (node_of <$> c, Backlinks.titleToSlugMap c).
Proof.
  induction c as [|e c IH] using rev_ind; [done|].
  unfold Graph.first_pass in *. rewrite foldl_snoc, IH, fmap_app, titleToSlugMap_snoc.
  done.
Qed.

Lemma slugToTitleMap_eq c : Graph.slugToTitleMap c = Backlinks.titleToSlugMap c.
Proof. unfold Graph.slugToTitleMap. by rewrite first_pass_spec. Qed.

(** Later entries that carry another title leave a key alone. *)
Lemma titleToSlugMap_app_other c1 c2 k :
  Forall (fun e => Js.toLowerCase (title e) ≠ k) c2 →
  Backlinks.titleToSlugMap (c1 ++ c2) !! k = Backlinks.titleToSlugMap c1 !! k.
Proof.
  induction c2 as [|e c2 IH] using rev_ind; intros Hc2.
  - by rewrite app_nil_r.
  - rewrite Forall_app, Forall_singleton in Hc2. destruct Hc2 as [Hc2 He].
    rewrite app_assoc, titleToSlugMap_snoc, lookup_insert_ne by done. by apply IH.
Qed.

(** The last entry with a given lower-cased title owns the key. *)
Lemma titleToSlugMap_last c1 e c2 :
  Forall (fun e' => Js.toLowerCase (title e') ≠ Js.toLowerCase (title e)) c2 →
  Backlinks.titleToSlugMap (c1 ++ e :: c2) !! Js.toLowerCase (title e) = Some (slug e).
Proof.
  intros Hc2. rewrite (cons_middle e c1 c2), app_assoc.
  rewrite titleToSlugMap_app_other by done.
  rewrite titleToSlugMap_snoc. apply lookup_insert_eq.
Qed.

(** Every value of the map is the slug of an entry with that title. *)
Lemma titleToSlugMap_lookup_Some c k s :
  Backlinks.titleToSlugMap c !! k = Some s →
  ∃ e, e ∈ c ∧ slug e = s ∧ Js.toLowerCase (title e) = k.
Proof.
  induction c as [|e c IH] using rev_ind; intros Hk.
  - unfold Backlinks.titleToSlugMap in Hk. simpl in Hk. by rewrite lookup_empty in Hk.
  - rewrite titleToSlugMap_snoc in Hk.
    destruct (decide (Js.toLowerCase (title e) = k)) as [<-|Hne].
    + rewrite lookup_insert_eq in Hk. injection Hk as <-.
      exists e. split; [|done]. apply elem_of_app. right. by apply list_elem_of_singleton.
    + rewrite lookup_insert_ne in Hk by done.
      destruct (IH Hk) as (e' & He' & ?). exists e'. split; [|done].
      apply elem_of_app. by left.
Qed.

Lemma resolved_Some m raw s :
  resolved m raw = Some s ↔ resolve m raw = Some s ∧ Js.truthy s = true.
Proof.
  unfold resolved. destruct (resolve m raw) as [s'|]; [|split; [done|by intros [? _]]].
  destruct (Js.truthy s') eqn:Ht; split.
  - by intros [= ->].
  - by intros [[= ->] _].
  - done.
  - intros [[= ->] Ht']. congruence.
Qed.

End title_map.

(** ** The edge pass of the graph generator *)

Section edge_pass.

Implicit Types (c : list Entry) (m : gmap string string).

Lemma graph_on_match_spec m sourceId acc l :
  foldl (Graph.on_match m sourceId) acc l
    = acc ++ omap (edge_of m) (pair sourceId <$> l).
Proof.
  revert acc. induction l as [|raw l IH]; intros acc; simpl.
  - by rewrite app_nil_r.
  - rewrite IH. unfold Graph.on_match, edge_of at 2. simpl.
    destruct (resolved m raw); simpl; [by rewrite <- app_assoc|done].
Qed.

Lemma graph_on_entry_spec m acc c :
  foldl (Graph.on_entry m) acc c = acc ++ omap (edge_of m) (refs c).
Proof.
  revert acc. induction c as [|e c IH]; intros acc; simpl.
  - by rewrite app_nil_r.
  - rewrite IH. unfold Graph.on_entry. rewrite graph_on_match_spec.
    unfold refs, refs_of. simpl. rewrite omap_app. symmetry. apply app_assoc.
Qed.

(** One edge per resolved reference, in scan order. *)
Lemma second_pass_spec m c : Graph.second_pass m c = omap (edge_of m) (refs c).
Proof. unfold Graph.second_pass. by rewrite graph_on_entry_spec. Qed.

Lemma graphData_spec c :
  Graph.graphData c
    = {| Graph.nodes := node_of <$> c;
         Graph.edges := omap (edge_of (Backlinks.titleToSlugMap c)) (refs c) |}.
Proof. unfold Graph.graphData. by rewrite first_pass_spec, second_pass_spec. Qed.

Lemma endpoints_edge_of m (rs : list (string * string)) :
  Graph.endpoints <$> omap (edge_of m) rs = omap (link_of m) rs.
Proof.
  induction rs as [|r rs IH]; simpl; [done|].
  unfold edge_of at 1, link_of at 1. destruct (resolved m r.2); simpl; [f_equal|]; exact IH.
Qed.

Lemma node_ids c : Graph.n_id <$> (node_of <$> c) = slug <$> c.
Proof. by rewrite <- list_fmap_compose. Qed.

End edge_pass.

(** ** The object [backlinks] *)

Section backlinks_object.

Implicit Types (o : Backlinks.t) (k : string) (v : list string).

Lemma own_set_eq k v o : Backlinks.own k (Backlinks.set k v o) = Some v.
Proof.
  induction o as [|[k' v'] o IH]; simpl.
  - by rewrite decide_True.
  - destruct (decide (k' = k)) as [->|Hne]; simpl.
    + by rewrite decide_True.
    + by rewrite decide_False.
Qed.

Lemma own_set_ne k k' v o :
  k ≠ k' → Backlinks.own k' (Backlinks.set k v o) = Backlinks.own k' o.
Proof.
  intros Hne. induction o as [|[k0 v0] o IH]; simpl.
  - by rewrite decide_False.
  - destruct (decide (k0 = k)) as [->|Hne0]; simpl.
    + by rewrite !decide_False.
    + destruct (decide (k0 = k')); [done|apply IH].
Qed.

Lemma sources_of_set k k' v o :
  Backlinks.sources_of k' (Backlinks.set k v o)
    = if decide (k = k') then v else Backlinks.sources_of k' o.
Proof.
  unfold Backlinks.sources_of. destruct (decide (k = k')) as [->|Hne].
  - by rewrite own_set_eq.
  - by rewrite own_set_ne.
Qed.

End backlinks_object.

(** ** One iteration of the backlink loop *)

Section backlink_step.

Implicit Types (m : gmap string string) (o : Backlinks.t) (out : list ConsoleMsg).

(** A reference that does not resolve only adds its warning. *)
Lemma on_match_unresolved m source o out raw :
  resolved m raw = None →
  Backlinks.on_match m source (o, out) raw
    = Ok (o, out ++ [Warn (Backlinks.unresolved_warning raw source)]).
Proof. intros Hr. unfold Backlinks.on_match. by rewrite Hr. Qed.

(** A resolved reference throws exactly when its target has no array yet
    and names a property of the prototype; otherwise it records the source
    unless it is there already, and leaves the console alone. *)
Lemma on_match_resolved m source o out raw target :
  resolved m raw = Some target →
  Backlinks.on_match m source (o, out) raw =
    if bool_decide (Backlinks.own target o = None) && Js.inherited target
    then TypeError "backlinks[targetSlug].includes is not a function"
    else if bool_decide (source ∈ Backlinks.sources_of target o)
      then Ok (if Backlinks.has target o then o else Backlinks.set target [] o, out)
      else Ok (Backlinks.set target (Backlinks.sources_of target o ++ [source])
                 (if Backlinks.has target o then o else Backlinks.set target [] o), out).
Proof.
  intros Hr. unfold Backlinks.on_match. rewrite Hr.
  unfold Backlinks.has, Backlinks.sources_of.
  destruct (Backlinks.own target o) as [srcs|] eqn:Hown; simpl.
  - rewrite Hown. done.
  - destruct (Js.inherited target); simpl.
    + by rewrite Hown.
    + by rewrite own_set_eq.
Qed.

(** After a successful iteration on a resolved reference the sources of
    the target have gained [source] if it was new; nothing else moved. *)
Lemma on_match_sources m source o out raw target o' out' :
  resolved m raw = Some target →
  Backlinks.on_match m source (o, out) raw = Ok (o', out') →
  out' = out ∧
  ∀ k, Backlinks.sources_of k o' =
         if decide (target = k)
         then (if bool_decide (source ∈ Backlinks.sources_of target o)
               then Backlinks.sources_of target o
               else Backlinks.sources_of target o ++ [source])
         else Backlinks.sources_of k o.
Proof.
  intros Hr. rewrite (on_match_resolved _ _ _ _ _ _ Hr).
  destruct (bool_decide (Backlinks.own target o = None) && Js.inherited target); [done|].
  assert (Hsame : ∀ k, Backlinks.sources_of k
             (if Backlinks.has target o then o else Backlinks.set target [] o)
             = Backlinks.sources_of k o).
  { intros k. unfold Backlinks.has.
    destruct (Backlinks.own target o) as [srcs|] eqn:Hown; [done|].
    destruct (Js.inherited target); [done|].
    rewrite sources_of_set. destruct (decide (target = k)) as [<-|]; [|done].
    unfold Backlinks.sources_of. by rewrite Hown. }
  destruct (bool_decide (source ∈ Backlinks.sources_of target o)) eqn:Hin;
    intros [= <- <-]; (split; [done|]); intros k.
  - rewrite Hsame. destruct (decide (target = k)) as [<-|]; done.
  - rewrite sources_of_set. destruct (decide (target = k)); [done|apply Hsame].
Qed.

End backlink_step.

(** ** The backlink loop *)

Arguments Backlinks.on_match : simpl never.
Arguments on_ref : simpl never.

Section backlink_loop.

Implicit Types (m : gmap string string) (o : Backlinks.t) (out : list ConsoleMsg)
  (rs links : list (string * string)).

Lemma on_ref_pair m st source raw :
  on_ref m st (source, raw) = Backlinks.on_match m source st raw.
Proof. done. Qed.

(** The nested loops visit the references of the corpus in order. *)
Lemma collect_refs c out :
  Backlinks.collect c out
    = for_of (on_ref (Backlinks.titleToSlugMap c)) (refs c) ([], out).
Proof.
  unfold Backlinks.collect, refs. rewrite <- for_of_bind.
  apply for_of_ext. intros s e. unfold Backlinks.on_entry, refs_of.
  by rewrite <- for_of_fmap.
Qed.

Lemma mirrors_empty : mirrors [] [].
Proof.
  split; intros; unfold Backlinks.sources_of; simpl.
  - split; intros Hin; by apply elem_of_nil in Hin.
  - apply NoDup_nil_2.
Qed.

Lemma mirrors_step m o out r o' out' links :
  on_ref m (o, out) r = Ok (o', out') →
  mirrors o links →
  mirrors o' (links ++ omap (link_of m) [r]) ∧ out' = out ++ omap (warning_of m) [r].
Proof.
  destruct r as [source raw]. unfold on_ref. cbn [fst snd]. intros Hstep [Hmem Hnodup].
  unfold link_of, warning_of. cbn [fst snd omap list_omap].
  destruct (resolved m raw) as [target|] eqn:Hr; cbn [fmap option_fmap option_map].
  - destruct (on_match_sources _ _ _ _ _ _ _ _ Hr Hstep) as [-> Hsrc].
    split; [|by rewrite app_nil_r]. split.
    + intros a b. rewrite Hsrc, elem_of_app, list_elem_of_singleton, <- Hmem.
      destruct (decide (target = b)) as [<-|Hne].
      * case_bool_decide as Hin.
        -- split; [by left|]. intros [?|[= -> ]]; done.
        -- rewrite elem_of_app, list_elem_of_singleton.
           split; (intros [?|Heq]; [by left|right; congruence]).
      * split; [by left|]. intros [?|[= _ ?]]; done.
    + intros b. rewrite Hsrc. destruct (decide (target = b)) as [<-|Hne]; [|done].
      case_bool_decide as Hin; [done|].
      apply NoDup_app. split; [done|]. split; [|apply NoDup_singleton].
      intros x Hx Hx'. apply list_elem_of_singleton in Hx'. by subst.
  - rewrite on_match_unresolved in Hstep by done. injection Hstep as <- <-.
    by rewrite app_nil_r.
Qed.

(** The invariant of the loop: the object mirrors the links of the
    references seen so far, and the console has gained their warnings. *)
Lemma mirrors_loop m rs o out o' out' links :
  for_of (on_ref m) rs (o, out) = Ok (o', out') →
  mirrors o links →
  mirrors o' (links ++ omap (link_of m) rs) ∧ out' = out ++ omap (warning_of m) rs.
Proof.
  revert o out links. induction rs as [|r rs IH]; intros o out links; cbn [for_of].
  - intros [= <- <-] Hm. cbn [omap list_omap]. by rewrite !app_nil_r.
  - destruct (on_ref m (o, out) r) as [[o1 out1]|] eqn:Hstep; cbn [mbind result_bind];
      [|done].
    intros Hloop Hm.
    destruct (mirrors_step _ _ _ _ _ _ _ Hstep Hm) as [Hm1 ->].
    destruct (IH _ _ _ Hloop Hm1) as [Hm' ->].
    split.
    + rewrite <- app_assoc, <- omap_app in Hm'. exact Hm'.
    + rewrite <- app_assoc, <- omap_app. done.
Qed.

(** The loop completes when no resolved target names a property of
    [Object.prototype]. *)
Lemma loop_completes m rs o out :
  (∀ r target, r ∈ rs → resolved m r.2 = Some target → Js.inherited target = false) →
  ∃ st, for_of (on_ref m) rs (o, out) = Ok st.
Proof.
  revert o out. induction rs as [|[source raw] rs IH]; intros o out Hplain; cbn [for_of].
  - by eexists.
  - assert (Hrs : ∀ r target, r ∈ rs → resolved m r.2 = Some target
                    → Js.inherited target = false).
    { intros r target Hin. apply Hplain. by right. }
    rewrite on_ref_pair.
    destruct (resolved m raw) as [target|] eqn:Hr.
    + rewrite (on_match_resolved _ _ _ _ _ _ Hr).
      rewrite (Hplain (source, raw) target) by (done || by left).
      rewrite andb_false_r.
      case_bool_decide; cbn [mbind result_bind]; by apply IH.
    + rewrite on_match_unresolved by done. cbn [mbind result_bind]. by apply IH.
Qed.

(** The console only receives: what the loop does to [backlinks] and
    whether it throws do not depend on earlier output. *)
Lemma loop_console m rs o out :
  for_of (on_ref m) rs (o, out)
    = prod_map id (app out) <$> for_of (on_ref m) rs (o, []).
Proof.
  revert o out. induction rs as [|[source raw] rs IH]; intros o out; cbn [for_of].
  - cbn. by rewrite app_nil_r.
  - rewrite !on_ref_pair.
    destruct (resolved m raw) as [target|] eqn:Hr.
    + rewrite !(on_match_resolved _ _ _ _ _ _ Hr).
      destruct (bool_decide (Backlinks.own target o = None) && Js.inherited target); [done|].
      case_bool_decide; cbn [mbind result_bind]; apply IH.
    + rewrite !on_match_unresolved by done. cbn [mbind result_bind].
      rewrite (IH o (out ++ _)), (IH o ([] ++ _)).
      destruct (for_of (on_ref m) rs (o, [])) as [[o' out']|]; cbn; [|done].
      by rewrite <- app_assoc.
Qed.

Lemma collect_console c out :
  Backlinks.collect c out = prod_map id (app out) <$> Backlinks.collect c [].
Proof. rewrite !collect_refs. apply loop_console. Qed.

(** What [backlinks] and the console hold when the loop has completed. *)
Lemma collect_spec c out o out' :
  Backlinks.collect c out = Ok (o, out') →
  mirrors o (omap (link_of (Backlinks.titleToSlugMap c)) (refs c)) ∧
  out' = out ++ omap (warning_of (Backlinks.titleToSlugMap c)) (refs c).
Proof.
  rewrite collect_refs. intros Hloop.
  apply (mirrors_loop _ _ _ _ _ _ [] Hloop mirrors_empty).
Qed.

End backlink_loop.

(** ** Counting *)

Section occurrences.
Context `{EqDecision A}.
Implicit Types (x : A) (l : list A).

Lemma occurrences_nil x : occurrences x [] = 0.
Proof. done. Qed.

Lemma occurrences_cons x y l :
  occurrences x (y :: l) = (if decide (x = y) then 1 else 0) + occurrences x l.
Proof. unfold occurrences. rewrite filter_cons. by destruct (decide (x = y)). Qed.

Lemma occurrences_app x l1 l2 :
  occurrences x (l1 ++ l2) = occurrences x l1 + occurrences x l2.
Proof. unfold occurrences. by rewrite filter_app, length_app. Qed.

Lemma occurrences_not_elem x l : x ∉ l → occurrences x l = 0.
Proof.
  induction l as [|y l IH]; [done|]. rewrite not_elem_of_cons. intros [Hne Hl].
  rewrite occurrences_cons, decide_False by done. by apply IH.
Qed.

Lemma occurrences_elem x l : 0 < occurrences x l → x ∈ l.
Proof.
  intros Hpos. destruct (decide (x ∈ l)) as [|Hn]; [done|].
  rewrite occurrences_not_elem in Hpos by done. lia.
Qed.

Lemma occurrences_NoDup x l : NoDup l → x ∈ l → occurrences x l = 1.
Proof.
  induction l as [|y l IH]; intros Hnd Hin; [by apply elem_of_nil in Hin|].
  apply NoDup_cons in Hnd as [Hy Hnd]. rewrite occurrences_cons.
  destruct (decide (x = y)) as [->|Hne].
  - by rewrite occurrences_not_elem.
  - apply elem_of_cons in Hin as [?|Hin]; [done|]. by rewrite IH.
Qed.

End occurrences.

Section counting_links.

Implicit Types (c : list Entry) (e : Entry) (m : gmap string string).

Lemma refs_app c1 c2 : refs (c1 ++ c2) = refs c1 ++ refs c2.
Proof. apply bind_app. Qed.

Lemma refs_cons e c : refs (e :: c) = refs_of e ++ refs c.
Proof. done. Qed.

Lemma elem_of_refs c r :
  r ∈ refs c ↔ ∃ e, e ∈ c ∧ r.1 = slug e ∧ r.2 ∈ Regex.exec_all (textContent e).
Proof.
  unfold refs. rewrite list_elem_of_bind. split.
  - intros (e & Hr & He). exists e. split; [done|].
    unfold refs_of in Hr. apply list_elem_of_fmap in Hr as (raw & -> & Hraw). done.
  - intros (e & He & Hs & Hraw). exists e. split; [|done].
    unfold refs_of. apply list_elem_of_fmap. exists r.2. split; [|done].
    rewrite <- Hs. by destruct r.
Qed.

(** The links of one entry towards [target] are counted on the raw
    targets of its matches. *)
Lemma occurrences_links_of_entry m e s target :
  occurrences (s, target) (omap (link_of m) (refs_of e)) =
    if decide (slug e = s)
    then occurrences (Some target) (resolved m <$> Regex.exec_all (textContent e))
    else 0.
Proof.
  unfold refs_of. induction (Regex.exec_all (textContent e)) as [|raw l IH].
  - by destruct (decide (slug e = s)).
  - rewrite !fmap_cons. cbn [omap list_omap]. unfold link_of at 1. cbn [fst snd].
    rewrite occurrences_cons.
    destruct (resolved m raw) as [t|] eqn:Hr; cbn [fmap option_fmap option_map].
    + rewrite occurrences_cons. fold (omap (link_of m) (pair (slug e) <$> l)).
      rewrite IH. destruct (decide (slug e = s)) as [->|Hne].
      * destruct (decide (Some target = Some t)) as [[= ->]|Hne].
        -- by rewrite decide_True.
        -- rewrite decide_False; [done|]. intros [= ->]. done.
      * rewrite decide_False; [done|]. intros [= ? _]. done.
    + fold (omap (link_of m) (pair (slug e) <$> l)). rewrite IH.
      destruct (decide (slug e = s)); [|done].
      by rewrite decide_False.
Qed.

Lemma occurrences_links_other_sources m c s target :
  s ∉ slug <$> c → occurrences (s, target) (omap (link_of m) (refs c)) = 0.
Proof.
  induction c as [|e c IH]; [done|].
  rewrite fmap_cons, not_elem_of_cons. intros [Hne Hc].
  rewrite refs_cons, omap_app, occurrences_app, occurrences_links_of_entry, IH by done.
  by rewrite decide_False.
Qed.

End counting_links.

(** ** Backlinks against edges *)

(** C4 — Backlink symmetry.  Whenever the backlink generator completes, the
    object it emits is the exact inverse of the edge list the graph
    generator emits for the same corpus: a source [a] is listed under the
    target [b] if and only if an edge from [a] to [b] is in the graph. *)
Theorem backlink_symmetry c out backlinks out' a b :
  Backlinks.collect c out = Ok (backlinks, out') →
  a ∈ Backlinks.sources_of b backlinks
    ↔ (a, b) ∈ Graph.endpoints <$> Graph.edges (Graph.graphData c).
Proof.
  intros Hc. destruct (collect_spec _ _ _ _ Hc) as [[Hmem _] _].
  rewrite graphData_spec. cbn [Graph.edges]. rewrite endpoints_edge_of. apply Hmem.
Qed.

Lemma backlink_symmetry_witness :
  Backlinks.collect corpus_repeat [] =
    Ok ([("B", ["A"]); ("A", ["B"])],
        [Warn (Backlinks.unresolved_warning "Missing" "A")]) ∧
  ("A" ∈ Backlinks.sources_of "B" [("B", ["A"]); ("A", ["B"])]
     ↔ ("A", "B") ∈ Graph.endpoints <$> Graph.edges (Graph.graphData corpus_repeat)).
Proof.
  split; [reflexivity|].
  apply (backlink_symmetry corpus_repeat [] [("B", ["A"]); ("A", ["B"])]
           [Warn (Backlinks.unresolved_warning "Missing" "A")] "A" "B").
  reflexivity.
Defined.

(** C10 — Edges are recorded per occurrence, backlinks once.  When the body
    of a document holds [k] references ([k] at least 2) that resolve to the
    same target, the edge list holds the pair (document, target) at least
    [k] times, exactly [k] times when identifiers are unique, while the
    backlink array of the target lists the document exactly once. *)
Theorem edges_per_occurrence_backlinks_once c out backlinks out' e target k :
  Backlinks.collect c out = Ok (backlinks, out') →
  e ∈ c →
  occurrences (Some target)
    (resolved (Backlinks.titleToSlugMap c) <$> Regex.exec_all (textContent e)) = k →
  (2 ≤ k)%nat →
  let pairs := Graph.endpoints <$> Graph.edges (Graph.graphData c) in
  (k ≤ occurrences (slug e, target) pairs)%nat ∧
  (NoDup (slug <$> c) → occurrences (slug e, target) pairs = k) ∧
  occurrences (slug e) (Backlinks.sources_of target backlinks) = 1.
Proof.
  intros Hc He Hk Hk2 pairs.
  destruct (collect_spec _ _ _ _ Hc) as [[Hmem Hnd] _].
  set (m := Backlinks.titleToSlugMap c) in *.
  assert (Hpairs : pairs = omap (link_of m) (refs c)).
  { unfold pairs. rewrite graphData_spec. cbn [Graph.edges]. apply endpoints_edge_of. }
  destruct (list_elem_of_split _ _ He) as (c1 & c2 & Hsplit).
  assert (Hcount : occurrences (slug e, target) pairs
            = occurrences (slug e, target) (omap (link_of m) (refs c1)) + k
              + occurrences (slug e, target) (omap (link_of m) (refs c2))).
  { rewrite Hpairs, Hsplit, refs_app, refs_cons, !omap_app, !occurrences_app.
    rewrite occurrences_links_of_entry, decide_True by done.
    fold m in Hk. rewrite Hk. lia. }
  split; [lia|]. split.
  - intros Hslugs. rewrite Hsplit, fmap_app, fmap_cons in Hslugs.
    apply NoDup_app in Hslugs as (_ & Hc1 & Hc2).
    apply NoDup_cons in Hc2 as [Hc2 _].
    rewrite Hcount, !occurrences_links_other_sources; [lia|done|].
    intros Hin. apply (Hc1 _ Hin). by left.
  - apply occurrences_NoDup; [apply Hnd|].
    apply Hmem. rewrite <- Hpairs. apply occurrences_elem. lia.
Qed.

Lemma edges_per_occurrence_backlinks_once_witness :
  (2 ≤ occurrences ("A", "B") (Graph.endpoints <$> Graph.edges (Graph.graphData corpus_repeat)))%nat ∧
  (NoDup (slug <$> corpus_repeat) →
     occurrences ("A", "B") (Graph.endpoints <$> Graph.edges (Graph.graphData corpus_repeat)) = 2) ∧
  occurrences "A" (Backlinks.sources_of "B" [("B", ["A"]); ("A", ["B"])]) = 1.
Proof.
  apply (edges_per_occurrence_backlinks_once corpus_repeat []
           [("B", ["A"]); ("A", ["B"])]
           [Warn (Backlinks.unresolved_warning "Missing" "A")]
           (doc "A" "Apple" "see [[Banana]], [[banana]] and [[Missing]]") "B" 2).
  - reflexivity.
  - apply elem_of_cons. by left.
  - reflexivity.
  - lia.
Defined.

(** ** The graph *)

(** C7 — No dangling edges.  Both endpoints of every emitted edge are
    identifiers of emitted nodes, and every edge comes from a reference of
    its source document whose target resolved to the edge's target: a
    reference that failed to resolve leaves no edge. *)
Theorem no_dangling_edges c edge :
  edge ∈ Graph.edges (Graph.graphData c) →
  let ids := Graph.n_id <$> Graph.nodes (Graph.graphData c) in
  Graph.e_from edge ∈ ids ∧ Graph.e_to edge ∈ ids ∧
  ∃ raw, (Graph.e_from edge, raw) ∈ refs c ∧
         resolved (Graph.slugToTitleMap c) raw = Some (Graph.e_to edge).
Proof.
  rewrite slugToTitleMap_eq, graphData_spec. cbn [Graph.edges Graph.nodes].
  rewrite node_ids. intros Hedge.
  apply list_elem_of_omap in Hedge as ([source raw] & Hr & Hedge).
  unfold edge_of in Hedge. cbn [fst snd] in Hedge.
  destruct (resolved (Backlinks.titleToSlugMap c) raw) as [target|] eqn:Hres; [|done].
  injection Hedge as <-. cbn [Graph.e_from Graph.e_to].
  split; [|split].
  - apply elem_of_refs in Hr as (e & He & Hs & _). cbn [fst] in Hs. subst source.
    by apply list_elem_of_fmap_2.
  - apply resolved_Some in Hres as [Hres _].
    apply titleToSlugMap_lookup_Some in Hres as (e & He & <- & _).
    by apply list_elem_of_fmap_2.
  - by exists raw.
Qed.

Lemma no_dangling_edges_witness :
  let edge := {| Graph.e_from := "B"; Graph.e_to := "A"; Graph.e_arrows := "to" |} in
  edge ∈ Graph.edges (Graph.graphData corpus_repeat) ∧
  (let ids := Graph.n_id <$> Graph.nodes (Graph.graphData corpus_repeat) in
   Graph.e_from edge ∈ ids ∧ Graph.e_to edge ∈ ids ∧
   ∃ raw, (Graph.e_from edge, raw) ∈ refs corpus_repeat ∧
          resolved (Graph.slugToTitleMap corpus_repeat) raw = Some (Graph.e_to edge)).
Proof.
  assert (Hin : {| Graph.e_from := "B"; Graph.e_to := "A"; Graph.e_arrows := "to" |}
                  ∈ Graph.edges (Graph.graphData corpus_repeat)).
  { apply elem_of_cons. right. apply elem_of_cons. right. apply elem_of_cons. by left. }
  split; [exact Hin|]. exact (no_dangling_edges corpus_repeat _ Hin).
Defined.

(** C6, as the generators have it — nothing is sorted: the node array
    lists the entries in the order of [allContent], and the edge array
    lists the resolved references in scan order, entry after entry and,
    within an entry, match after match. *)
Theorem artifacts_follow_corpus_order c :
  Graph.n_id <$> Graph.nodes (Graph.graphData c) = slug <$> c ∧
  Graph.endpoints <$> Graph.edges (Graph.graphData c)
    = c ≫= (fun e => omap (link_of (Graph.slugToTitleMap c)) (refs_of e)).
Proof.
  rewrite slugToTitleMap_eq, graphData_spec. cbn [Graph.edges Graph.nodes].
  rewrite node_ids, endpoints_edge_of. split; [done|].
  unfold refs. induction c as [|e c' IH] in |- * at 2 4; [done|].
  rewrite !bind_cons, omap_app. by f_equal.
Qed.

(** C6, as worded — refuted: with the entries listed as b, a the node
    array starts with b. *)
Lemma sorted_by_identifier_counterexample :
  ¬ sorted_by_identifier (Graph.graphData corpus_unsorted).
Proof.
  intros [Hnodes _]. rewrite graphData_spec in Hnodes.
  cbn in Hnodes. inversion Hnodes as [|? ? _ Hhd]. inversion Hhd as [|? ? Hle].
  vm_compute in Hle. discriminate Hle.
Qed.

(** ** Title collisions and normalization *)

(** C1, as the generators have it — of several documents whose titles
    lower-case to the same key, the one listed last in [allContent] wins:
    every reference that lower-cases to that key resolves to its slug, in
    the backlink generator and in the graph generator alike. *)
Theorem collision_last_entry_wins c1 e c2 raw :
  Forall (fun e' => Js.toLowerCase (title e') ≠ Js.toLowerCase (title e)) c2 →
  Js.toLowerCase raw = Js.toLowerCase (title e) →
  resolve (Backlinks.titleToSlugMap (c1 ++ e :: c2)) raw = Some (slug e) ∧
  resolve (Graph.slugToTitleMap (c1 ++ e :: c2)) raw = Some (slug e).
Proof.
  intros Hc2 Hraw. rewrite slugToTitleMap_eq. unfold resolve. rewrite Hraw.
  split; by apply titleToSlugMap_last.
Qed.

Lemma collision_last_entry_wins_witness :
  resolve (Backlinks.titleToSlugMap corpus_collision) "FOO" = Some "b" ∧
  resolve (Graph.slugToTitleMap corpus_collision) "FOO" = Some "b".
Proof.
  apply (collision_last_entry_wins [doc "a" "Foo" "see [[foo]]"]
           (doc "b" "foo" "no links") [] "FOO").
  - apply Forall_nil_2.
  - reflexivity.
Defined.

(** C1, as worded — refuted: "Foo" (slug a) and "foo" (slug b) collide and
    the reference resolves to b, the larger identifier. *)
Lemma prefers_smallest_identifier_counterexample :
  ¬ prefers_smallest_identifier corpus_collision.
Proof.
  intros Hclaim.
  specialize (Hclaim (doc "a" "Foo" "see [[foo]]") (doc "b" "foo" "no links")).
  assert (Hres : resolve (Backlinks.titleToSlugMap corpus_collision) "Foo" = Some "a").
  { apply Hclaim; [apply elem_of_cons; by left
                  |apply elem_of_cons; right; apply elem_of_cons; by left
                  |done|done]. }
  vm_compute in Hres. discriminate Hres.
Qed.

Lemma titleToSlugMap_is_Some c e :
  e ∈ c → is_Some (Backlinks.titleToSlugMap c !! Js.toLowerCase (title e)).
Proof.
  induction c as [|e' c IH] using rev_ind; intros He.
  - by apply elem_of_nil in He.
  - rewrite titleToSlugMap_snoc.
    destruct (decide (Js.toLowerCase (title e') = Js.toLowerCase (title e))) as [Heq|Hne].
    + rewrite Heq, lookup_insert_eq. by eexists.
    + rewrite lookup_insert_ne by done. apply IH.
      apply elem_of_app in He as [?|He]; [done|].
      apply list_elem_of_singleton in He. by subst.
Qed.

Lemma toLowerCase_idemp s : Js.toLowerCase (Js.toLowerCase s) = Js.toLowerCase s.
Proof.
  induction s as [|ch s IH]; [done|]. cbn [Js.toLowerCase]. rewrite IH. f_equal.
  destruct ch as [[] [] [] [] [] [] [] []]; reflexivity.
Qed.

(** C5, as the generators have it — normalization is [toLowerCase] and
    nothing else: a reference whose text equals a title after lower-casing
    resolves to that title's document, provided no document with another
    slug has the same lower-cased title. *)
Theorem resolution_ignores_letter_case c e raw :
  e ∈ c →
  (∀ e', e' ∈ c → Js.toLowerCase (title e') = Js.toLowerCase (title e) → slug e' = slug e) →
  Js.toLowerCase raw = Js.toLowerCase (title e) →
  resolve (Backlinks.titleToSlugMap c) raw = Some (slug e) ∧
  resolve (Graph.slugToTitleMap c) raw = Some (slug e).
Proof.
  intros He Huniq Hraw. rewrite slugToTitleMap_eq. unfold resolve. rewrite Hraw.
  destruct (titleToSlugMap_is_Some c e He) as [s Hs].
  destruct (titleToSlugMap_lookup_Some _ _ _ Hs) as (e' & He' & <- & Heq).
  rewrite Hs, (Huniq e' He' Heq). done.
Qed.

Lemma resolution_ignores_letter_case_witness :
  resolve (Backlinks.titleToSlugMap corpus_whitespace) "MY first NOTE" = Some "my-first-note" ∧
  resolve (Graph.slugToTitleMap corpus_whitespace) "MY first NOTE" = Some "my-first-note".
Proof.
  apply (resolution_ignores_letter_case corpus_whitespace
           (doc "my-first-note" "My First Note" "no links") "MY first NOTE").
  - apply elem_of_cons. by left.
  - intros e' He' Heq.
    apply elem_of_cons in He' as [->|He']; [reflexivity|].
    apply elem_of_cons in He' as [->|He']; [discriminate Heq|].
    by apply elem_of_nil in He'.
  - reflexivity.
Defined.

(** C5, as worded — refuted: a doubled blank inside the reference is kept,
    the lookup misses, and the graph gets no edge. *)
Lemma collapses_whitespace_counterexample :
  ¬ collapses_whitespace corpus_whitespace ∧
  Regex.exec_all "see [[My  First Note]]" = ["My  First Note"] ∧
  Graph.edges (Graph.graphData corpus_whitespace) = [].
Proof.
  split; [|split; reflexivity].
  intros Hclaim.
  specialize (Hclaim (doc "my-first-note" "My First Note" "no links") "My" "First Note").
  assert (Hres : resolve (Backlinks.titleToSlugMap corpus_whitespace)
                   ("My" +++ "  " +++ "First Note") = Some "my-first-note").
  { apply Hclaim; [apply elem_of_cons; by left|reflexivity]. }
  vm_compute in Hres. discriminate Hres.
Qed.

(** ** Link extraction *)

Section extraction.

Implicit Types (s t rest : string) (ch : ascii).

(** Away from a closing bracket the lazy capture takes one more code
    unit, unless it is a line terminator. *)
Lemma lazy_until_close_other ch s :
  Ascii.eqb ch "]" = false →
  Regex.lazy_until_close (String ch s) =
    if Js.is_line_terminator ch then None
    else match Regex.lazy_until_close s with
         | Some (cap, rest) => Some (String ch cap, rest)
         | None => None
         end.
Proof.
  intros Hch. destruct ch as [[] [] [] [] [] [] [] []]; try discriminate Hch; reflexivity.
Qed.

(** On a simple target followed by the closing brackets the capture is
    the target, whatever comes next. *)
Lemma lazy_until_close_simple t rest :
  simple_target t = true →
  Regex.lazy_until_close ((t +++ "]]") +++ rest) = Some (t, rest).
Proof.
  induction t as [|ch t IH]; intros Ht; [done|].
  cbn [simple_target] in Ht.
  apply andb_prop in Ht as [Ht Ht']. apply andb_prop in Ht as [Hlt Hch].
  apply negb_true_iff in Hlt, Hch.
  change ((String ch t +++ "]]") +++ rest) with (String ch ((t +++ "]]") +++ rest)).
  rewrite lazy_until_close_other, Hlt, IH by done. done.
Qed.

(** The loop leaves the code units before [lastIndex] alone. *)
Lemma exec_loop_skip s rest :
  Regex.exec_loop (String.length s) (s +++ rest) = Regex.exec_loop 0 rest.
Proof.
  induction s as [|ch s IH]; [done|].
  change (String ch s +++ rest) with (String ch (s +++ rest)).
  cbn [String.length Regex.exec_loop]. exact IH.
Qed.

Lemma length_append s t : String.length (s +++ t) = String.length s + String.length t.
Proof.
  induction s as [|ch s IH]; [done|].
  change (String ch s +++ t) with (String ch (s +++ t)).
  cbn [String.length]. by rewrite IH.
Qed.

Lemma exec_loop_0_cons ch s :
  Regex.exec_loop 0 (String ch s) =
    match Regex.match_here (String ch s) with
    | Some cap => cap :: Regex.exec_loop (String.length cap + 3) s
    | None => Regex.exec_loop 0 s
    end.
Proof. done. Qed.

Lemma append_assoc s1 s2 s3 : (s1 +++ s2) +++ s3 = s1 +++ (s2 +++ s3).
Proof.
  induction s1 as [|ch s1 IH]; [done|].
  change (String ch ((s1 +++ s2) +++ s3) = String ch (s1 +++ (s2 +++ s3))). by rewrite IH.
Qed.

Lemma match_here_other ch s :
  Ascii.eqb ch "[" = false → Regex.match_here (String ch s) = None.
Proof.
  intros Hch. destruct ch as [[] [] [] [] [] [] [] []]; try discriminate Hch; reflexivity.
Qed.

(** Text without opening bracket holds no match and delays none. *)
Lemma exec_loop_prefix pre s :
  no_open_bracket pre = true → Regex.exec_loop 0 (pre +++ s) = Regex.exec_loop 0 s.
Proof.
  induction pre as [|ch pre IH]; intros Hpre; [done|].
  cbn [no_open_bracket] in Hpre. apply andb_prop in Hpre as [Hch Hpre].
  apply negb_true_iff in Hch.
  change (String ch pre +++ s) with (String ch (pre +++ s)).
  rewrite exec_loop_0_cons, match_here_other by done. by apply IH.
Qed.

(** A marker with a simple target is matched wherever it stands, and the
    scan goes on right after it. *)
Lemma exec_all_marker pre t post :
  no_open_bracket pre = true →
  simple_target t = true →
  Regex.exec_all (pre +++ "[[" +++ t +++ "]]" +++ post) = t :: Regex.exec_all post.
Proof.
  intros Hpre Ht. unfold Regex.exec_all. rewrite exec_loop_prefix by done.
  rewrite <- (append_assoc t "]]" post).
  change ("[[" +++ (t +++ "]]") +++ post)
    with (String "[" (String "[" ((t +++ "]]") +++ post))).
  rewrite exec_loop_0_cons. cbn [Regex.match_here].
  rewrite lazy_until_close_simple by done. cbn [fmap option_fmap option_map fst].
  f_equal.
  change (String "[" ((t +++ "]]") +++ post)) with (("[" +++ (t +++ "]]")) +++ post).
  replace (String.length t + 3) with (String.length ("[" +++ (t +++ "]]"))).
  - apply exec_loop_skip.
  - rewrite !length_append. cbn [String.length]. lia.
Qed.

(** Inside a fenced code block too. *)
Lemma exec_all_fenced before t after :
  no_open_bracket before = true →
  simple_target t = true →
  Regex.exec_all (fenced (before +++ "[[" +++ t +++ "]]" +++ after))
    = t :: Regex.exec_all (after +++ LF +++ "```").
Proof.
  intros Hpre Ht. unfold fenced.
  replace ("```" +++ LF +++ (before +++ "[[" +++ t +++ "]]" +++ after) +++ LF +++ "```")
    with (("```" +++ LF +++ before) +++ "[[" +++ t +++ "]]" +++ (after +++ LF +++ "```")).
  - by apply exec_all_marker.
  - rewrite !append_assoc. done.
Qed.

End extraction.

(** C2, as the generators have it — the scan runs over the whole text and
    skips nothing: a marker inside a fenced code block is a reference like
    any other.  It yields its link candidate and, when the target
    resolves, its edge and its backlink. *)
Theorem fenced_marker_is_a_reference c out backlinks out' e before t after target :
  no_open_bracket before = true →
  simple_target t = true →
  e ∈ c →
  textContent e = fenced (before +++ "[[" +++ t +++ "]]" +++ after) →
  resolved (Backlinks.titleToSlugMap c) t = Some target →
  Backlinks.collect c out = Ok (backlinks, out') →
  t ∈ Regex.exec_all (textContent e) ∧
  (slug e, target) ∈ Graph.endpoints <$> Graph.edges (Graph.graphData c) ∧
  slug e ∈ Backlinks.sources_of target backlinks.
Proof.
  intros Hpre Ht He Htext Hres Hc.
  assert (Hscan : t ∈ Regex.exec_all (textContent e)).
  { rewrite Htext, exec_all_fenced by done. by left. }
  assert (Hlink : (slug e, target)
                    ∈ omap (link_of (Backlinks.titleToSlugMap c)) (refs c)).
  { apply list_elem_of_omap. exists (slug e, t). split.
    - apply elem_of_refs. by exists e.
    - unfold link_of. cbn [fst snd]. by rewrite Hres. }
  split; [done|]. split.
  - rewrite graphData_spec. cbn [Graph.edges]. by rewrite endpoints_edge_of.
  - destruct (collect_spec _ _ _ _ Hc) as [[Hmem _] _]. by apply Hmem.
Qed.

Lemma fenced_marker_is_a_reference_witness :
  "Banana" ∈ Regex.exec_all (fenced "[[Banana]]") ∧
  ("apple", "banana") ∈ Graph.endpoints <$> Graph.edges (Graph.graphData corpus_fenced) ∧
  "apple" ∈ Backlinks.sources_of "banana" [("banana", ["apple"])].
Proof.
  apply (fenced_marker_is_a_reference corpus_fenced [] [("banana", ["apple"])] []
           (doc "apple" "Apple" (fenced "[[Banana]]")) "" "Banana" "" "banana").
  - reflexivity.
  - reflexivity.
  - apply elem_of_cons. by left.
  - reflexivity.
  - reflexivity.
  - reflexivity.
Defined.

(** C2, as worded — refuted: the body of the first document is one fenced
    code block holding [[Banana]]; the scan returns that candidate, the
    graph gets the edge and the target gets the backlink. *)
Lemma skips_fenced_code_counterexample :
  ¬ skips_fenced_code ∧
  Regex.exec_all (fenced "[[Banana]]") = ["Banana"] ∧
  Graph.endpoints <$> Graph.edges (Graph.graphData corpus_fenced) = [("apple", "banana")] ∧
  Backlinks.collect corpus_fenced [] = Ok ([("banana", ["apple"])], []).
Proof.
  split; [|repeat split; reflexivity].
  intros Hclaim. specialize (Hclaim "[[Banana]]" eq_refl).
  vm_compute in Hclaim. discriminate Hclaim.
Qed.

(** ** The build *)

Section build.
Context `{Runtime}.

Implicit Types (c : list Entry) (w : World).

Lemma build_spec c w : build c w = built c w <$> Backlinks.collect c [].
Proof.
  unfold build, generateBacklinks. cbn [console console_log].
  rewrite collect_console.
  destruct (Backlinks.collect c []) as [[o out]|msg]; [|done].
  cbn. unfold generateGraphData, generateSearchIndex, built.
  destruct (Search.collect c) as [documents store].
  unfold console_log, writeFile. cbn. do 2 f_equal.
  rewrite <- !app_assoc. done.
Qed.

(** What a completed build has written: the serialised [backlinks] object
    of the loop, the search data and the serialised [graphData]. *)
Lemma build_artifacts c w w' :
  build c w = Ok w' →
  ∃ backlinks out,
    Backlinks.collect c [] = Ok (backlinks, out) ∧
    files w' !! Backlinks.outputPath = Some (JSON_stringify (Backlinks.to_json backlinks)) ∧
    files w' !! Graph.outputPath
      = Some (JSON_stringify (Graph.to_json (Graph.graphData c))).
Proof.
  rewrite build_spec.
  destruct (Backlinks.collect c []) as [[o out]|msg]; [|done].
  intros [= <-]. exists o, out. split; [done|]. unfold built. cbn [files fst].
  split; [|apply lookup_insert_eq].
  rewrite !lookup_insert_ne by done. apply lookup_insert_eq.
Qed.

End build.

Section resolution_on_plain_slugs.

Implicit Types (c : list Entry) (m : gmap string string).

Lemma resolved_None_of_resolve m raw : resolve m raw = None → resolved m raw = None.
Proof. unfold resolved. by intros ->. Qed.

(** With plain slugs whatever the map returns passes the truthiness test
    and is a safe key of [backlinks]. *)
Lemma resolve_plain c raw target :
  (∀ e, e ∈ c → plain_slug (slug e)) →
  resolve (Backlinks.titleToSlugMap c) raw = Some target →
  resolved (Backlinks.titleToSlugMap c) raw = Some target ∧ Js.inherited target = false.
Proof.
  intros Hplain Hres.
  destruct (titleToSlugMap_lookup_Some _ _ _ Hres) as (e & He & <- & _).
  destruct (Hplain e He) as [Ht Hi]. split; [|done].
  apply resolved_Some. done.
Qed.

(** When the slugs are plain, so are those the references find. *)
Lemma plain_slugs_hit c :
  (∀ e, e ∈ c → plain_slug (slug e)) → references_hit_plain_slugs c.
Proof.
  intros Hplain r target _ Hres.
  destruct (titleToSlugMap_lookup_Some _ _ _ Hres) as (e & He & <- & _).
  by apply Hplain.
Qed.

(** When the references find plain slugs the backlink generator never
    throws. *)
Lemma collect_completes c out :
  references_hit_plain_slugs c → ∃ st, Backlinks.collect c out = Ok st.
Proof.
  intros Hplain. rewrite collect_refs. apply loop_completes.
  intros r target Hin Hr. apply resolved_Some in Hr as [Hr _].
  by destruct (Hplain r target Hin Hr).
Qed.

Lemma omap_warning_of_resolved m (rs : list (string * string)) :
  (∀ r, r ∈ rs → is_Some (resolved m r.2)) → omap (warning_of m) rs = [].
Proof.
  induction rs as [|r rs IH]; intros Hrs; [done|].
  cbn [omap list_omap]. unfold warning_of at 1.
  destruct (Hrs r) as [t ->]; [by left|].
  apply IH. intros r' Hr'. apply Hrs. by right.
Qed.

Lemma length_omap_edge_of_resolved m (rs : list (string * string)) :
  (∀ r, r ∈ rs → is_Some (resolved m r.2)) → length (omap (edge_of m) rs) = length rs.
Proof.
  induction rs as [|r rs IH]; intros Hrs; [done|].
  cbn [omap list_omap]. unfold edge_of at 1.
  destruct (Hrs r) as [t ->]; [by left|].
  cbn. f_equal. apply IH. intros r' Hr'. apply Hrs. by right.
Qed.

End resolution_on_plain_slugs.

Section build_properties.
Context `{Runtime}.

Implicit Types (c : list Entry) (w : World).

(** X23 — Unresolved-link non-fatality, away from unsafe slugs.  On a
    corpus in which every reference that finds a title finds a slug that
    is not empty and not a name found on [Object.prototype], and in which
    exactly one reference misses the title map, the build completes; its
    console gains exactly one warning, the one of the backlink generator
    naming the raw target text and the source slug; the graph artifact is
    written, keeps the source document as a node and holds one edge for
    each of the other references, none for the missing one. *)
Theorem unresolved_link_is_not_fatal c source raw w :
  references_hit_plain_slugs c →
  one_unresolved c source raw →
  ∃ w', build c w = Ok w' ∧
    warnings w' = warnings w ++ [Backlinks.unresolved_warning raw source] ∧
    files w' !! Graph.outputPath
      = Some (JSON_stringify (Graph.to_json (Graph.graphData c))) ∧
    source ∈ Graph.n_id <$> Graph.nodes (Graph.graphData c) ∧
    ∃ before after,
      refs c = before ++ (source, raw) :: after ∧
      Graph.edges (Graph.graphData c)
        = omap (edge_of (Graph.slugToTitleMap c)) (before ++ after) ∧
      length (Graph.edges (Graph.graphData c)) = length before + length after.
Proof.
  intros Hplain (before & after & Hrefs & Hraw & Hothers).
  set (m := Backlinks.titleToSlugMap c) in *.
  assert (Hsub : ∀ r, r ∈ before ++ after → r ∈ refs c).
  { intros r Hr. rewrite Hrefs. apply elem_of_app in Hr as [Hr|Hr]; apply elem_of_app;
      [by left|right; by right]. }
  assert (Hres : ∀ r, r ∈ before ++ after → is_Some (resolved m r.2)).
  { intros r Hr. destruct (Hothers r Hr) as [t Ht].
    exists t. apply resolved_Some. split; [done|].
    by destruct (Hplain r t (Hsub r Hr) Ht). }
  assert (Hmiss : resolved m raw = None) by by apply resolved_None_of_resolve.
  destruct (collect_completes c [] Hplain) as [[o out] Hloop].
  destruct (collect_spec _ _ _ _ Hloop) as [_ Hout]. fold m in Hout.
  assert (Hwarn : out = [Warn (Backlinks.unresolved_warning raw source)]).
  { rewrite Hout, Hrefs. change ((source, raw) :: after) with ([(source, raw)] ++ after).
    rewrite !omap_app.
    rewrite (omap_warning_of_resolved m before), (omap_warning_of_resolved m after).
    - cbn [omap list_omap]. unfold warning_of. cbn [fst snd]. by rewrite Hmiss.
    - intros r Hr. apply Hres, elem_of_app. by right.
    - intros r Hr. apply Hres, elem_of_app. by left. }
  exists (built c w (o, out)). split; [|split; [|split; [|split]]].
  - rewrite build_spec, Hloop. done.
  - unfold built, warnings. cbn [console snd]. rewrite Hwarn.
    rewrite !omap_app. cbn. by rewrite app_nil_r.
  - unfold built. cbn [files]. apply lookup_insert_eq.
  - rewrite graphData_spec. cbn [Graph.nodes]. rewrite node_ids.
    assert (Hin : (source, raw) ∈ refs c).
    { rewrite Hrefs. apply elem_of_app. right. by left. }
    apply elem_of_refs in Hin as (e & He & Hs & _). cbn [fst] in Hs. subst source.
    by apply list_elem_of_fmap_2.
  - exists before, after. split; [done|].
    rewrite slugToTitleMap_eq, graphData_spec. cbn [Graph.edges]. fold m.
    assert (Hedges : omap (edge_of m) (refs c) = omap (edge_of m) (before ++ after)).
    { rewrite Hrefs. change ((source, raw) :: after) with ([(source, raw)] ++ after).
      rewrite !omap_app. cbn [omap list_omap]. unfold edge_of at 2. cbn [fst snd].
      by rewrite Hmiss. }
    split; [done|].
    rewrite Hedges, length_omap_edge_of_resolved, length_app by done. done.
Qed.

(** C3 — the defect.  Two corpora in which the reference to "Missing" is
    the only one that is not in the title map.  With a note whose slug is
    "constructor" the lookup [backlinks[targetSlug]] finds the inherited
    property: the backlink generator throws and the build does not
    complete, while the graph generator records the edge for the same
    reference.  With a note whose slug is empty the reference to it is in
    the title map and still fails the test [if (targetSlug)]: the build
    prints two warnings. *)
Theorem unresolved_link_breaks_on_unsafe_slugs w :
  one_unresolved corpus_constructor "a" "Missing" ∧
  build corpus_constructor w
    = TypeError "backlinks[targetSlug].includes is not a function" ∧
  Graph.endpoints <$> Graph.edges (Graph.graphData corpus_constructor)
    = [("a", "constructor")] ∧
  one_unresolved corpus_empty_slug "a" "Missing" ∧
  ∃ w', build corpus_empty_slug w = Ok w' ∧
    warnings w' = warnings w ++ [Backlinks.unresolved_warning "Home" "a";
                                 Backlinks.unresolved_warning "Missing" "a"].
Proof.
  split; [|split; [|split; [|split]]].
  - exists [("a", "Constructor")], []. split; [reflexivity|]. split; [reflexivity|].
    intros r Hr. apply elem_of_cons in Hr as [->|Hr]; [by eexists|].
    by apply elem_of_nil in Hr.
  - rewrite build_spec. reflexivity.
  - reflexivity.
  - exists [("a", "Home")], []. split; [reflexivity|]. split; [reflexivity|].
    intros r Hr. apply elem_of_cons in Hr as [->|Hr]; [by eexists|].
    by apply elem_of_nil in Hr.
  - rewrite build_spec.
    assert (Hc : Backlinks.collect corpus_empty_slug [] =
                   Ok ([], [Warn (Backlinks.unresolved_warning "Home" "a");
                            Warn (Backlinks.unresolved_warning "Missing" "a")]))
      by reflexivity.
    rewrite Hc. cbn [fmap result_fmap]. eexists. split; [done|].
    unfold built, warnings. cbn [console snd]. rewrite !omap_app.
    cbn [omap list_omap]. by rewrite !app_nil_r.
Qed.

(** For one listing of the entries, what a build leaves in the three
    artifact files, or the exception it ends with, does not depend on the
    files and console output found at the start; and a second build on
    the same listing leaves every file as the first one left it. *)
Lemma build_ignores_the_initial_world c w1 w2 :
  artifacts <$> build c w1 = artifacts <$> build c w2 ∧
  files <$> (build c w1 ≫= build c) = files <$> build c w1.
Proof.
  rewrite !build_spec.
  destruct (Backlinks.collect c []) as [st|msg] eqn:Hc; [|done].
  cbn [fmap result_fmap mbind result_bind]. split.
  - f_equal. unfold artifacts, built. cbn [files].
    rewrite !lookup_insert_eq.
    rewrite !(lookup_insert_ne _ Graph.outputPath Search.outputPath) by done.
    rewrite !(lookup_insert_ne _ Graph.outputPath Backlinks.outputPath) by done.
    rewrite !lookup_insert_eq.
    rewrite !(lookup_insert_ne _ Search.outputPath Backlinks.outputPath) by done.
    by rewrite !lookup_insert_eq.
  - rewrite build_spec, Hc. cbn [fmap result_fmap]. f_equal.
    unfold built. cbn [files]. apply map_eq. intros k.
    rewrite !lookup_insert. repeat case_decide; done.
Qed.

End build_properties.

Lemma unresolved_link_is_not_fatal_witness :
  ∃ w', @build demo_runtime corpus_repeat empty_world = Ok w' ∧
    warnings w' = warnings empty_world ++ [Backlinks.unresolved_warning "Missing" "A"] ∧
    files w' !! Graph.outputPath
      = Some (@JSON_stringify demo_runtime (Graph.to_json (Graph.graphData corpus_repeat))) ∧
    "A" ∈ Graph.n_id <$> Graph.nodes (Graph.graphData corpus_repeat) ∧
    ∃ before after,
      refs corpus_repeat = before ++ ("A", "Missing") :: after ∧
      Graph.edges (Graph.graphData corpus_repeat)
        = omap (edge_of (Graph.slugToTitleMap corpus_repeat)) (before ++ after) ∧
      length (Graph.edges (Graph.graphData corpus_repeat)) = length before + length after.
Proof.
  apply (@unresolved_link_is_not_fatal demo_runtime corpus_repeat "A" "Missing" empty_world).
  - apply plain_slugs_hit. intros e He.
    apply elem_of_cons in He as [->|He]; [split; reflexivity|].
    apply elem_of_cons in He as [->|He]; [split; reflexivity|].
    by apply elem_of_nil in He.
  - exists [("A", "Banana"); ("A", "banana")], [("B", "Apple")].
    split; [reflexivity|]. split; [reflexivity|].
    intros r Hr.
    apply elem_of_cons in Hr as [->|Hr]; [by eexists|].
    apply elem_of_cons in Hr as [->|Hr]; [by eexists|].
    apply elem_of_cons in Hr as [->|Hr]; [by eexists|].
    by apply elem_of_nil in Hr.
Defined.

(** Unresolved-link non-fatality as worded fails on both corpora.  With
    an empty identifier the reference to "Home" is in the title map, the
    one to "Missing" is the only one that is not, and the build prints two
    warnings, because the empty slug fails the test [if (targetSlug)].
    With a note whose slug is "constructor" the only missing title is
    again "Missing", and the build does not complete. *)
Lemma unresolved_link_non_fatal_counterexample :
  ¬ @unresolved_link_non_fatal demo_runtime corpus_empty_slug ∧
  ¬ @unresolved_link_non_fatal demo_runtime corpus_constructor.
Proof.
  split; intros Hclaim; cycle 1.
  { destruct (Hclaim "a" "Missing" empty_world) as (w' & Hbuild & _).
    { exists [("a", "Constructor")], []. split; [reflexivity|]. split; [reflexivity|].
      intros r Hr. apply elem_of_cons in Hr as [->|Hr]; [by eexists|].
      by apply elem_of_nil in Hr. }
    rewrite build_spec in Hbuild.
    assert (Hc : Backlinks.collect corpus_constructor [] =
                   TypeError "backlinks[targetSlug].includes is not a function")
      by reflexivity.
    rewrite Hc in Hbuild. discriminate Hbuild. }
  destruct (Hclaim "a" "Missing" empty_world) as (w' & Hbuild & Hwarn).
  { exists [("a", "Home")], []. split; [reflexivity|]. split; [reflexivity|].
    intros r Hr. apply elem_of_cons in Hr as [->|Hr]; [by eexists|].
    by apply elem_of_nil in Hr. }
  rewrite build_spec in Hbuild.
  assert (Hc : Backlinks.collect corpus_empty_slug [] =
                 Ok ([], [Warn (Backlinks.unresolved_warning "Home" "a");
                          Warn (Backlinks.unresolved_warning "Missing" "a")]))
    by reflexivity.
  rewrite Hc in Hbuild. cbn [fmap result_fmap] in Hbuild. injection Hbuild as <-.
  unfold warnings, built in Hwarn. cbn [console snd] in Hwarn.
  vm_compute in Hwarn. discriminate Hwarn.
Qed.

(** On a corpus with a note whose slug is "constructor" the backlink
    generator throws at the first reference to it, whatever the runtime
    and the initial world, while the graph data for the same corpus has
    the edge. *)
Lemma build_throws_on_prototype_slug `{Runtime} w :
  build corpus_constructor w = TypeError "backlinks[targetSlug].includes is not a function" ∧
  Graph.endpoints <$> Graph.edges (Graph.graphData corpus_constructor)
    = [("a", "constructor")].
Proof. rewrite build_spec. split; reflexivity. Qed.

(** The search generator gives a boost to the title field only. *)
Lemma only_title_is_boosted documents field boost :
  (field, Some boost) ∈ lunr_fields (Search.builder documents) →
  field = "title" ∧ boost = 10%N.
Proof.
  cbn [lunr_fields Search.builder]. intros Hin.
  apply elem_of_cons in Hin as [[= -> ->]|Hin]; [done|].
  apply elem_of_cons in Hin as [[=]|Hin].
  apply elem_of_cons in Hin as [[=]|Hin].
  by apply elem_of_nil in Hin.
Qed.

(** * Further properties *)

(** ** Matches *)

Section matches.

Implicit Types (s t text rest cap : string) (ch : ascii).

Lemma lazy_until_close_cons ch s :
  Regex.lazy_until_close (String ch s) =
    if Ascii.eqb ch "]" && starts_with_close s
    then Some (EmptyString, match s with String _ rest => rest | EmptyString => EmptyString end)
    else if Js.is_line_terminator ch then None
    else match Regex.lazy_until_close s with
         | Some (cap, rest) => Some (String ch cap, rest)
         | None => None
         end.
Proof.
  destruct (Ascii.eqb ch "]") eqn:Hch.
  - apply Ascii.eqb_eq in Hch. subst ch. destruct s as [|ch' s]; [done|].
    cbn [starts_with_close andb].
    destruct ch' as [[] [] [] [] [] [] [] []]; reflexivity.
  - by apply lazy_until_close_other.
Qed.

(** What the lazy capture returns is followed by the closing pair, stays
    on one line and ends before the first closing pair. *)
Lemma lazy_until_close_Some s cap rest :
  Regex.lazy_until_close s = Some (cap, rest) →
  s = cap +++ "]]" +++ rest ∧ one_line cap = true ∧ has_close_pair (cap +++ "]") = false.
Proof.
  revert cap rest. induction s as [|ch s IH]; intros cap rest; [done|].
  rewrite lazy_until_close_cons.
  destruct (Ascii.eqb ch "]" && starts_with_close s) eqn:Hclose.
  - apply andb_prop in Hclose as [Hch Hs]. apply Ascii.eqb_eq in Hch. subst ch.
    destruct s as [|ch' s]; [done|]. cbn [starts_with_close] in Hs.
    apply Ascii.eqb_eq in Hs. subst ch'. intros [= <- <-]. done.
  - destruct (Js.is_line_terminator ch) eqn:Hlt; [done|].
    destruct (Regex.lazy_until_close s) as [[cap' rest']|] eqn:Hs; [|done].
    intros [= <- <-]. destruct (IH _ _ eq_refl) as (-> & Hline & Hpair).
    split; [done|]. split.
    + cbn [one_line]. by rewrite Hlt, Hline.
    + change (String ch cap' +++ "]") with (String ch (cap' +++ "]")).
      cbn [has_close_pair]. rewrite Hpair, orb_false_r.
      replace (starts_with_close (cap' +++ "]"))
        with (starts_with_close (cap' +++ "]]" +++ rest')) by by destruct cap'.
      exact Hclose.
Qed.

Lemma match_here_Some s cap :
  Regex.match_here s = Some cap →
  ∃ rest, s = "[[" +++ cap +++ "]]" +++ rest ∧
          one_line cap = true ∧ has_close_pair (cap +++ "]") = false.
Proof.
  destruct s as [|ch s]; [done|].
  destruct (Ascii.eqb ch "[") eqn:Hch; [|by rewrite match_here_other].
  apply Ascii.eqb_eq in Hch. subst ch. destruct s as [|ch s]; [done|].
  destruct (Ascii.eqb ch "[") eqn:Hch.
  - apply Ascii.eqb_eq in Hch. subst ch. cbn [Regex.match_here].
    destruct (Regex.lazy_until_close s) as [[cap' rest]|] eqn:Hs; [|done].
    intros [= <-]. exists rest.
    destruct (lazy_until_close_Some _ _ _ Hs) as (-> & ? & ?). done.
  - destruct ch as [[] [] [] [] [] [] [] []]; try discriminate Hch; done.
Qed.

Lemma exec_loop_captures skip s cap :
  cap ∈ Regex.exec_loop skip s →
  one_line cap = true ∧ has_close_pair (cap +++ "]") = false.
Proof.
  revert skip. induction s as [|ch s IH]; intros skip Hin.
  - by apply elem_of_nil in Hin.
  - destruct skip as [|k]; [|by apply (IH k)].
    rewrite exec_loop_0_cons in Hin.
    destruct (Regex.match_here (String ch s)) as [cap'|] eqn:Hm; [|by apply (IH 0)].
    apply elem_of_cons in Hin as [->|Hin]; [|by apply (IH _ Hin)].
    destruct (match_here_Some _ _ Hm) as (rest & _ & ? & ?). done.
Qed.

Lemma match_positions_captures pos skip s :
  snd <$> Match.exec_loop pos skip s = Regex.exec_loop skip s.
Proof.
  revert pos skip. induction s as [|ch s IH]; intros pos skip; [done|].
  destruct skip as [|k]; cbn [Match.exec_loop Regex.exec_loop]; [|apply IH].
  destruct (Regex.match_here (String ch s)); [|apply IH].
  rewrite fmap_cons. cbn [snd]. f_equal. apply IH.
Qed.

Lemma substring_app_skip pre n s :
  String.substring (String.length pre) n (pre +++ s) = String.substring 0 n s.
Proof.
  induction pre as [|ch pre IH]; [done|].
  change (String ch pre +++ s) with (String ch (pre +++ s)).
  cbn [String.length String.substring]. exact IH.
Qed.

Lemma substring_prefix a b : String.substring 0 (String.length a) (a +++ b) = a.
Proof.
  induction a as [|ch a IH]; [by destruct b|].
  change (String ch a +++ b) with (String ch (a +++ b)).
  cbn [String.length String.substring]. by rewrite IH.
Qed.

Lemma append_snoc pre ch s : (pre +++ String ch "") +++ s = pre +++ String ch s.
Proof. by rewrite append_assoc. Qed.

(** Every match sits where its index says. *)
Lemma match_loop_sound pre skip s m :
  m ∈ Match.exec_loop (String.length pre) skip s →
  Match.full (pre +++ s) m = "[[" +++ m.2 +++ "]]".
Proof.
  revert pre skip. induction s as [|ch s IH]; intros pre skip Hin.
  - by apply elem_of_nil in Hin.
  - assert (Hnext : ∀ k, m ∈ Match.exec_loop (S (String.length pre)) k s →
                         Match.full (pre +++ String ch s) m = "[[" +++ m.2 +++ "]]").
    { intros k Hk. rewrite <- append_snoc. apply (IH _ k).
      rewrite length_append. cbn [String.length].
      by replace (String.length pre + 1) with (S (String.length pre)) by lia. }
    destruct skip as [|k]; cbn [Match.exec_loop] in Hin; [|by apply (Hnext k)].
    destruct (Regex.match_here (String ch s)) as [cap|] eqn:Hm; [|by apply (Hnext 0)].
    apply elem_of_cons in Hin as [->|Hin]; [|by apply (Hnext _ Hin)].
    destruct (match_here_Some _ _ Hm) as (rest & Hs & _).
    unfold Match.full. cbn [fst snd]. rewrite Hs, substring_app_skip.
    replace (String.length cap + 4) with (String.length ("[[" +++ cap +++ "]]")).
    + rewrite <- (append_assoc cap "]]" rest).
      change ("[[" +++ (cap +++ "]]") +++ rest) with (("[[" +++ cap +++ "]]") +++ rest).
      apply substring_prefix.
    + change ("[[" +++ cap +++ "]]") with (String "[" (String "[" (cap +++ "]]"))).
      cbn [String.length]. rewrite length_append. cbn [String.length]. lia.
Qed.

Lemma match_loop_spaced pos skip s :
  (skip ≤ String.length s)%nat →
  Match.spaced (pos + skip) (pos + String.length s) (Match.exec_loop pos skip s).
Proof.
  revert pos skip. induction s as [|ch s IH]; intros pos skip Hskip.
  - cbn [String.length] in *. cbn. lia.
  - cbn [String.length] in *. destruct skip as [|k]; cbn [Match.exec_loop].
    + destruct (Regex.match_here (String ch s)) as [cap|] eqn:Hm.
      * destruct (match_here_Some _ _ Hm) as (rest & Hs & _).
        assert (Hlen : (String.length cap + 3 ≤ String.length s)%nat).
        { apply (f_equal String.length) in Hs.
          change ("[[" +++ cap +++ "]]" +++ rest)
            with (String "[" (String "[" (cap +++ "]]" +++ rest))) in Hs.
          cbn [String.length] in Hs. rewrite !length_append in Hs.
          cbn [String.length] in Hs. lia. }
        cbn [Match.spaced fst]. split; [lia|].
        unfold Match.lastIndex. cbn [fst snd].
        replace (pos + (String.length cap + 4))
          with (S pos + (String.length cap + 3)) by lia.
        replace (pos + S (String.length s)) with (S pos + String.length s) by lia.
        by apply IH.
      * replace (pos + 0) with pos by lia.
        assert (Hstep := IH (S pos) 0 ltac:(lia)).
        replace (pos + S (String.length s)) with (S pos + String.length s) by lia.
        revert Hstep. generalize (Match.exec_loop (S pos) 0 s).
        intros [|m ms]; cbn [Match.spaced]; [lia|]. intros [? ?]. split; [lia|done].
    + replace (pos + S k) with (S pos + k) by lia.
      replace (pos + S (String.length s)) with (S pos + String.length s) by lia.
      apply IH. lia.
Qed.

End matches.

Lemma append_nil_r s : s +++ "" = s.
Proof.
  induction s as [|ch s IH]; [done|].
  change (String ch s +++ "") with (String ch (s +++ "")). by rewrite IH.
Qed.

(** X1 — Captures.  Whatever the text, every link text the scan returns
    stays on one line and stops before the first pair of closing brackets:
    it holds no line terminator, no two closing brackets in a row, and
    does not end with a closing bracket. *)
Theorem captures_are_lazy_and_on_one_line text :
  Forall (fun cap => one_line cap = true ∧ has_close_pair (cap +++ "]") = false)
         (Regex.exec_all text).
Proof. apply Forall_forall. intros cap Hin. by apply (exec_loop_captures 0 text). Qed.

(** X2 — Match positions.  The matches found with their index carry the
    captures of the scan, and each one sits in the text where its index
    says: the matched part is the capture between the two pairs of
    brackets. *)
Theorem matches_sit_at_their_index text :
  snd <$> Match.exec_all text = Regex.exec_all text ∧
  Forall (fun m => Match.full text m = "[[" +++ m.2 +++ "]]") (Match.exec_all text).
Proof.
  split; [apply match_positions_captures|].
  apply Forall_forall. intros m Hin. by apply (match_loop_sound "" 0 text).
Qed.

(** X3 — Matches do not overlap.  The matches come in increasing order of
    index, each starting at or after the end of the one before, and the
    last one ends inside the text. *)
Theorem matches_do_not_overlap text :
  Match.spaced 0 (String.length text) (Match.exec_all text).
Proof. apply (match_loop_spaced 0 0 text). lia. Qed.

(** X4 — Scanning what was written.  A text written as a sequence of
    links with simple targets, separated by text without opening bracket,
    scans back to the list of its targets, in order; without any link the
    scan returns nothing. *)
Theorem scan_of_rendered_links items last :
  Forall (fun it => no_open_bracket it.1 = true ∧ simple_target it.2 = true) items →
  no_open_bracket last = true →
  Regex.exec_all (render_links items last) = snd <$> items.
Proof.
  intros Hitems Hlast. induction Hitems as [|[before target] items [Hb Ht] _ IH].
  - cbn [render_links]. unfold Regex.exec_all.
    rewrite <- (append_nil_r last), exec_loop_prefix by done. done.
  - cbn [render_links fst snd] in *. rewrite exec_all_marker by done.
    rewrite fmap_cons. cbn [snd]. by rewrite IH.
Qed.

Lemma scan_of_rendered_links_witness :
  Regex.exec_all (render_links [("see ", "Apple"); (" and ", "My First Note")] ".")
    = ["Apple"; "My First Note"].
Proof.
  apply (scan_of_rendered_links [("see ", "Apple"); (" and ", "My First Note")] ".").
  - repeat constructor.
  - reflexivity.
Defined.

(** ** The emitted backlinks *)

Section backlinks_shape.

Implicit Types (m : gmap string string) (o : Backlinks.t) (out : list ConsoleMsg)
  (k : string) (v : list string).

Lemma own_None_keys k o : Backlinks.own k o = None ↔ k ∉ o.*1.
Proof.
  induction o as [|[k' v'] o IH]; cbn [Backlinks.own fmap list_fmap fst].
  - split; [intros _; apply not_elem_of_nil|done].
  - rewrite not_elem_of_cons. destruct (decide (k' = k)) as [->|Hne].
    + split; [done|]. by intros [? _].
    + rewrite IH. split; [by intros ?; split|by intros [_ ?]].
Qed.

Lemma own_of_elem k v o : NoDup o.*1 → (k, v) ∈ o → Backlinks.own k o = Some v.
Proof.
  induction o as [|[k' v'] o IH]; intros Hnd Hin; [by apply elem_of_nil in Hin|].
  cbn [fmap list_fmap fst] in Hnd. apply NoDup_cons in Hnd as [Hk' Hnd].
  cbn [Backlinks.own]. apply elem_of_cons in Hin as [[= <- <-]|Hin].
  - by rewrite decide_True.
  - rewrite decide_False; [by apply IH|].
    intros ->. apply Hk'. apply list_elem_of_fmap. by exists (k, v).
Qed.

Lemma keys_set k v o :
  (Backlinks.set k v o).*1
    = match Backlinks.own k o with Some _ => o.*1 | None => o.*1 ++ [k] end.
Proof.
  induction o as [|[k' v'] o IH]; [done|].
  cbn [Backlinks.set Backlinks.own]. destruct (decide (k' = k)) as [->|Hne]; [done|].
  cbn [fmap list_fmap fst]. fold (fmap (M:=list) (@fst string (list string))).
  rewrite IH. by destruct (Backlinks.own k o).
Qed.

Lemma set_set k v1 v2 o :
  Backlinks.set k v2 (Backlinks.set k v1 o) = Backlinks.set k v2 o.
Proof.
  induction o as [|[k' v'] o IH]; cbn [Backlinks.set].
  - by rewrite decide_True.
  - destruct (decide (k' = k)) as [->|Hne]; cbn [Backlinks.set].
    + by rewrite decide_True.
    + rewrite decide_False by done. by rewrite IH.
Qed.

Lemma values_set k v o :
  v ≠ [] → Forall (fun kv => kv.2 ≠ []) o →
  Forall (fun kv => kv.2 ≠ []) (Backlinks.set k v o).
Proof.
  intros Hv. induction o as [|[k' v'] o IH]; intros Ho; cbn [Backlinks.set].
  - by repeat constructor.
  - apply Forall_cons in Ho as [Hv' Ho].
    destruct (decide (k' = k)); constructor; auto.
Qed.

Lemma tidy_set k v o :
  v ≠ [] → (Backlinks.own k o = None → Js.inherited k = false) →
  tidy o → tidy (Backlinks.set k v o).
Proof.
  intros Hv Hk (Hnd & Hvals & Hclean). split; [|split].
  - rewrite keys_set. destruct (Backlinks.own k o) eqn:Hown; [done|].
    apply NoDup_app. split; [done|]. split; [|apply NoDup_singleton].
    intros x Hx Hx'. apply list_elem_of_singleton in Hx'. subst x.
    by apply own_None_keys in Hown.
  - by apply values_set.
  - intros k' Hk'. destruct (decide (k = k')) as [<-|Hne].
    + specialize (Hclean k Hk'). specialize (Hk Hclean). congruence.
    + rewrite own_set_ne by done. by apply Hclean.
Qed.

(** What a successful iteration on a resolved reference does to the
    object: nothing, or one assignment of a non-empty array. *)
Lemma on_match_shape m source o out raw target o' out' :
  resolved m raw = Some target →
  Backlinks.on_match m source (o, out) raw = Ok (o', out') →
  (Backlinks.own target o = None → Js.inherited target = false) ∧
  (o' = o ∨ ∃ v, v ≠ [] ∧ o' = Backlinks.set target v o).
Proof.
  intros Hr. rewrite (on_match_resolved _ _ _ _ _ _ Hr).
  unfold Backlinks.has, Backlinks.sources_of.
  destruct (Backlinks.own target o) as [srcs|] eqn:Hown; cbn [default from_option id].
  - rewrite bool_decide_eq_false_2 by done. cbn [andb].
    destruct (bool_decide (source ∈ srcs)); intros [= <- <-]; (split; [done|]);
      [by left|].
    right. exists (srcs ++ [source]). split; [|done]. by destruct srcs.
  - rewrite bool_decide_eq_true_2 by done. cbn [andb].
    destruct (Js.inherited target) eqn:Hinh; [done|].
    rewrite bool_decide_eq_false_2 by apply not_elem_of_nil.
    intros [= <- <-]. split; [done|]. right. exists [source]. split; [done|].
    apply set_set.
Qed.

Lemma tidy_step m o out r o' out' :
  on_ref m (o, out) r = Ok (o', out') → tidy o → tidy o'.
Proof.
  destruct r as [source raw]. rewrite on_ref_pair. intros Hstep Ho.
  destruct (resolved m raw) as [target|] eqn:Hr.
  - destruct (on_match_shape _ _ _ _ _ _ _ _ Hr Hstep) as [Hsafe [->|(v & Hv & ->)]];
      [done|]. by apply tidy_set.
  - rewrite on_match_unresolved in Hstep by done. revert Hstep. by intros [= <- _].
Qed.

Lemma tidy_loop m rs o out o' out' :
  for_of (on_ref m) rs (o, out) = Ok (o', out') → tidy o → tidy o'.
Proof.
  revert o out. induction rs as [|r rs IH]; intros o out; cbn [for_of].
  - by intros [= <- _].
  - destruct (on_ref m (o, out) r) as [[o1 out1]|] eqn:Hstep; cbn [mbind result_bind];
      [|done].
    intros Hloop Ho. apply (IH _ _ Hloop). by apply (tidy_step _ _ _ _ _ _ Hstep).
Qed.

Lemma tidy_empty : tidy [].
Proof. split; [apply NoDup_nil_2|]. split; [constructor|done]. Qed.

(** The loop throws exactly when it meets a reference to a name of the
    prototype. *)
Lemma loop_throws m rs o out :
  tidy o →
  (∃ msg, for_of (on_ref m) rs (o, out) = TypeError msg)
    ↔ ∃ r, r ∈ rs ∧ hits_prototype m r.
Proof.
  revert o out. induction rs as [|[source raw] rs IH]; intros o out Ho; cbn [for_of].
  - split; [by intros [? ?]|]. intros (r & Hr & _). by apply elem_of_nil in Hr.
  - destruct (on_ref m (o, out) (source, raw)) as [[o1 out1]|msg] eqn:Hstep;
      cbn [mbind result_bind].
    + rewrite (IH o1 out1) by by apply (tidy_step _ _ _ _ _ _ Hstep).
      split; intros (r & Hr & Hbad).
      * exists r. split; [by right|done].
      * exists r. split; [|done].
        apply elem_of_cons in Hr as [->|Hr]; [|done]. exfalso.
        destruct Hbad as (target & Hres & Hinh). cbn [snd] in Hres.
        rewrite on_ref_pair in Hstep.
        destruct (on_match_shape _ _ _ _ _ _ _ _ Hres Hstep) as [Hsafe _].
        destruct Ho as (_ & _ & Hclean). rewrite Hsafe in Hinh by by apply Hclean.
        done.
    + split; [|by eexists]. intros _. exists (source, raw). split; [by left|].
      rewrite on_ref_pair in Hstep.
      destruct (resolved m raw) as [target|] eqn:Hr.
      * exists target. split; [done|].
        rewrite (on_match_resolved _ _ _ _ _ _ Hr) in Hstep.
        destruct (Js.inherited target); [done|]. rewrite andb_false_r in Hstep.
        by case_bool_decide.
      * by rewrite on_match_unresolved in Hstep.
Qed.

End backlinks_shape.

(** X5 — When the backlink generator throws.  Whatever the initial world,
    the build ends with a TypeError exactly when some reference of the
    corpus resolves to an identifier that is a property name of
    [Object.prototype]; on every other corpus it completes. *)
Theorem build_throws_iff `{Runtime} c w :
  (∃ msg, build c w = TypeError msg)
    ↔ ∃ r, r ∈ refs c ∧ hits_prototype (Backlinks.titleToSlugMap c) r.
Proof.
  rewrite build_spec, <- (loop_throws _ (refs c) [] []) by apply tidy_empty.
  rewrite <- collect_refs.
  destruct (Backlinks.collect c []) as [st|msg]; cbn [fmap result_fmap].
  - split; by intros [? ?].
  - split; by eexists.
Qed.

Lemma collect_shape c out backlinks out' :
  Backlinks.collect c out = Ok (backlinks, out') →
  NoDup backlinks.*1 ∧
  Forall (fun kv =>
            kv.1 ∈ slug <$> c ∧ Js.truthy kv.1 = true ∧ Js.inherited kv.1 = false ∧
            kv.2 ≠ [] ∧ NoDup kv.2 ∧ Forall (fun a => a ∈ slug <$> c) kv.2)
         backlinks.
Proof.
  intros Hc. destruct (collect_spec _ _ _ _ Hc) as [[Hmem Hnd] _].
  rewrite collect_refs in Hc.
  destruct (tidy_loop _ _ _ _ _ _ Hc tidy_empty) as (Hkeys & Hvals & Hclean).
  split; [done|]. apply Forall_forall. intros [k v] Hkv. cbn [fst snd].
  assert (Hown : Backlinks.own k backlinks = Some v) by by apply own_of_elem.
  assert (Hsrc : Backlinks.sources_of k backlinks = v).
  { unfold Backlinks.sources_of. by rewrite Hown. }
  assert (Hv : v ≠ []).
  { rewrite Forall_forall in Hvals. apply (Hvals (k, v) Hkv). }
  assert (Hlink : ∀ a, a ∈ v →
            a ∈ slug <$> c ∧ k ∈ slug <$> c ∧ Js.truthy k = true).
  { intros a Ha. rewrite <- Hsrc in Ha. apply Hmem in Ha.
    apply list_elem_of_omap in Ha as ([source raw] & Hr & Hl).
    unfold link_of in Hl. cbn [fst snd] in Hl.
    destruct (resolved (Backlinks.titleToSlugMap c) raw) as [t|] eqn:Hres; [|done].
    injection Hl as -> ->.
    apply elem_of_refs in Hr as (e & He & Hs & _). cbn [fst] in Hs. subst a.
    apply resolved_Some in Hres as [Hres Ht].
    apply titleToSlugMap_lookup_Some in Hres as (e' & He' & <- & _).
    split; [by apply list_elem_of_fmap_2|]. split; [by apply list_elem_of_fmap_2|done]. }
  destruct v as [|a v']; [done|].
  destruct (Hlink a) as (_ & Hk & Ht); [by left|].
  split; [done|]. split; [done|]. split.
  { destruct (Js.inherited k) eqn:Hi; [|done]. rewrite Hclean in Hown; done. }
  split; [done|]. split; [rewrite <- Hsrc; apply Hnd|].
  apply Forall_forall. intros a' Ha'. by apply Hlink.
Qed.

(** X6 — Shape of the emitted backlinks.  In the object the backlink
    generator emits, the keys are distinct, each key is the non-empty slug
    of an entry and no name of [Object.prototype]; each array is non-empty,
    without repetition, and made of slugs of entries. *)
Theorem backlinks_are_well_formed c out backlinks out' :
  Backlinks.collect c out = Ok (backlinks, out') →
  NoDup backlinks.*1 ∧
  Forall (fun kv =>
            kv.1 ∈ slug <$> c ∧ Js.truthy kv.1 = true ∧ Js.inherited kv.1 = false ∧
            kv.2 ≠ [] ∧ NoDup kv.2 ∧ Forall (fun a => a ∈ slug <$> c) kv.2)
         backlinks.
Proof. apply collect_shape. Qed.

Lemma backlinks_are_well_formed_witness :
  let backlinks := [("B", ["A"]); ("A", ["B"])] in
  NoDup backlinks.*1 ∧
  Forall (fun kv =>
            kv.1 ∈ slug <$> corpus_repeat ∧ Js.truthy kv.1 = true ∧
            Js.inherited kv.1 = false ∧
            kv.2 ≠ [] ∧ NoDup kv.2 ∧ Forall (fun a => a ∈ slug <$> corpus_repeat) kv.2)
         backlinks.
Proof.
  apply (backlinks_are_well_formed corpus_repeat [] [("B", ["A"]); ("A", ["B"])]
           [Warn (Backlinks.unresolved_warning "Missing" "A")]).
  reflexivity.
Defined.

Section warnings.

Implicit Types (m : gmap string string) (rs : list (string * string)).

Lemma warnings_of_refs m rs :
  omap (fun x => match x with Warn s => Some s | Log _ => None end)
       (omap (warning_of m) rs)
    = (fun r => Backlinks.unresolved_warning r.2 r.1)
        <$> filter (fun r => resolved m r.2 = None) rs.
Proof.
  induction rs as [|r rs IH]; [done|].
  rewrite filter_cons. cbn [omap list_omap]. unfold warning_of at 1.
  destruct (resolved m r.2) eqn:Hr.
  - rewrite decide_False by done. exact IH.
  - rewrite decide_True by done. cbn [omap list_omap]. rewrite fmap_cons.
    f_equal. exact IH.
Qed.

Lemma edges_and_warnings m rs :
  length (omap (edge_of m) rs) + length (omap (warning_of m) rs) = length rs.
Proof.
  induction rs as [|r rs IH]; [done|].
  cbn [omap list_omap]. unfold edge_of at 1, warning_of at 1.
  destruct (resolved m r.2); cbn [fmap option_fmap option_map length]; lia.
Qed.

End warnings.

(** X7 — Warnings of a build.  A build that completes adds to the console
    one warning for every reference that does not resolve, in scan order
    and with repetitions, each naming the raw link text and the slug of
    the entry it stands in; it adds no other warning. *)
Theorem build_warns_for_each_unresolved_reference `{Runtime} c w w' :
  build c w = Ok w' →
  warnings w' =
    warnings w ++
    ((fun r => Backlinks.unresolved_warning r.2 r.1)
       <$> filter (fun r => resolved (Backlinks.titleToSlugMap c) r.2 = None) (refs c)).
Proof.
  rewrite build_spec.
  destruct (Backlinks.collect c []) as [[o out]|msg] eqn:Hc; [|done].
  intros [= <-]. destruct (collect_spec _ _ _ _ Hc) as [_ ->].
  unfold warnings, built. cbn [console snd app].
  rewrite !omap_app, warnings_of_refs. cbn [omap list_omap].
  by rewrite !app_nil_r.
Qed.

Lemma build_warns_for_each_unresolved_reference_witness :
  ∃ w', @build demo_runtime corpus_empty_slug empty_world = Ok w' ∧
        warnings w' = [Backlinks.unresolved_warning "Home" "a";
                       Backlinks.unresolved_warning "Missing" "a"].
Proof.
  eexists. split; [reflexivity|].
  apply (@build_warns_for_each_unresolved_reference demo_runtime corpus_empty_slug
           empty_world).
  reflexivity.
Defined.

(** X8 — Every reference is accounted for.  When the backlink generator
    completes, the number of edges in the graph data plus the number of
    warnings it printed is the number of references found in the corpus:
    each match is either an edge or a warning. *)
Theorem every_reference_is_an_edge_or_a_warning c backlinks out :
  Backlinks.collect c [] = Ok (backlinks, out) →
  length (Graph.edges (Graph.graphData c)) + length out = length (refs c) ∧
  Forall (fun x => ∃ s, x = Warn s) out.
Proof.
  intros Hc. destruct (collect_spec _ _ _ _ Hc) as [_ ->].
  rewrite graphData_spec. cbn [Graph.edges app]. split; [apply edges_and_warnings|].
  apply Forall_forall. intros x Hx. apply list_elem_of_omap in Hx as (r & _ & Hx).
  unfold warning_of in Hx. destruct (resolved _ r.2); [done|].
  injection Hx as <-. by eexists.
Qed.

Lemma every_reference_is_an_edge_or_a_warning_witness :
  length (Graph.edges (Graph.graphData corpus_repeat))
    + length [Warn (Backlinks.unresolved_warning "Missing" "A")]
    = length (refs corpus_repeat) ∧
  Forall (fun x => ∃ s, x = Warn s) [Warn (Backlinks.unresolved_warning "Missing" "A")].
Proof.
  apply (every_reference_is_an_edge_or_a_warning corpus_repeat
           [("B", ["A"]); ("A", ["B"])]).
  reflexivity.
Defined.

(** ** The search documents and the store *)

Section search_store.

Implicit Types (c : list Entry) (e : Entry) (o : Search.store_t) (k : string).

Lemma search_own_set_eq k v o : SearchView.own k (Search.set k v o) = Some v.
Proof.
  induction o as [|[k' v'] o IH]; cbn [Search.set SearchView.own].
  - by rewrite decide_True.
  - destruct (decide (k' = k)) as [->|Hne]; cbn [SearchView.own].
    + by rewrite decide_True.
    + by rewrite decide_False.
Qed.

Lemma search_own_set_ne k k' v o :
  k ≠ k' → SearchView.own k' (Search.set k v o) = SearchView.own k' o.
Proof.
  intros Hne. induction o as [|[k0 v0] o IH]; cbn [Search.set SearchView.own].
  - by rewrite decide_False.
  - destruct (decide (k0 = k)) as [->|Hne0]; cbn [SearchView.own].
    + by rewrite !decide_False.
    + destruct (decide (k0 = k')); [done|apply IH].
Qed.

Lemma search_own_assign k k' v o :
  SearchView.own k' (Search.assign k v o) =
    if decide (k = k' ∧ k ≠ "__proto__") then Some v else SearchView.own k' o.
Proof.
  unfold Search.assign. destruct (decide (k = "__proto__")) as [->|Hk].
  - rewrite decide_False; [done|]. by intros [_ ?].
  - destruct (decide (k = k')) as [<-|Hne].
    + rewrite decide_True by done. apply search_own_set_eq.
    + rewrite decide_False by (by intros [? _]). by apply search_own_set_ne.
Qed.

Lemma search_collect_snoc c e :
  Search.collect (c ++ [e]) = Search.on_entry (Search.collect c) e.
Proof. unfold Search.collect. by rewrite foldl_snoc. Qed.

Lemma search_collect_spec c e :
  Search.collect (c ++ [e])
    = ((Search.collect c).1 ++ [search_document_of e],
       Search.assign (slug e) (item_of e) (Search.collect c).2).
Proof. rewrite search_collect_snoc. by destruct (Search.collect c). Qed.

Lemma search_documents c : (Search.collect c).1 = search_document_of <$> c.
Proof.
  induction c as [|e c IH] using rev_ind; [done|].
  rewrite search_collect_spec, fmap_app. cbn [fst]. by rewrite IH.
Qed.

Lemma last_filter_snoc (P : Entry → Prop) `{∀ x, Decision (P x)} c e :
  last (filter P (c ++ [e])) = if decide (P e) then Some e else last (filter P c).
Proof.
  rewrite filter_app, filter_cons, filter_nil.
  destruct (decide (P e)); [apply last_snoc|by rewrite app_nil_r].
Qed.

Lemma search_store_lookup c k :
  SearchView.own k (Search.collect c).2 =
    if decide (k = "__proto__") then None
    else item_of <$> last (filter (fun e => slug e = k) c).
Proof.
  induction c as [|e c IH] using rev_ind.
  - by destruct (decide (k = "__proto__")).
  - rewrite search_collect_spec. cbn [snd]. rewrite search_own_assign, IH.
    rewrite last_filter_snoc.
    destruct (decide (slug e = k)) as [<-|Hne].
    + destruct (decide (slug e = "__proto__")) as [Hp|Hp].
      * rewrite decide_False; [done|]. by intros [_ ?].
      * by rewrite decide_True.
    + rewrite decide_False; [done|]. by intros [? _].
Qed.

End search_store.

(** X9 — The search store.  The documents handed to lunr are one per
    entry, in the order of [allContent].  The store keeps, under each slug,
    the title, description and url of the last entry that carries it; it
    has no item for a slug that no entry carries, and none under
    [__proto__], where the assignment is lost. *)
Theorem search_store_keeps_the_last_entry c k :
  d_id <$> (Search.collect c).1 = slug <$> c ∧
  SearchView.own k (Search.collect c).2 =
    if decide (k = "__proto__") then None
    else item_of <$> last (filter (fun e => slug e = k) c).
Proof.
  split; [|apply search_store_lookup].
  rewrite search_documents. by rewrite <- list_fmap_compose.
Qed.

Section search_results.

Implicit Types (c es : list Entry) (e : Entry).

Lemma filter_slug_not_elem c k :
  k ∉ slug <$> c → filter (fun e => slug e = k) c = [].
Proof.
  induction c as [|e c IH]; [done|]. rewrite fmap_cons, not_elem_of_cons.
  intros [Hne Hk]. rewrite filter_cons, decide_False by done. by apply IH.
Qed.

Lemma last_with_slug c e :
  NoDup (slug <$> c) → e ∈ c → last (filter (fun e' => slug e' = slug e) c) = Some e.
Proof.
  induction c as [|e' c IH]; intros Hnd He; [by apply elem_of_nil in He|].
  rewrite fmap_cons in Hnd. apply NoDup_cons in Hnd as [He' Hnd].
  rewrite filter_cons. apply elem_of_cons in He as [->|He].
  - rewrite decide_True by done. by rewrite filter_slug_not_elem.
  - rewrite decide_False; [by apply IH|].
    intros Heq. apply He'. rewrite Heq. by apply list_elem_of_fmap_2.
Qed.

Lemma on_result_eq (searchStore : Search.store_t) (rows : list SearchView.Row) ref :
  SearchView.on_result searchStore rows ref =
    match SearchView.own ref searchStore with
    | Some item =>
        Ok (rows ++ [ {| SearchView.r_href := Search.s_url item;
                         SearchView.r_title := Search.s_title item;
                         SearchView.r_snippet := SearchView.snippet (Search.s_description item) |} ])
    | None =>
        if Js.inherited ref
        then TypeError "Cannot read properties of undefined (reading 'substring')"
        else Ok rows
    end.
Proof. done. Qed.

Lemma results_loop c es rows :
  NoDup (slug <$> c) → "__proto__" ∉ slug <$> c → Forall (fun e => e ∈ c) es →
  for_of (SearchView.on_result (Search.collect c).2) (slug <$> es) rows
    = Ok (rows ++ (row_of <$> es)).
Proof.
  intros Hnd Hproto Hes. revert rows.
  induction Hes as [|e es He _ IH]; intros rows; cbn [for_of fmap list_fmap].
  - by rewrite app_nil_r.
  - rewrite on_result_eq, search_store_lookup.
    rewrite decide_False.
    + rewrite last_with_slug by done. cbn [fmap option_fmap option_map mbind result_bind].
      fold (fmap (M:=list) slug es). fold (fmap (M:=list) row_of es).
      rewrite IH, <- app_assoc. done.
    + intros Heq. apply Hproto. rewrite <- Heq. by apply list_elem_of_fmap_2.
Qed.

End search_results.

(** X10 — Hits are all shown.  When slugs are unique and none is
    [__proto__], the result panel built from the store of the search data
    shows one row for every hit among the entries, in the order of the
    hits, each with the url, the title and the snippet of its own entry. *)
Theorem search_hits_are_all_shown c es :
  NoDup (slug <$> c) →
  "__proto__" ∉ slug <$> c →
  Forall (fun e => e ∈ c) es →
  es ≠ [] →
  SearchView.displayResults (Search.collect c).2 (slug <$> es)
    = Ok (SearchView.Results (row_of <$> es)).
Proof.
  intros Hnd Hproto Hes Hne. unfold SearchView.displayResults.
  rewrite results_loop by done. by destruct es.
Qed.

Lemma search_hits_are_all_shown_witness :
  SearchView.displayResults (Search.collect corpus_repeat).2
      (slug <$> [doc "B" "Banana" "no links but [[Apple]]"])
    = Ok (SearchView.Results (row_of <$> [doc "B" "Banana" "no links but [[Apple]]"])).
Proof.
  apply (search_hits_are_all_shown corpus_repeat [doc "B" "Banana" "no links but [[Apple]]"]).
  - apply (bool_decide_unpack _). reflexivity.
  - apply (bool_decide_unpack _). reflexivity.
  - constructor; [|constructor]. apply elem_of_cons. right. apply elem_of_cons. by left.
  - done.
Defined.

Lemma length_substring_0 n s :
  String.length (String.substring 0 n s) = Nat.min n (String.length s).
Proof.
  revert s. induction n as [|n IH]; intros [|ch s]; cbn [String.substring String.length];
    [done..|]. by rewrite IH.
Qed.

Lemma substring_0_all n s :
  (String.length s ≤ n)%nat → String.substring 0 n s = s.
Proof.
  revert s. induction n as [|n IH]; intros [|ch s]; cbn [String.substring String.length];
    intros Hlen; [done|lia|done|]. rewrite IH; [done|lia].
Qed.

Lemma prefix_substring_0 n s : String.prefix (String.substring 0 n s) s = true.
Proof.
  revert s. induction n as [|n IH]; intros [|ch s]; cbn [String.substring String.prefix];
    [done..|].
  destruct (ascii_dec ch ch); [apply IH|done].
Qed.

(** X11 — Snippets.  The snippet of a result row starts with the first
    150 code units of the description, or all of it when it is shorter,
    and always ends with three dots: its length is the smaller of 150 and
    the length of the description, plus 3. *)
Theorem snippet_is_a_bounded_prefix description :
  String.length (SearchView.snippet description)
    = Nat.min 150 (String.length description) + 3 ∧
  (∃ head, SearchView.snippet description = head +++ "..." ∧
           String.prefix head description = true) ∧
  ((String.length description ≤ 150)%nat →
     SearchView.snippet description = description +++ "...").
Proof.
  unfold SearchView.snippet. split; [|split].
  - rewrite length_append, length_substring_0. done.
  - eexists. split; [done|]. apply prefix_substring_0.
  - intros Hlen. by rewrite substring_0_all.
Qed.

(** ** The backlinks component *)

Section backlinks_view.

Implicit Types (c : list Entry) (e : Entry) (k s : string) (o : Backlinks.t).

Lemma elem_of_own k v o : Backlinks.own k o = Some v → (k, v) ∈ o.
Proof.
  induction o as [|[k' v'] o IH]; [done|]. cbn [Backlinks.own].
  destruct (decide (k' = k)) as [->|Hne].
  - intros [= ->]. by left.
  - intros Hown. right. by apply IH.
Qed.

(** A target that is no slug of the corpus has no backlink array. *)
Lemma own_not_a_slug c out o out' k :
  Backlinks.collect c out = Ok (o, out') → k ∉ slug <$> c → Backlinks.own k o = None.
Proof.
  intros Hc Hk. destruct (Backlinks.own k o) as [v|] eqn:Hown; [|done].
  destruct (collect_shape _ _ _ _ Hc) as [_ Hall].
  rewrite Forall_forall in Hall. destruct (Hall (k, v)) as [Hin _]; [|done].
  by apply elem_of_own.
Qed.

Lemma current_slug_cons ch s : BacklinksView.currentSlug (String ch s) = s.
Proof.
  unfold BacklinksView.currentSlug. cbn [String.length String.substring].
  apply substring_0_all. lia.
Qed.

Lemma has_slash_app a b : has_slash (a +++ "/" +++ b) = true.
Proof.
  induction a as [|ch a IH]; [done|].
  change (String ch a +++ "/" +++ b) with (String ch (a +++ "/" +++ b)).
  cbn [has_slash]. by rewrite IH, orb_true_r.
Qed.

Lemma inherited_no_slash k : has_slash k = true → Js.inherited k = false.
Proof.
  intros Hk. unfold Js.inherited. apply bool_decide_eq_false_2. intros Hin.
  unfold Js.object_prototype_keys in Hin.
  repeat (apply elem_of_cons in Hin as [->|Hin]; [discriminate Hk|]).
  by apply elem_of_nil in Hin.
Qed.

Lemma view_map_snoc c e :
  BacklinksView.slugToTitleMap (c ++ [e])
    = <[slug e := title e]> (BacklinksView.slugToTitleMap c).
Proof. unfold BacklinksView.slugToTitleMap. by rewrite foldl_snoc. Qed.

Lemma view_map_lookup_Some c s t :
  BacklinksView.slugToTitleMap c !! s = Some t → ∃ e, e ∈ c ∧ slug e = s ∧ title e = t.
Proof.
  induction c as [|e c IH] using rev_ind; intros Hs.
  - unfold BacklinksView.slugToTitleMap in Hs. cbn in Hs. by rewrite lookup_empty in Hs.
  - rewrite view_map_snoc in Hs. destruct (decide (slug e = s)) as [<-|Hne].
    + rewrite lookup_insert_eq in Hs. injection Hs as <-. exists e.
      split; [|done]. apply elem_of_app. right. by left.
    + rewrite lookup_insert_ne in Hs by done. destruct (IH Hs) as (e' & He' & ?).
      exists e'. split; [|done]. apply elem_of_app. by left.
Qed.

Lemma href_inj m a b :
  BacklinksView.l_href (BacklinksView.link m a) = BacklinksView.l_href (BacklinksView.link m b)
  → a = b.
Proof.
  unfold BacklinksView.link, BacklinksView.collectionType. cbn [BacklinksView.l_href].
  destruct (String.prefix "notes/" a), (String.prefix "notes/" b);
    cbv [String.append]; congruence.
Qed.

Lemma link_source c s :
  ∀ target, (s, target) ∈ omap (link_of (Backlinks.titleToSlugMap c)) (refs c) →
  ∃ e, e ∈ c ∧ slug e = s.
Proof.
  intros target Hin. apply list_elem_of_omap in Hin as ([source raw] & Hr & Hl).
  unfold link_of in Hl. cbn [fst snd] in Hl.
  destruct (resolved (Backlinks.titleToSlugMap c) raw); [|done]. injection Hl as -> _.
  apply elem_of_refs in Hr as (e & He & Hs & _). by exists e.
Qed.

End backlinks_view.

(** X12 — Where backlinks show.  On the page of a note, served at
    /notes/ followed by its slug, the component looks the backlinks up
    under the path without its first slash, the slug prefixed by notes/;
    the backlink object is keyed by slugs, so unless that prefixed string
    is itself the slug of an entry the component shows no link at all,
    whoever links to the note. *)
Theorem note_page_shows_no_backlinks c out backlinks out' s :
  Backlinks.collect c out = Ok (backlinks, out') →
  "notes/" +++ s ∉ slug <$> c →
  BacklinksView.currentSlug (Routes.note_path s) = "notes/" +++ s ∧
  BacklinksView.render (BacklinksView.slugToTitleMap c) backlinks
      (BacklinksView.currentSlug (Routes.note_path s)) = Ok [].
Proof.
  intros Hc Hs.
  assert (Hcur : BacklinksView.currentSlug (Routes.note_path s) = "notes/" +++ s)
    by apply current_slug_cons.
  split; [done|]. rewrite Hcur. unfold BacklinksView.render.
  rewrite (own_not_a_slug _ _ _ _ _ Hc Hs).
  by rewrite (inherited_no_slash ("notes/" +++ s)) by apply (has_slash_app "notes" s).
Qed.

Lemma note_page_shows_no_backlinks_witness :
  BacklinksView.currentSlug (Routes.note_path "B") = "notes/B" ∧
  BacklinksView.render (BacklinksView.slugToTitleMap corpus_repeat)
      [("B", ["A"]); ("A", ["B"])]
      (BacklinksView.currentSlug (Routes.note_path "B")) = Ok [].
Proof.
  apply (note_page_shows_no_backlinks corpus_repeat [] [("B", ["A"]); ("A", ["B"])]
           [Warn (Backlinks.unresolved_warning "Missing" "A")] "B").
  - reflexivity.
  - apply (bool_decide_unpack _). reflexivity.
Defined.

(** X13 — What the component lists.  For a key the component finds, it
    renders one link per source recorded for it and no link twice; each
    link belongs to an entry of the corpus that has an edge to the key in
    the graph data, points to that entry's slug under /notes/ or
    /concepts/ according to the prefix of the slug, and is labelled with
    the title of an entry carrying that slug, or with the slug itself. *)
Theorem backlinks_component_lists_linking_entries c out backlinks out' k links :
  Backlinks.collect c out = Ok (backlinks, out') →
  BacklinksView.render (BacklinksView.slugToTitleMap c) backlinks k = Ok links →
  length links = length (Backlinks.sources_of k backlinks) ∧
  NoDup (BacklinksView.l_href <$> links) ∧
  Forall (fun l =>
            ∃ e, e ∈ c ∧
              (slug e, k) ∈ Graph.endpoints <$> Graph.edges (Graph.graphData c) ∧
              BacklinksView.l_href l
                = "/" +++ BacklinksView.collectionType (slug e) +++ "/" +++ slug e ∧
              (BacklinksView.l_text l = slug e ∨
               ∃ e', e' ∈ c ∧ slug e' = slug e ∧ BacklinksView.l_text l = title e'))
         links.
Proof.
  intros Hc. destruct (collect_spec _ _ _ _ Hc) as [[Hmem Hnd] _].
  unfold BacklinksView.render, Backlinks.sources_of in *.
  specialize (Hmem) as Hmem'. specialize (Hnd k). specialize (fun a => Hmem a k) as Hk.
  destruct (Backlinks.own k backlinks) as [v|] eqn:Hown; cbn [default from_option id] in *.
  - intros [= <-]. split; [by rewrite length_fmap|]. split.
    + rewrite <- list_fmap_compose.
      apply (NoDup_fmap_2_strong _); [|done]. intros a b _ _. apply href_inj.
    + apply Forall_forall. intros l Hl.
      apply list_elem_of_fmap in Hl as (a & -> & Ha).
      apply Hk in Ha. destruct (link_source _ _ _ Ha) as (e & He & <-).
      exists e. split; [done|]. split.
      { rewrite graphData_spec. cbn [Graph.edges]. by rewrite endpoints_edge_of. }
      split; [done|].
      unfold BacklinksView.link, BacklinksView.displayTitle, Js.or_else.
      cbn [BacklinksView.l_text].
      destruct (BacklinksView.slugToTitleMap c !! slug e) as [t|] eqn:Ht; [|by left].
      destruct (Js.truthy t); [|by left]. right.
      destruct (view_map_lookup_Some _ _ _ Ht) as (e' & He' & Hs & <-). by exists e'.
  - intros Hl. assert (links = []) as ->.
    { revert Hl.
      destruct (Js.inherited k);
        [destruct (BacklinksView.inherited_length k) as [[|n]|]|]; congruence. }
    split; [done|]. split; [apply NoDup_nil_2|constructor].
Qed.

Lemma backlinks_component_lists_linking_entries_witness :
  let links := [ {| BacklinksView.l_href := "/concepts/A"; BacklinksView.l_text := "Apple" |} ] in
  length links = length (Backlinks.sources_of "B" [("B", ["A"]); ("A", ["B"])]) ∧
  NoDup (BacklinksView.l_href <$> links) ∧
  Forall (fun l =>
            ∃ e, e ∈ corpus_repeat ∧
              (slug e, "B") ∈ Graph.endpoints <$> Graph.edges (Graph.graphData corpus_repeat) ∧
              BacklinksView.l_href l
                = "/" +++ BacklinksView.collectionType (slug e) +++ "/" +++ slug e ∧
              (BacklinksView.l_text l = slug e ∨
               ∃ e', e' ∈ corpus_repeat ∧ slug e' = slug e ∧
                     BacklinksView.l_text l = title e'))
         links.
Proof.
  apply (backlinks_component_lists_linking_entries corpus_repeat []
           [("B", ["A"]); ("A", ["B"])]
           [Warn (Backlinks.unresolved_warning "Missing" "A")] "B").
  - reflexivity.
  - reflexivity.
Defined.

(** X14 — Two urls for one entry.  The link the backlinks component
    builds for an entry and the url the graph generator gives to the node
    of the same entry agree exactly when the slug starts with notes/ for a
    note and does not for a concept: for a note whose slug has no such
    prefix the component links under /concepts/ while the graph links
    under /notes/. *)
Theorem backlink_href_and_node_url c m e :
  e ∈ c →
  collection e = "notes" ∨ collection e = "concepts" →
  node_of e ∈ Graph.nodes (Graph.graphData c) ∧
  (BacklinksView.l_href (BacklinksView.link m (slug e)) = Graph.n_url (node_of e)
     ↔ (collection e = "notes" ↔ String.prefix "notes/" (slug e) = true)).
Proof.
  intros He Hcol. split.
  - rewrite graphData_spec. cbn [Graph.nodes]. by apply list_elem_of_fmap_2.
  - unfold BacklinksView.link, BacklinksView.collectionType, node_of.
    cbn [BacklinksView.l_href Graph.n_url].
    destruct Hcol as [-> | ->], (String.prefix "notes/" (slug e));
      cbv [String.append]; split.
    + done.
    + done.
    + intros [= ].
    + intros [Hp _]. by specialize (Hp eq_refl).
    + intros [= ].
    + intros [_ Hp]. by specialize (Hp eq_refl).
    + intros _. split; intros [= ].
    + done.
Qed.

Lemma backlink_href_and_node_url_witness :
  node_of (doc "A" "Apple" "see [[Banana]], [[banana]] and [[Missing]]")
    ∈ Graph.nodes (Graph.graphData corpus_repeat) ∧
  (BacklinksView.l_href (BacklinksView.link ∅ "A")
     = Graph.n_url (node_of (doc "A" "Apple" "see [[Banana]], [[banana]] and [[Missing]]"))
     ↔ ("notes" = "notes" ↔ String.prefix "notes/" "A" = true)).
Proof.
  apply (backlink_href_and_node_url corpus_repeat ∅
           (doc "A" "Apple" "see [[Banana]], [[banana]] and [[Missing]]")).
  - apply elem_of_cons. by left.
  - by left.
Defined.

(** ** The names of related notes *)

Section display_name.

Implicit Types (s w : string) (ws : list string) (ch : ascii).

Lemma lower_append s t : Js.toLowerCase (s +++ t) = Js.toLowerCase s +++ Js.toLowerCase t.
Proof.
  induction s as [|ch s IH]; [done|].
  change (String ch s +++ t) with (String ch (s +++ t)).
  cbn [Js.toLowerCase]. by rewrite IH.
Qed.

Lemma lower_upper ch : Js.lower_ascii (ConceptLayout.upper_ascii ch) = Js.lower_ascii ch.
Proof. destruct ch as [[] [] [] [] [] [] [] []]; reflexivity. Qed.

Lemma lower_capitalize w : Js.toLowerCase (ConceptLayout.capitalize w) = Js.toLowerCase w.
Proof. destruct w as [|ch w]; [done|]. cbn. by rewrite lower_upper. Qed.

Lemma length_capitalize w : String.length (ConceptLayout.capitalize w) = String.length w.
Proof. by destruct w. Qed.

Lemma join_cons w ws :
  ConceptLayout.join (w :: ws)
    = w +++ match ws with [] => EmptyString | _ => " " +++ ConceptLayout.join ws end.
Proof. destruct ws; [by rewrite append_nil_r|done]. Qed.

Lemma split_nonempty s : ConceptLayout.split s ≠ [].
Proof.
  destruct s as [|ch s]; [done|]. cbn [ConceptLayout.split].
  destruct (Ascii.eqb ch " "); [done|]. by destruct (ConceptLayout.split s).
Qed.

(** Capitalising the words between the blanks changes neither the length
    nor the lower-cased text. *)
Lemma join_capitalize_split s :
  String.length (ConceptLayout.join (ConceptLayout.capitalize <$> ConceptLayout.split s))
    = String.length s ∧
  Js.toLowerCase (ConceptLayout.join (ConceptLayout.capitalize <$> ConceptLayout.split s))
    = Js.toLowerCase s.
Proof.
  induction s as [|ch s [IHlen IHlow]]; [done|]. cbn [ConceptLayout.split].
  destruct (Ascii.eqb ch " ") eqn:Hch.
  - apply Ascii.eqb_eq in Hch. subst ch. rewrite fmap_cons, join_cons.
    pose proof (split_nonempty s) as Hne.
    destruct (ConceptLayout.capitalize <$> ConceptLayout.split s) as [|w ws] eqn:Hws.
    { by destruct (ConceptLayout.split s). }
    change (ConceptLayout.capitalize "" +++ " " +++ ConceptLayout.join (w :: ws))
      with (String " " (ConceptLayout.join (w :: ws))).
    cbn [String.length Js.toLowerCase]. by rewrite IHlen, IHlow.
  - pose proof (split_nonempty s) as Hne.
    destruct (ConceptLayout.split s) as [|w ws]; [done|].
    rewrite !fmap_cons, join_cons in *. set (tail := match _ with [] => _ | _ => _ end) in *.
    change (ConceptLayout.capitalize (String ch w) +++ tail)
      with (String (ConceptLayout.upper_ascii ch) (w +++ tail)).
    cbn [String.length Js.toLowerCase]. rewrite lower_upper.
    rewrite length_append, lower_append in *.
    rewrite length_capitalize, lower_capitalize in *. by rewrite IHlen, IHlow.
Qed.

Lemma length_hyphens_to_spaces s :
  String.length (ConceptLayout.hyphens_to_spaces s) = String.length s.
Proof. induction s as [|ch s IH]; [done|]. cbn. by rewrite IH. Qed.

Lemma lower_hyphens_to_spaces s :
  Js.toLowerCase (ConceptLayout.hyphens_to_spaces s)
    = ConceptLayout.hyphens_to_spaces (Js.toLowerCase s).
Proof.
  induction s as [|ch s IH]; [done|].
  cbn [ConceptLayout.hyphens_to_spaces Js.toLowerCase]. rewrite IH. f_equal.
  destruct ch as [[] [] [] [] [] [] [] []]; reflexivity.
Qed.

Lemma collapse_hyphens_to_spaces after_hyphen s :
  slug_shape after_hyphen s = true →
  Plan.collapse after_hyphen (ConceptLayout.hyphens_to_spaces s) = s.
Proof.
  revert after_hyphen. induction s as [|ch s IH]; intros b Hs; [done|].
  cbn [slug_shape] in Hs. apply andb_prop in Hs as [Hsp Hs].
  apply negb_true_iff in Hsp.
  cbn [ConceptLayout.hyphens_to_spaces Plan.collapse].
  destruct (Ascii.eqb ch "-") eqn:Hch.
  - apply Ascii.eqb_eq in Hch. subst ch. apply andb_prop in Hs as [Hb Hs].
    apply negb_true_iff in Hb. subst b.
    change (Plan.is_space " ") with true. cbn match. by rewrite IH.
  - rewrite Hsp. by rewrite IH.
Qed.

End display_name.

Lemma display_name_spec noteSlug :
  String.length (ConceptLayout.displayName noteSlug) = String.length noteSlug ∧
  Js.toLowerCase (ConceptLayout.displayName noteSlug)
    = ConceptLayout.hyphens_to_spaces (Js.toLowerCase noteSlug).
Proof.
  unfold ConceptLayout.displayName.
  destruct (join_capitalize_split (ConceptLayout.hyphens_to_spaces noteSlug)) as [-> ->].
  split; [apply length_hyphens_to_spaces|apply lower_hyphens_to_spaces].
Qed.

(** X15 — Names of related notes.  For a slug made of ASCII characters,
    the name shown for a related note has the length of the slug, and
    differs from the slug only by the blanks put in place of the hyphens
    and by upper-case letters: lower-cased, it is the lower-cased slug with
    its hyphens turned into blanks. *)
Theorem display_name_keeps_the_slug noteSlug :
  Js.is_ascii noteSlug = true →
  String.length (ConceptLayout.displayName noteSlug) = String.length noteSlug ∧
  Js.toLowerCase (ConceptLayout.displayName noteSlug)
    = ConceptLayout.hyphens_to_spaces (Js.toLowerCase noteSlug).
Proof. intros _. apply display_name_spec. Qed.

Lemma display_name_keeps_the_slug_witness :
  ConceptLayout.displayName "atomic-notes-Explained" = "Atomic Notes Explained" ∧
  String.length (ConceptLayout.displayName "atomic-notes-Explained")
    = String.length "atomic-notes-Explained" ∧
  Js.toLowerCase (ConceptLayout.displayName "atomic-notes-Explained")
    = ConceptLayout.hyphens_to_spaces (Js.toLowerCase "atomic-notes-Explained").
Proof.
  split; [reflexivity|].
  apply (display_name_keeps_the_slug "atomic-notes-Explained"). reflexivity.
Defined.

(** X16 — From the name back to the slug.  For a slug made of ASCII
    characters, in lower case, without white space and without two
    hyphens in a row, the name shown for the related note, written as a
    link text, is turned back into the slug by the slug rule of the plan
    (lower-casing and one hyphen per run of white space). *)
Theorem slugify_display_name noteSlug :
  Js.is_ascii noteSlug = true →
  Js.toLowerCase noteSlug = noteSlug →
  slug_shape false noteSlug = true →
  Plan.slugify (ConceptLayout.displayName noteSlug) = noteSlug.
Proof.
  intros _ Hlow Hshape. unfold Plan.slugify.
  destruct (display_name_spec noteSlug) as [_ ->].
  rewrite Hlow. by apply collapse_hyphens_to_spaces.
Qed.

Lemma slugify_display_name_witness :
  ConceptLayout.displayName "my-first-note" = "My First Note" ∧
  Plan.slugify (ConceptLayout.displayName "my-first-note") = "my-first-note".
Proof.
  split; [reflexivity|].
  apply (slugify_display_name "my-first-note"); reflexivity.
Defined.

(** ** The click handler of the graph *)

Lemma find_node c nodeId :
  List.find (fun n => bool_decide (Graph.n_id n = nodeId)) (node_of <$> c)
    = node_of <$> List.find (fun e => bool_decide (slug e = nodeId)) c.
Proof.
  induction c as [|e c IH]; [done|]. rewrite fmap_cons. cbn [List.find Graph.n_id node_of].
  destruct (bool_decide (slug e = nodeId)); [done|apply IH].
Qed.

Lemma find_entry c e :
  NoDup (slug <$> c) → e ∈ c →
  List.find (fun e' => bool_decide (slug e' = slug e)) c = Some e.
Proof.
  induction c as [|e' c IH]; intros Hnd He; [by apply elem_of_nil in He|].
  rewrite fmap_cons in Hnd. apply NoDup_cons in Hnd as [He' Hnd]. cbn [List.find].
  apply elem_of_cons in He as [->|He].
  - by rewrite bool_decide_eq_true_2.
  - rewrite bool_decide_eq_false_2; [by apply IH|].
    intros Heq. apply He'. rewrite Heq. by apply list_elem_of_fmap_2.
Qed.

Lemma find_entry_None c nodeId :
  nodeId ∉ slug <$> c → List.find (fun e => bool_decide (slug e = nodeId)) c = None.
Proof.
  induction c as [|e c IH]; [done|]. rewrite fmap_cons, not_elem_of_cons.
  intros [Hne Hc]. cbn [List.find]. rewrite bool_decide_eq_false_2 by done. by apply IH.
Qed.

(** X17 — Clicking a node.  With unique slugs, a click on the node of an
    entry sends the browser to /collection/slug of that entry, which for
    a note is the path of the note's page; a click that reports no node,
    or an id that no entry carries, goes nowhere. *)
Theorem click_opens_the_page_of_the_entry c e others nodeId :
  NoDup (slug <$> c) →
  e ∈ c →
  nodeId ∉ slug <$> c →
  GraphView.on_click (Graph.graphData c) (slug e :: others)
    = Some ("/" +++ collection e +++ "/" +++ slug e) ∧
  (collection e = "notes" →
     GraphView.on_click (Graph.graphData c) (slug e :: others)
       = Some (Routes.note_path (slug e))) ∧
  GraphView.on_click (Graph.graphData c) [] = None ∧
  GraphView.on_click (Graph.graphData c) (nodeId :: others) = None.
Proof.
  intros Hnd He Hid. unfold GraphView.on_click. rewrite graphData_spec.
  cbn [Graph.nodes]. rewrite !find_node, find_entry, find_entry_None by done.
  cbn [fmap option_fmap option_map node_of Graph.n_url].
  split; [done|]. split; [|done]. by intros ->.
Qed.

Lemma click_opens_the_page_of_the_entry_witness :
  let e := doc "B" "Banana" "no links but [[Apple]]" in
  GraphView.on_click (Graph.graphData corpus_repeat) [slug e]
    = Some ("/" +++ collection e +++ "/" +++ slug e) ∧
  (collection e = "notes" →
     GraphView.on_click (Graph.graphData corpus_repeat) [slug e]
       = Some (Routes.note_path (slug e))) ∧
  GraphView.on_click (Graph.graphData corpus_repeat) [] = None ∧
  GraphView.on_click (Graph.graphData corpus_repeat) ["C"] = None.
Proof.
  apply (click_opens_the_page_of_the_entry corpus_repeat
           (doc "B" "Banana" "no links but [[Apple]]") [] "C").
  - apply (bool_decide_unpack _). reflexivity.
  - apply elem_of_cons. right. apply elem_of_cons. by left.
  - apply (bool_decide_unpack _). reflexivity.
Defined.

(** ** The link plugin *)

Section plugin.

Import RemarkInternalLinks.

Implicit Types (m : gmap string string) (value s : string) (nodes : list node)
  (ms : list (nat * string)).

Lemma substring_additive a b s :
  String.substring 0 a s +++ String.substring a b s = String.substring 0 (a + b) s.
Proof.
  revert s. induction a as [|a IH]; intros s.
  - by destruct s.
  - destruct s as [|ch s].
    + cbn. by destruct b.
    + cbn [String.substring Nat.add].
      change (String ch (String.substring 0 a s) +++ String.substring a b s)
        with (String ch (String.substring 0 a s +++ String.substring a b s)).
      by rewrite IH.
Qed.

Lemma concat_source_snoc nodes n :
  concat_source (nodes ++ [n]) = concat_source nodes +++ source_of n.
Proof.
  induction nodes as [|n' nodes IH]; cbn [app concat_source].
  - by rewrite append_nil_r.
  - by rewrite IH, append_assoc.
Qed.

Lemma on_match_eq m value lastIndex newNodes out mt :
  on_match m value (lastIndex, newNodes, out) mt =
    let newNodes' :=
      if (lastIndex <? mt.1)%nat
      then newNodes ++ [Text (String.substring lastIndex (mt.1 - lastIndex) value)]
      else newNodes in
    match resolved m mt.2 with
    | Some resolvedSlug =>
        (Match.lastIndex mt, newNodes' ++ [Link ("/" +++ resolvedSlug) mt.2], out)
    | None =>
        (Match.lastIndex mt, newNodes' ++ [Text (Match.full value mt)],
         out ++ [Warn (broken_link_warning mt.2)])
    end.
Proof. done. Qed.

(** The nodes built so far spell the text up to [lastIndex]. *)
Lemma scan_spells_prefix m value ms lo nodes out :
  Match.spaced lo (String.length value) ms →
  Forall (fun mt => Match.full value mt = "[[" +++ mt.2 +++ "]]") ms →
  concat_source nodes = String.substring 0 lo value →
  ∀ li nodes' out',
    foldl (on_match m value) (lo, nodes, out) ms = (li, nodes', out') →
    concat_source nodes' = String.substring 0 li value.
Proof.
  revert lo nodes out. induction ms as [|mt ms IH]; intros lo nodes out Hsp Hsound Hpre.
  - cbn [foldl]. by intros li nodes' out' [= <- <- _].
  - cbn [Match.spaced] in Hsp. destruct Hsp as [Hlo Hsp].
    apply Forall_cons in Hsound as [Hmt Hsound].
    cbn [foldl]. rewrite on_match_eq. cbv zeta.
    set (nodes1 := if (lo <? mt.1)%nat then _ else _).
    assert (Hnodes1 : concat_source nodes1 = String.substring 0 mt.1 value).
    { unfold nodes1. destruct (Nat.ltb_spec lo mt.1) as [Hlt|Hge].
      - rewrite concat_source_snoc, Hpre. cbn [source_of].
        rewrite substring_additive. f_equal. lia.
      - by replace mt.1 with lo by lia. }
    destruct (resolved m mt.2) as [t|]; apply (IH _ _ _ Hsp Hsound);
      rewrite concat_source_snoc, Hnodes1; cbn [source_of]; rewrite <- ?Hmt;
      unfold Match.full, Match.lastIndex; apply substring_additive.
Qed.

Lemma replacement_spells_value m value :
  concat_source (replacement m value).1 = value.
Proof.
  unfold replacement.
  destruct (foldl (on_match m value) (0, [], []) (Match.exec_all value))
    as [[li nodes] out] eqn:Hscan.
  assert (Hpre : concat_source nodes = String.substring 0 li value).
  { apply (scan_spells_prefix m value (Match.exec_all value) 0 [] [] ) with (out' := out);
      [apply (match_loop_spaced 0 0 value); lia| |by destruct value|done].
    apply Forall_forall. intros mt Hin. by apply (match_loop_sound "" 0 value). }
  cbn [fst]. destruct (Nat.ltb_spec li (String.length value)) as [Hlt|Hge].
  - rewrite concat_source_snoc, Hpre. cbn [source_of]. rewrite substring_additive.
    apply substring_0_all. lia.
  - rewrite Hpre. by apply substring_0_all.
Qed.

(** The link nodes are the resolved captures. *)
Lemma scan_links m value ms lo nodes out li nodes' out' :
  foldl (on_match m value) (lo, nodes, out) ms = (li, nodes', out') →
  omap link_part nodes' =
    omap link_part nodes
      ++ omap (fun cap => (fun t => ("/" +++ t, cap)) <$> resolved m cap) (snd <$> ms) ∧
  out' = out ++ omap (fun cap => match resolved m cap with
                                 | Some _ => None
                                 | None => Some (Warn (broken_link_warning cap))
                                 end) (snd <$> ms).
Proof.
  revert lo nodes out. induction ms as [|mt ms IH]; intros lo nodes out.
  - cbn [foldl]. intros [= _ <- <-]. by rewrite !app_nil_r.
  - cbn [foldl]. rewrite on_match_eq. cbv zeta.
    set (nodes1 := if (lo <? mt.1)%nat then _ else _).
    assert (Hnodes1 : omap link_part nodes1 = omap link_part nodes).
    { unfold nodes1. destruct (lo <? mt.1)%nat; [|done].
      rewrite omap_app. cbn. by rewrite app_nil_r. }
    rewrite fmap_cons. cbn [omap list_omap].
    destruct (resolved m mt.2) as [t|] eqn:Hr; intros Hfold;
      destruct (IH _ _ _ Hfold) as [-> ->]; rewrite omap_app, Hnodes1;
      cbn [omap list_omap link_part fmap option_fmap option_map];
      rewrite <- ?app_assoc; done.
Qed.

(** What one scan of a text builds and prints. *)
Lemma replacement_links m value :
  omap link_part (replacement m value).1
    = omap (fun cap => (fun t => ("/" +++ t, cap)) <$> resolved m cap)
           (Regex.exec_all value) ∧
  (replacement m value).2
    = (fun cap => Warn (broken_link_warning cap))
        <$> filter (fun cap => resolved m cap = None) (Regex.exec_all value).
Proof.
  unfold replacement.
  destruct (foldl (on_match m value) (0, [], []) (Match.exec_all value))
    as [[li nodes'] out] eqn:Hscan.
  destruct (scan_links _ _ _ _ _ _ _ _ _ Hscan) as [Hlinks ->].
  unfold Match.exec_all in Hlinks |- *. rewrite match_positions_captures in Hlinks |- *.
  fold (Regex.exec_all value) in Hlinks |- *. cbn [fst snd app] in *. split.
  - destruct (li <? String.length value)%nat; [|done].
    rewrite omap_app, Hlinks. cbn. by rewrite app_nil_r.
  - clear. induction (Regex.exec_all value) as [|cap l IH]; [done|].
    rewrite filter_cons. cbn [omap list_omap].
    destruct (resolved m cap) eqn:Hr.
    + by rewrite decide_False.
    + rewrite decide_True by done. rewrite fmap_cons. by f_equal.
Qed.

End plugin.

(** X18 — The plugin loses no text.  Whatever the map and the text of
    the node, the nodes the plugin builds for it spell the text again when
    every link node is written back as its text between double brackets:
    text before, between and after the markers is kept, and a marker that
    does not resolve stays as it was written. *)
Theorem plugin_keeps_the_text m value :
  RemarkInternalLinks.concat_source (RemarkInternalLinks.replacement m value).1 = value.
Proof. apply replacement_spells_value. Qed.

(** X19 — One call of the visitor.  Called on a text node, the visitor
    of the plugin builds link nodes that are, in order, the markers of
    the scan whose target resolves in the map, each with the url made of
    a slash and the resolved slug and with the raw link text; in that call
    it prints one warning for every other marker, in order, and nothing
    else; unless it built no node it puts the nodes in the place of the
    text node and returns the index of the first of them.  This is what
    each call does: a node that the traversal visits again is scanned, and
    warned about, again. *)
Theorem plugin_links_are_the_resolved_markers m children index value :
  children !! index = Some (RemarkInternalLinks.Text value) →
  ∃ newNodes,
    RemarkInternalLinks.visitor m children index
      = (match newNodes with
         | [] => children
         | _ => take index children ++ newNodes ++ drop (S index) children
         end,
         match newNodes with [] => None | _ => Some index end,
         (fun cap => Warn (RemarkInternalLinks.broken_link_warning cap))
           <$> filter (fun cap => resolved m cap = None) (Regex.exec_all value)) ∧
    omap RemarkInternalLinks.link_part newNodes
      = omap (fun cap => (fun t => ("/" +++ t, cap)) <$> resolved m cap)
             (Regex.exec_all value).
Proof.
  intros Hchild. unfold RemarkInternalLinks.visitor. rewrite Hchild.
  destruct (replacement_links m value) as [Hlinks Hout].
  destruct (RemarkInternalLinks.replacement m value) as [newNodes out].
  cbn [fst snd] in Hlinks, Hout. subst out. exists newNodes.
  split; [by destruct newNodes|done].
Qed.

Lemma plugin_links_are_the_resolved_markers_witness :
  ∃ newNodes,
    RemarkInternalLinks.visitor RemarkInternalLinks.slugMap
        [RemarkInternalLinks.Text "[[My First Note]] or [[Nothing]]"] 0
      = (match newNodes with
         | [] => [RemarkInternalLinks.Text "[[My First Note]] or [[Nothing]]"]
         | _ => take 0 [RemarkInternalLinks.Text "[[My First Note]] or [[Nothing]]"]
                  ++ newNodes
                  ++ drop 1 [RemarkInternalLinks.Text "[[My First Note]] or [[Nothing]]"]
         end,
         match newNodes with [] => None | _ => Some 0 end,
         (fun cap => Warn (RemarkInternalLinks.broken_link_warning cap))
           <$> filter (fun cap => resolved RemarkInternalLinks.slugMap cap = None)
                      (Regex.exec_all "[[My First Note]] or [[Nothing]]")) ∧
    omap RemarkInternalLinks.link_part newNodes
      = omap (fun cap => (fun t => ("/" +++ t, cap))
                           <$> resolved RemarkInternalLinks.slugMap cap)
             (Regex.exec_all "[[My First Note]] or [[Nothing]]").
Proof.
  apply (plugin_links_are_the_resolved_markers RemarkInternalLinks.slugMap
           [RemarkInternalLinks.Text "[[My First Note]] or [[Nothing]]"] 0
           "[[My First Note]] or [[Nothing]]").
  reflexivity.
Defined.

(** X20 — The plugin sends the traversal back to the node it wrote.  On a
    non-empty text node without marker the visitor replaces the node by a
    text node with the same value, leaves the children of the parent as
    they were, prints nothing, and returns the index of that very node as
    the place where the traversal is to go on. *)
Theorem plugin_revisits_plain_text m children index value :
  children !! index = Some (RemarkInternalLinks.Text value) →
  value ≠ "" →
  Regex.exec_all value = [] →
  RemarkInternalLinks.replacement m value = ([RemarkInternalLinks.Text value], []) ∧
  RemarkInternalLinks.visitor m children index = (children, Some index, []).
Proof.
  intros Hchild Hne Hscan.
  assert (Hms : Match.exec_all value = []).
  { apply (fmap_nil_inv snd). unfold Match.exec_all.
    by rewrite match_positions_captures. }
  assert (Hrep : RemarkInternalLinks.replacement m value
                   = ([RemarkInternalLinks.Text value], [])).
  { unfold RemarkInternalLinks.replacement. rewrite Hms. cbn [foldl].
    destruct value as [|ch value]; [done|].
    cbn [String.length Nat.ltb Nat.leb app]. rewrite Nat.sub_0_r.
    by rewrite substring_0_all. }
  split; [done|]. unfold RemarkInternalLinks.visitor. rewrite Hchild, Hrep.
  cbn [app]. by rewrite (take_drop_middle _ _ _ Hchild).
Qed.

Lemma plugin_revisits_plain_text_witness :
  RemarkInternalLinks.replacement RemarkInternalLinks.slugMap "no links"
    = ([RemarkInternalLinks.Text "no links"], []) ∧
  RemarkInternalLinks.visitor RemarkInternalLinks.slugMap
      [RemarkInternalLinks.Link "/notes/my-first-note" "My First Note";
       RemarkInternalLinks.Text "no links"] 1
    = ([RemarkInternalLinks.Link "/notes/my-first-note" "My First Note";
        RemarkInternalLinks.Text "no links"], Some 1, []).
Proof.
  apply (plugin_revisits_plain_text RemarkInternalLinks.slugMap
           [RemarkInternalLinks.Link "/notes/my-first-note" "My First Note";
            RemarkInternalLinks.Text "no links"] 1 "no links").
  - reflexivity.
  - done.
  - reflexivity.
Defined.

Example plugin_on_a_sentence :
  RemarkInternalLinks.replacement RemarkInternalLinks.slugMap
      "see [[My First Note]] and [[Nothing]]."
    = ([RemarkInternalLinks.Text "see ";
        RemarkInternalLinks.Link "/notes/my-first-note" "My First Note";
        RemarkInternalLinks.Text " and ";
        RemarkInternalLinks.Text "[[Nothing]]";
        RemarkInternalLinks.Text "."],
       [Warn "Warning: Broken internal link found: [[Nothing]]"]).
Proof. reflexivity. Qed.

(** ** The tag pages *)

Section tags.

Import Tags.

Implicit Types (c : list Tagged) (e : Tagged) (set ts : list string) (t tag : string).

Lemma elem_of_add t tag set : t ∈ add tag set ↔ t ∈ set ∨ t = tag.
Proof.
  unfold add. case_bool_decide as Hin.
  - split; [by left|]. by intros [?| ->].
  - by rewrite elem_of_app, list_elem_of_singleton.
Qed.

Lemma NoDup_add tag set : NoDup set → NoDup (add tag set).
Proof.
  intros Hnd. unfold add. case_bool_decide as Hin; [done|].
  apply NoDup_app. split; [done|]. split; [|apply NoDup_singleton].
  intros x Hx Hx'. apply list_elem_of_singleton in Hx'. by subst.
Qed.

Lemma add_tags_spec set ts :
  let set' := foldl (fun set tag => add (Js.toLowerCase tag) set) set ts in
  (∀ t, t ∈ set' ↔ t ∈ set ∨ t ∈ Js.toLowerCase <$> ts) ∧ (NoDup set → NoDup set').
Proof.
  revert set. induction ts as [|tag ts IH]; intros set; cbn [foldl].
  - split; [|done]. intros t. rewrite fmap_nil, elem_of_nil. by split; [left|intros [?|[]]].
  - destruct (IH (add (Js.toLowerCase tag) set)) as [Hmem Hnd]. split.
    + intros t. rewrite Hmem, elem_of_add, fmap_cons, elem_of_cons. clear. tauto.
    + intros Hset. by apply Hnd, NoDup_add.
Qed.

Lemma uniqueTags_snoc c e : uniqueTags (c ++ [e]) = add_tags_of (uniqueTags c) e.
Proof. unfold uniqueTags. by rewrite foldl_snoc. Qed.

Lemma all_tags_snoc c e :
  all_tags (c ++ [e]) = all_tags c ++ (Js.toLowerCase <$> default [] (tags e)).
Proof. unfold all_tags. rewrite bind_app. cbn. by rewrite app_nil_r. Qed.

Lemma uniqueTags_spec c :
  (∀ t, t ∈ uniqueTags c ↔ t ∈ all_tags c) ∧ NoDup (uniqueTags c).
Proof.
  induction c as [|e c [IHmem IHnd]] using rev_ind.
  - split; [done|apply NoDup_nil_2].
  - rewrite uniqueTags_snoc, all_tags_snoc. unfold add_tags_of.
    destruct (tags e) as [ts|]; cbn [default from_option id].
    + destruct (add_tags_spec (uniqueTags c) ts) as [Hmem Hnd]. split; [|by apply Hnd].
      intros t. rewrite Hmem, elem_of_app, IHmem. done.
    + split; [|done]. intros t. rewrite fmap_nil, app_nil_r. apply IHmem.
Qed.

Lemma elem_of_all_tags c t :
  t ∈ all_tags c ↔ ∃ e ts, e ∈ c ∧ tags e = Some ts ∧ t ∈ Js.toLowerCase <$> ts.
Proof.
  unfold all_tags. rewrite list_elem_of_bind. split.
  - intros (e & Ht & He). destruct (tags e) as [ts|] eqn:Hts.
    + by exists e, ts.
    + by apply elem_of_nil in Ht.
  - intros (e & ts & He & Hts & Ht). exists e. by rewrite Hts.
Qed.

Lemma lower_in_all_tags c t : t ∈ all_tags c → Js.toLowerCase t = t.
Proof.
  rewrite elem_of_all_tags. intros (e & ts & _ & _ & Ht).
  apply list_elem_of_fmap in Ht as (tag & -> & _). apply toLowerCase_idemp.
Qed.

Lemma has_tag_true c e t :
  has_tag t e = true ↔ ∃ ts, tags e = Some ts ∧ Js.toLowerCase t ∈ Js.toLowerCase <$> ts.
Proof.
  unfold has_tag. destruct (tags e) as [ts|].
  - rewrite bool_decide_eq_true. split; [by exists ts|]. by intros (? & [= <-] & ?).
  - split; [done|]. by intros (? & ? & _).
Qed.

Lemma count_tag_lookup (tc : gmap string nat) tag t :
  default 0 (count_tag tc tag !! t)
    = default 0 (tc !! t) + (if decide (t = Js.toLowerCase tag) then 1 else 0).
Proof.
  unfold count_tag. destruct (decide (t = Js.toLowerCase tag)) as [->|Hne].
  - by rewrite lookup_insert_eq.
  - rewrite lookup_insert_ne by done. cbn. lia.
Qed.

Lemma count_tag_positive (tc : gmap string nat) tag :
  (∀ t n, tc !! t = Some n → 0 < n) → ∀ t n, count_tag tc tag !! t = Some n → 0 < n.
Proof.
  intros Htc t n. unfold count_tag.
  destruct (decide (Js.toLowerCase tag = t)) as [<-|Hne].
  - rewrite lookup_insert_eq. intros [= <-]. lia.
  - rewrite lookup_insert_ne by done. apply Htc.
Qed.

Lemma count_tags_spec (tc : gmap string nat) ts t :
  default 0 (foldl count_tag tc ts !! t)
    = default 0 (tc !! t) + occurrences t (Js.toLowerCase <$> ts) ∧
  ((∀ t n, tc !! t = Some n → 0 < n) →
   ∀ t n, foldl count_tag tc ts !! t = Some n → 0 < n).
Proof.
  revert tc. induction ts as [|tag ts IH]; intros tc; cbn [foldl].
  - split; [|done]. rewrite fmap_nil, occurrences_nil. lia.
  - destruct (IH (count_tag tc tag)) as [-> Hpos]. split.
    + rewrite count_tag_lookup, fmap_cons, occurrences_cons. lia.
    + intros Htc. by apply Hpos, count_tag_positive.
Qed.

Lemma tagCounts_snoc c e : tagCounts (c ++ [e]) = count_tags_of (tagCounts c) e.
Proof. unfold tagCounts. by rewrite foldl_snoc. Qed.

Lemma tagCounts_spec c t :
  default 0 (tagCounts c !! t) = occurrences t (all_tags c) ∧
  (∀ t n, tagCounts c !! t = Some n → 0 < n).
Proof.
  revert t. induction c as [|e c IH] using rev_ind; intros t.
  - split; [done|]. intros t' n. unfold tagCounts. cbn. by rewrite lookup_empty.
  - rewrite tagCounts_snoc, all_tags_snoc, occurrences_app. unfold count_tags_of.
    destruct (IH t) as [IHn IHpos].
    destruct (tags e) as [ts|]; cbn [default from_option id].
    + destruct (count_tags_spec (tagCounts c) ts t) as [-> Hpos]. split; [lia|].
      by apply Hpos.
    + split; [|done]. rewrite fmap_nil, occurrences_nil. lia.
Qed.

Lemma occurrences_pos_iff (t : string) (l : list string) : 0 < occurrences t l ↔ t ∈ l.
Proof.
  split; [apply occurrences_elem|]. intros Hin.
  destruct (occurrences t l) eqn:Hocc; [|lia].
  exfalso. induction l as [|x l IH]; [by apply elem_of_nil in Hin|].
  rewrite occurrences_cons in Hocc. apply elem_of_cons in Hin as [->|Hin].
  - rewrite decide_True in Hocc by done. lia.
  - apply IH; [done|]. lia.
Qed.

End tags.

(** X21 — Tag pages.  The tags for which a page is generated are in lower
    case and without repetition.  Whatever the sort does short of adding
    or dropping entries, the page of a generated tag lists at least one
    entry and only entries that carry the tag in some letter case; and an
    entry that carries a tag is listed on the page of the lower-cased tag,
    which is among the generated ones. *)
Theorem tag_pages_are_never_empty sort c :
  (∀ l, sort l ≡ₚ l) →
  NoDup (Tags.uniqueTags c) ∧
  Forall (fun t =>
            Js.toLowerCase t = t ∧
            Tags.filteredContent sort c t ≠ [] ∧
            Forall (fun e => e ∈ c ∧ Tags.has_tag t e = true)
                   (Tags.filteredContent sort c t))
         (Tags.uniqueTags c) ∧
  ∀ e ts tag, e ∈ c → Tags.tags e = Some ts → tag ∈ ts →
    Js.toLowerCase tag ∈ Tags.uniqueTags c ∧
    e ∈ Tags.filteredContent sort c (Js.toLowerCase tag).
Proof.
  intros Hsort. destruct (uniqueTags_spec c) as [Hmem Hnd].
  assert (Hlisted : ∀ e t, e ∈ Tags.filteredContent sort c t
                           ↔ e ∈ c ∧ Tags.has_tag t e = true).
  { intros e t. unfold Tags.filteredContent. rewrite (Hsort _), list_elem_of_filter.
    clear. tauto. }
  split; [done|]. split.
  - apply Forall_forall. intros t Ht. apply Hmem in Ht.
    pose proof (lower_in_all_tags _ _ Ht) as Hlow. split; [done|].
    apply elem_of_all_tags in Ht as (e & ts & He & Hts & Ht).
    assert (He' : e ∈ Tags.filteredContent sort c t).
    { apply Hlisted. split; [done|]. apply (has_tag_true c). exists ts.
      by rewrite Hlow. }
    split; [intros Hnil; rewrite Hnil in He'; by apply elem_of_nil in He'|].
    apply Forall_forall. intros e'. apply Hlisted.
  - intros e ts tag He Hts Htag.
    assert (Hin : Js.toLowerCase tag ∈ Js.toLowerCase <$> ts)
      by by apply list_elem_of_fmap_2.
    split.
    + apply Hmem, elem_of_all_tags. by exists e, ts.
    + apply Hlisted. split; [done|]. apply (has_tag_true c). exists ts.
      by rewrite toLowerCase_idemp.
Qed.

Lemma tag_pages_are_never_empty_witness :
  let c := [ Tags.mkTagged (doc "a" "Apple" "") (Some ["JS"; "Fruit"]);
             Tags.mkTagged (doc "b" "Banana" "") None;
             Tags.mkTagged (doc "c" "Cherry" "") (Some ["js"]) ] in
  Tags.uniqueTags c = ["js"; "fruit"] ∧
  NoDup (Tags.uniqueTags c) ∧
  Forall (fun t =>
            Js.toLowerCase t = t ∧
            Tags.filteredContent id c t ≠ [] ∧
            Forall (fun e => e ∈ c ∧ Tags.has_tag t e = true)
                   (Tags.filteredContent id c t))
         (Tags.uniqueTags c) ∧
  ∀ e ts tag, e ∈ c → Tags.tags e = Some ts → tag ∈ ts →
    Js.toLowerCase tag ∈ Tags.uniqueTags c ∧
    e ∈ Tags.filteredContent id c (Js.toLowerCase tag).
Proof.
  split; [reflexivity|].
  apply (tag_pages_are_never_empty id). intros l. reflexivity.
Defined.

(** X22 — Tag counts.  The index page counts, for each lower-cased tag,
    the number of times it is written on the entries, letter case apart;
    it has a count, at least 1, exactly for the tags that get a page; and
    the count is at least the number of entries the tag page lists, above
    it when an entry writes the tag twice. *)
Theorem tag_counts_match_tag_pages sort c t :
  (∀ l, sort l ≡ₚ l) →
  default 0 (Tags.tagCounts c !! t) = occurrences t (Tags.all_tags c) ∧
  (is_Some (Tags.tagCounts c !! t) ↔ t ∈ Tags.uniqueTags c) ∧
  (∀ n, Tags.tagCounts c !! t = Some n → 0 < n) ∧
  (Js.toLowerCase t = t →
     (length (Tags.filteredContent sort c t) ≤ default 0 (Tags.tagCounts c !! t))%nat).
Proof.
  intros Hsort. destruct (tagCounts_spec c t) as [Hcount Hpos].
  destruct (uniqueTags_spec c) as [Hmem _].
  split; [done|]. split; [|split; [by apply Hpos|]].
  - rewrite Hmem, <- occurrences_pos_iff, <- Hcount. split.
    + intros [n Hn]. rewrite Hn. cbn. by apply (Hpos t).
    + destruct (Tags.tagCounts c !! t); [by eexists|]. cbn. lia.
  - intros Hlow. rewrite Hcount. unfold Tags.filteredContent. rewrite (Hsort _).
    clear -Hlow. unfold Tags.all_tags.
    induction c as [|e c IH]; [cbn; lia|].
    rewrite filter_cons, bind_cons, occurrences_app.
    destruct (decide (Tags.has_tag t e = true)) as [He|He]; [|lia].
    cbn [length]. apply has_tag_true in He as (ts & -> & Hin); [|exact []].
    cbn [default from_option id]. rewrite Hlow in Hin.
    apply occurrences_pos_iff in Hin. lia.
Qed.

Lemma tag_counts_match_tag_pages_witness :
  let c := [ Tags.mkTagged (doc "a" "Apple" "") (Some ["JS"; "js"]);
             Tags.mkTagged (doc "c" "Cherry" "") (Some ["js"]) ] in
  Tags.tagCounts c !! "js" = Some 3 ∧ length (Tags.filteredContent id c "js") = 2 ∧
  default 0 (Tags.tagCounts c !! "js") = occurrences "js" (Tags.all_tags c) ∧
  (is_Some (Tags.tagCounts c !! "js") ↔ "js" ∈ Tags.uniqueTags c) ∧
  (∀ n, Tags.tagCounts c !! "js" = Some n → 0 < n) ∧
  (Js.toLowerCase "js" = "js" →
     (length (Tags.filteredContent id c "js") ≤ default 0 (Tags.tagCounts c !! "js"))%nat).
Proof.
  split; [reflexivity|]. split; [reflexivity|].
  apply (tag_counts_match_tag_pages id). intros l. reflexivity.
Defined.

(** ** The order of the keys of an emitted object *)

Section own_property_order.

Context {A : Type}.

Implicit Types (o : list (string * A)) (acc : list (N * (string * A))).

Lemma insert_by_index_Permutation n (x : string * A) acc :
  Js.insert_by_index n x acc ≡ₚ (n, x) :: acc.
Proof.
  induction acc as [|[n' x'] acc IH]; [done|]. cbn [Js.insert_by_index].
  destruct (n <? n')%N; [done|]. by rewrite IH, Permutation_swap.
Qed.

(** Enumeration reorders the properties and loses none. *)
Lemma own_property_order_Permutation o : Js.own_property_order o ≡ₚ o.
Proof.
  unfold Js.own_property_order.
  rewrite <- (filter_app_complement (fun kv => Js.array_index kv.1 = None) o) at 3.
  rewrite (Permutation_app_comm (filter _ o)). apply Permutation_app; [|done].
  change (filter (fun kv => ¬ Js.array_index kv.1 = None) o)
    with ((snd <$> ([] : list (N * (string * A))))
            ++ filter (fun kv => ¬ Js.array_index kv.1 = None) o).
  generalize ([] : list (N * (string * A))).
  induction o as [|kv o IH]; intros acc; cbn [foldl].
  - by rewrite filter_nil, app_nil_r.
  - rewrite IH, filter_cons. destruct (Js.array_index kv.1) as [n|] eqn:Hkv.
    + rewrite decide_True by done. rewrite insert_by_index_Permutation, fmap_cons.
      cbn [snd]. apply Permutation_middle.
    + by rewrite decide_False by (intros Hn; by apply Hn).
Qed.

End own_property_order.

(** Array indices come first, in increasing order; a numeral with a
    leading zero is an ordinary name. *)
Example own_property_order_example :
  (Js.own_property_order [("b", 1); ("10", 2); ("2", 3); ("01", 4)]).*1
    = ["2"; "10"; "b"; "01"].
Proof. reflexivity. Qed.

(** ** The build on another listing of the same entries *)

Section reordering.

Implicit Types (c : list Entry) (e : Entry).

(** When the lower-cased titles are distinct every entry owns its key. *)
Lemma titleToSlugMap_lookup_of_entry c e :
  NoDup (normalized_titles c) → e ∈ c →
  Backlinks.titleToSlugMap c !! Js.toLowerCase (title e) = Some (slug e).
Proof.
  intros Hnd He. apply list_elem_of_split in He as (c1 & c2 & ->).
  apply titleToSlugMap_last.
  unfold normalized_titles in Hnd. rewrite fmap_app, fmap_cons in Hnd.
  apply NoDup_app in Hnd as (_ & _ & Hnd). apply NoDup_cons in Hnd as [Hnotin _].
  apply Forall_forall. intros e' He' Heq. apply Hnotin. rewrite <- Heq.
  by apply (list_elem_of_fmap_2 (fun e => Js.toLowerCase (title e))).
Qed.

(** The title map does not depend on the order of the entries then. *)
Lemma titleToSlugMap_Permutation c c' :
  c' ≡ₚ c → NoDup (normalized_titles c) →
  Backlinks.titleToSlugMap c' = Backlinks.titleToSlugMap c.
Proof.
  intros Hp Hnd.
  assert (Hnd' : NoDup (normalized_titles c')).
  { unfold normalized_titles. by rewrite Hp. }
  apply map_eq. intros k. apply option_eq. intros s. split; intros Hk.
  - destruct (titleToSlugMap_lookup_Some _ _ _ Hk) as (e & He & <- & <-).
    apply titleToSlugMap_lookup_of_entry; [done|]. by rewrite <- Hp.
  - destruct (titleToSlugMap_lookup_Some _ _ _ Hk) as (e & He & <- & <-).
    apply titleToSlugMap_lookup_of_entry; [done|]. by rewrite Hp.
Qed.

Lemma refs_Permutation c c' : c' ≡ₚ c → refs c' ≡ₚ refs c.
Proof. intros Hp. unfold refs. by rewrite Hp. Qed.

(** With distinct slugs at most one entry carries a given one. *)
Lemma filter_slug_Permutation c c' k :
  c' ≡ₚ c → NoDup (slug <$> c) →
  filter (fun e => slug e = k) c' = filter (fun e => slug e = k) c.
Proof.
  intros Hp Hnd.
  assert (Hf : filter (fun e => slug e = k) c' ≡ₚ filter (fun e => slug e = k) c)
    by by rewrite Hp.
  assert (Hshort : ∀ e1 e2 l, filter (fun e => slug e = k) c ≠ e1 :: e2 :: l).
  { clear Hp Hf. induction c as [|e c IH]; [done|]. intros e1 e2 l.
    rewrite fmap_cons in Hnd. apply NoDup_cons in Hnd as [Hnotin Hnd].
    rewrite filter_cons. destruct (decide (slug e = k)) as [Hk|Hk]; [|by apply IH].
    intros [= <- Hrest]. apply Hnotin.
    assert (He2 : e2 ∈ filter (fun e => slug e = k) c) by (rewrite Hrest; by left).
    apply list_elem_of_filter in He2 as [Hk2 He2]. rewrite Hk, <- Hk2.
    by apply list_elem_of_fmap_2. }
  destruct (filter (fun e => slug e = k) c) as [|e1 [|e2 l]] eqn:Hfc.
  - by apply Permutation_nil_r.
  - by apply Permutation_singleton_r.
  - by destruct (Hshort e1 e2 l).
Qed.

(** The keys of the emitted object are the targets that have a source. *)
Lemma backlink_keys c out o out' k :
  Backlinks.collect c out = Ok (o, out') →
  k ∈ o.*1 ↔ ∃ a, a ∈ Backlinks.sources_of k o.
Proof.
  intros Hc. destruct (collect_shape _ _ _ _ Hc) as [Hnd Hall].
  rewrite Forall_forall in Hall. unfold Backlinks.sources_of. split.
  - intros Hk. apply list_elem_of_fmap in Hk as ([k' v] & -> & Hkv). cbn [fst].
    rewrite (own_of_elem _ _ _ Hnd Hkv). cbn [default from_option id].
    destruct (Hall _ Hkv) as (_ & _ & _ & Hne & _). cbn [snd] in Hne.
    destruct v as [|a v]; [done|]. exists a. by left.
  - intros [a Ha]. destruct (Backlinks.own k o) as [v|] eqn:Hown.
    + apply list_elem_of_fmap. exists (k, v). split; [done|]. by apply elem_of_own.
    + by apply elem_of_nil in Ha.
Qed.

(** The backlink generator on another listing: it throws for one exactly
    when it throws for the other, and what it returns differs by order
    only. *)
Lemma collect_Permutation c c' :
  c' ≡ₚ c → NoDup (normalized_titles c) →
  ((∃ msg, Backlinks.collect c' [] = TypeError msg)
     ↔ (∃ msg, Backlinks.collect c [] = TypeError msg)) ∧
  ∀ o out, Backlinks.collect c [] = Ok (o, out) →
    ∃ o' out', Backlinks.collect c' [] = Ok (o', out') ∧
      o'.*1 ≡ₚ o.*1 ∧
      (∀ k, Backlinks.sources_of k o' ≡ₚ Backlinks.sources_of k o) ∧
      out' ≡ₚ out.
Proof.
  intros Hp Hnd.
  pose proof (titleToSlugMap_Permutation _ _ Hp Hnd) as Hm.
  pose proof (refs_Permutation _ _ Hp) as Hrefs.
  assert (Hthrows : (∃ msg, Backlinks.collect c' [] = TypeError msg)
                      ↔ (∃ msg, Backlinks.collect c [] = TypeError msg)).
  { rewrite !collect_refs, !(loop_throws _ _ _ _ tidy_empty), Hm.
    split; intros (r & Hr & Hbad); exists r; (split; [|done]).
    - by rewrite <- Hrefs.
    - by rewrite Hrefs. }
  split; [done|]. intros o out Hc.
  destruct (Backlinks.collect c' []) as [[o' out']|msg] eqn:Hc'; cycle 1.
  { destruct Hthrows as [Hthrows _]. destruct Hthrows as [msg' Hmsg]; [by eexists|].
    congruence. }
  exists o', out'. split; [done|].
  destruct (collect_spec _ _ _ _ Hc) as [[Hmem Hnodup] ->].
  destruct (collect_spec _ _ _ _ Hc') as [[Hmem' Hnodup'] ->].
  rewrite Hm in Hmem'.
  assert (Hsources : ∀ k, Backlinks.sources_of k o' ≡ₚ Backlinks.sources_of k o).
  { intros k. apply NoDup_Permutation; [done..|]. intros a.
    rewrite Hmem, Hmem'. by rewrite Hrefs. }
  split; [|split; [done|]].
  - destruct (collect_shape _ _ _ _ Hc) as [Hkeys _].
    destruct (collect_shape _ _ _ _ Hc') as [Hkeys' _].
    apply NoDup_Permutation; [done..|]. intros k.
    rewrite (backlink_keys _ _ _ _ k Hc), (backlink_keys _ _ _ _ k Hc').
    split; intros [a Ha]; exists a.
    + by rewrite <- (Hsources k).
    + by rewrite (Hsources k).
  - cbn [app]. by rewrite Hm, Hrefs.
Qed.

End reordering.

(** C9, as the generators have it — reproducible up to order.  For one
    listing of the entries the artifacts, or the exception, do not depend
    on the files and console found at the start.  For two listings of a
    corpus whose lower-cased titles are distinct and whose slugs are
    distinct, the generators build the same things in another order: the
    same nodes, the same edges, the same documents handed to lunr, the
    same store item under each slug, the same backlink keys and the same
    sources under each key, the same warnings; and the build throws for
    one listing exactly when it throws for the other. *)
Theorem build_is_reproducible_up_to_order `{Runtime} c c' w w' :
  c' ≡ₚ c →
  NoDup (normalized_titles c) →
  NoDup (slug <$> c) →
  artifacts <$> build c w' = artifacts <$> build c w ∧
  Graph.nodes (Graph.graphData c') ≡ₚ Graph.nodes (Graph.graphData c) ∧
  Graph.edges (Graph.graphData c') ≡ₚ Graph.edges (Graph.graphData c) ∧
  (Search.collect c').1 ≡ₚ (Search.collect c).1 ∧
  (∀ k, SearchView.own k (Search.collect c').2 = SearchView.own k (Search.collect c).2) ∧
  ((∃ msg, build c' w' = TypeError msg) ↔ (∃ msg, build c w = TypeError msg)) ∧
  ∀ o out, Backlinks.collect c [] = Ok (o, out) →
    ∃ o' out', Backlinks.collect c' [] = Ok (o', out') ∧
      o'.*1 ≡ₚ o.*1 ∧
      (∀ k, Backlinks.sources_of k o' ≡ₚ Backlinks.sources_of k o) ∧
      out' ≡ₚ out.
Proof.
  intros Hp Htitles Hslugs.
  destruct (collect_Permutation _ _ Hp Htitles) as [Hthrows Hcollect].
  split; [apply build_ignores_the_initial_world|].
  split; [rewrite !graphData_spec; cbn [Graph.nodes]; by rewrite Hp|].
  split.
  { rewrite !graphData_spec. cbn [Graph.edges].
    by rewrite (titleToSlugMap_Permutation _ _ Hp Htitles), (refs_Permutation _ _ Hp). }
  split; [by rewrite !search_documents, Hp|].
  split.
  { intros k. rewrite !search_store_lookup.
    by rewrite (filter_slug_Permutation _ _ k Hp Hslugs). }
  split; [|done].
  rewrite !build_spec.
  destruct Hthrows as [Hto Hfrom]. split; intros [msg Hmsg].
  - destruct (Backlinks.collect c' []) as [st|msg'] eqn:Hc'; [done|].
    destruct Hto as [msg2 ->]; [by eexists|]. by eexists.
  - destruct (Backlinks.collect c []) as [st|msg'] eqn:Hc; [done|].
    destruct Hfrom as [msg2 ->]; [by eexists|]. by eexists.
Qed.

Lemma build_is_reproducible_up_to_order_witness :
  let c := corpus_unsorted in
  let c' := [ doc "a" "Apple" "see [[Banana]]"; doc "b" "Banana" "see [[Apple]]" ] in
  let w := empty_world in
  artifacts <$> @build demo_runtime c w = artifacts <$> @build demo_runtime c w ∧
  Graph.nodes (Graph.graphData c') ≡ₚ Graph.nodes (Graph.graphData c) ∧
  Graph.edges (Graph.graphData c') ≡ₚ Graph.edges (Graph.graphData c) ∧
  (Search.collect c').1 ≡ₚ (Search.collect c).1 ∧
  (∀ k, SearchView.own k (Search.collect c').2 = SearchView.own k (Search.collect c).2) ∧
  ((∃ msg, @build demo_runtime c' w = TypeError msg)
     ↔ (∃ msg, @build demo_runtime c w = TypeError msg)) ∧
  ∀ o out, Backlinks.collect c [] = Ok (o, out) →
    ∃ o' out', Backlinks.collect c' [] = Ok (o', out') ∧
      o'.*1 ≡ₚ o.*1 ∧
      (∀ k, Backlinks.sources_of k o' ≡ₚ Backlinks.sources_of k o) ∧
      out' ≡ₚ out.
Proof.
  apply (@build_is_reproducible_up_to_order demo_runtime corpus_unsorted
           [ doc "a" "Apple" "see [[Banana]]"; doc "b" "Banana" "see [[Apple]]" ]
           empty_world empty_world).
  - apply perm_swap.
  - apply (bool_decide_unpack _). reflexivity.
  - apply (bool_decide_unpack _). reflexivity.
Defined.

(** C9, as worded — refuted: the corpus of two notes listed as b, a and
    listed as a, b gives two graph artifacts that differ, whatever lunr
    returns: the node of b comes first in one and second in the other. *)
Lemma deterministic_in_the_snapshot_counterexample :
  ¬ ∃ lunr, @deterministic_in_the_snapshot (js_runtime lunr) corpus_unsorted.
Proof.
  intros [lunr Hclaim].
  specialize (Hclaim [ doc "a" "Apple" "see [[Banana]]"; doc "b" "Banana" "see [[Apple]]" ]
                     empty_world empty_world (perm_swap _ _ _)).
  rewrite !build_spec in Hclaim.
  apply (f_equal (fun r => match r with
                           | Ok (_, _, graph) => graph
                           | TypeError _ => None
                           end)) in Hclaim.
  vm_compute in Hclaim. discriminate Hclaim.
Qed.

(** ** Ranking of the search results *)

Section ranking.

Variables (stopwords : list string) (b : LunrBuilder) (term : string).

Implicit Types (d : SearchDocument).

Lemma leb_iff (s1 s2 : string) :
  String.leb s1 s2 = true ↔ s1 = s2 ∨ OrderedTypeEx.String_as_OT.lt s1 s2.
Proof.
  unfold String.leb. rewrite <- OrderedTypeEx.String_as_OT.cmp_lt.
  unfold OrderedTypeEx.String_as_OT.cmp.
  destruct (String.compare s1 s2) eqn:Hcmp.
  - apply String.compare_eq_iff in Hcmp. split; [by left|done].
  - split; [by right|done].
  - split; [done|]. intros [->|?]; [|done].
    assert (Heq : String.compare s2 s2 = Eq) by by apply OrderedTypeEx.String_as_OT.cmp_eq.
    congruence.
Qed.

Lemma leb_trans (s1 s2 s3 : string) :
  String.leb s1 s2 = true → String.leb s2 s3 = true → String.leb s1 s3 = true.
Proof.
  rewrite !leb_iff. intros [->|H12] [->|H23]; [by left|by right|by right|].
  right. by apply (OrderedTypeEx.String_as_OT.lt_trans _ s2).
Qed.


#[local] Instance precedes_total : Total (Ranking.precedes stopwords b term).
Proof.
  intros d1 d2. unfold Ranking.precedes, Ranking.before.
  rewrite (Nat.compare_antisym (Ranking.score stopwords b term d2)).
  destruct (Nat.compare (Ranking.score stopwords b term d2) (Ranking.score stopwords b term d1));
    cbn [CompOpp]; [apply String.leb_total|by left|by right].
Qed.

#[local] Instance precedes_trans : Transitive (Ranking.precedes stopwords b term).
Proof.
  intros d1 d2 d3. unfold Ranking.precedes, Ranking.before.
  destruct (Nat.compare_spec (Ranking.score stopwords b term d2)
                             (Ranking.score stopwords b term d1)) as [H21|H21|H21];
    destruct (Nat.compare_spec (Ranking.score stopwords b term d3)
                               (Ranking.score stopwords b term d2)) as [H32|H32|H32];
    try done; intros H12 H23.
  - replace (Nat.compare (Ranking.score stopwords b term d3) (Ranking.score stopwords b term d1))
      with Eq by (symmetry; apply Nat.compare_eq_iff; lia).
    by apply (leb_trans _ (d_id d2)).
  - replace (Nat.compare (Ranking.score stopwords b term d3) (Ranking.score stopwords b term d1))
      with Lt by (symmetry; apply Nat.compare_lt_iff; lia). done.
  - replace (Nat.compare (Ranking.score stopwords b term d3) (Ranking.score stopwords b term d1))
      with Lt by (symmetry; apply Nat.compare_lt_iff; lia). done.
  - replace (Nat.compare (Ranking.score stopwords b term d3) (Ranking.score stopwords b term d1))
      with Lt by (symmetry; apply Nat.compare_lt_iff; lia). done.
Qed.




End ranking.




(** The end-to-end example of the specification: the query "apple"
    returns the note titled Apple; the note titled Banana does not match. *)
Example search_end_to_end :
  d_id <$> Ranking.search []
             (Search.builder
                (Search.collect [ doc "A" "Apple" "see [[Banana]]";
                                  doc "B" "Banana" "no links" ]).1) "apple"
    = ["A"].
Proof. reflexivity. Qed.
